(** * The real-time room relay of [Game/server/index.ts]

    A shallow embedding of the WebSocket relay: the room registry, seat
    assignment, the roster broadcaster, the coalescing scheduler for
    [zones] updates, the heartbeat sweep and the room reaper.

    Conventions of the model.
    - A [WebSocket] object is identified by a number; its fields
      ([readyState], [bufferedAmount], [isAlive]) and the closure variable
      [me] of its connection handler live in the [sockets] store.
    - JavaScript strings are modelled by [string]; [toUpperCase] and [trim]
      are modelled on ASCII (no character outside ASCII upper-cases to one
      of the letters of "A", "B" or "AUTO").
    - The fields of a [join] envelope are taken after the coercion to a
      string the handler applies to them (a falsy field gives the empty
      string).
    - [ws.send], [ws.ping] and [ws.terminate] are recorded as [Action]s,
      in the order the handler performs them.
    - [randomBytes] and [Math.random] are inputs of the handler that draws
      from them.
    - The pending [setTimeout] callbacks of the scheduler are kept in
      [timers], oldest first; the heartbeat and reaper intervals are the
      events [EHeartbeat] and [EReap].
    - A [Player] object is shared by [me] and by the room that seats it;
      its only mutation, [me.alive = true], writes the value the field
      already has, so the two are kept as equal values.
    - A frame that [JSON.parse] turns into [null] is outside the model. *)

#[local] Set Warnings "-warn-library-file-stdlib-vector,-clear-no-such-hyp".

From Stdlib Require Import ZArith String Ascii.
From Stdlib.Strings Require Import Byte.
From Stdlib Require Vector.
From stdpp Require Import base option list gmap sets strings.

Local Open Scope string_scope.
Local Open Scope list_scope.

(** ** JavaScript strings *)

Module Js.

Definition upperChar (c : ascii) : ascii :=
  let n := nat_of_ascii c in
  if ((97 <=? n) && (n <=? 122))%nat then ascii_of_nat (n - 32) else c.

(** [String.prototype.toUpperCase] *)
Fixpoint toUpperCase (s : string) : string :=
  match s with
  | EmptyString => EmptyString
  | String c s' => String (upperChar c) (toUpperCase s')
  end.

(** white space and line terminators: TAB, LF, VT, FF, CR, SP *)
Definition isSpace (c : ascii) : bool :=
  let n := nat_of_ascii c in
  ((n =? 32) || ((9 <=? n) && (n <=? 13)))%nat.

Fixpoint trimStart (s : string) : string :=
  match s with
  | EmptyString => EmptyString
  | String c s' => if isSpace c then trimStart s' else s
  end.

Fixpoint trimEnd (s : string) : string :=
  match s with
  | EmptyString => EmptyString
  | String c s' =>
      match trimEnd s' with
      | EmptyString => if isSpace c then EmptyString else String c EmptyString
      | t => String c t
      end
  end.

(** [String.prototype.trim] *)
Definition trim (s : string) : string := trimEnd (trimStart s).

(** [s.slice(0, n)] *)
Definition slice0 (n : nat) (s : string) : string := substring 0 n s.

(** [a || b] on strings: the empty string is falsy *)
Definition orElse (a b : string) : string :=
  match a with EmptyString => b | _ => a end.

Definition hexDigit (n : N) : ascii :=
  nth (N.to_nat n) (list_ascii_of_string "0123456789abcdef") "0"%char.

Definition hexByte (b : byte) : string :=
  let n := Byte.to_N b in
  String (hexDigit (n / 16)) (String (hexDigit (n mod 16)) EmptyString).

(** [Buffer.prototype.toString("hex")] *)
Fixpoint toHex (l : list byte) : string :=
  match l with
  | [] => EmptyString
  | b :: l' => String.append (hexByte b) (toHex l')
  end.

Fixpoint allChars (P : ascii → bool) (s : string) : bool :=
  match s with
  | EmptyString => true
  | String c s' => P c && allChars P s'
  end.

Definition isLowerHex (c : ascii) : bool :=
  let n := nat_of_ascii c in
  (((48 <=? n) && (n <=? 57)) || ((97 <=? n) && (n <=? 102)))%nat.

End Js.

(** ** [Map<string, V>]: an association list in insertion order *)

Section JsMap.
Context {V : Type}.

Fixpoint Map_get (k : string) (m : list (string * V)) : option V :=
  match m with
  | [] => None
  | (k', v) :: m' => if decide (k = k') then Some v else Map_get k m'
  end.

Definition Map_has (k : string) (m : list (string * V)) : bool :=
  match Map_get k m with Some _ => true | None => false end.

(** an existing key keeps its position, a new key goes last *)
Fixpoint Map_set (k : string) (v : V) (m : list (string * V)) : list (string * V) :=
  match m with
  | [] => [(k, v)]
  | (k', v') :: m' =>
      if decide (k = k') then (k, v) :: m' else (k', v') :: Map_set k v m'
  end.

Definition Map_keys (m : list (string * V)) : list string := map fst m.
End JsMap.

(** ** [Set<T>]: a duplicate-free list in insertion order *)

Section JsSet.
Context {T : Type} `{EqDecision T}.

Definition Set_has (x : T) (l : list T) : bool := bool_decide (x ∈ l).

Definition Set_add (x : T) (l : list T) : list T :=
  if Set_has x l then l else l ++ [x].

Definition Set_delete (x : T) (l : list T) : list T :=
  filter (λ y, y ≠ x) l.
End JsSet.

(** ** Data model *)

Definition WebSocket := nat.

Inductive Seat := A | B.

#[global] Instance Seat_eq_dec : EqDecision Seat.
Proof. solve_decision. Defined.

Definition Seat_show (s : Seat) : string :=
  match s with A => "A" | B => "B" end.

Record Player := mkPlayer {
  p_id : string;
  p_ws : WebSocket;
  p_room : string;
  p_seat : Seat;
  p_name : string;
  p_alive : bool
}.

Record Room := mkRoom {
  seatA : option Player;
  seatB : option Player;
  spectators : option (list WebSocket)
}.

(** the object literal [{}] *)
Definition emptyRoom : Room := mkRoom None None None.

(** [room[seat]] *)
Definition getSeat (r : Room) (s : Seat) : option Player :=
  match s with A => seatA r | B => seatB r end.

(** [room[seat] = v] *)
Definition setSeat (r : Room) (s : Seat) (v : option Player) : Room :=
  match s with
  | A => mkRoom v (seatB r) (spectators r)
  | B => mkRoom (seatA r) v (spectators r)
  end.

Definition setSpectators (r : Room) (v : option (list WebSocket)) : Room :=
  mkRoom (seatA r) (seatB r) v.

(** [room.spectators], read where the code iterates it if present *)
Definition spectatorList (r : Room) : list WebSocket :=
  default [] (spectators r).

(** the opaque JSON carried by a [zones] message, as its text *)
Definition Json := string.

Record ZonesPayload := mkZones {
  fromSeat : Seat;
  zones : Json;
  seq : option Json
}.

Record RosterEntry := mkEntry {
  e_id : string;
  e_name : string;
  e_seat : Seat
}.

Inductive ServerMsg :=
| Hello
| Created (room : string)
| Joined (room id : string) (seat : Seat) (name : string)
| JoinedSpectator (room id name : string)
| Error (reason : string)
| Roster (room : string) (roster : list RosterEntry)
| Zones (payload : ZonesPayload).

Inductive ReadyState := CONNECTING | OPEN | CLOSING | CLOSED.

#[global] Instance ReadyState_eq_dec : EqDecision ReadyState.
Proof. solve_decision. Defined.

(** a [WebSocket] object together with the [me] of its handler closure *)
Record Socket := mkSocket {
  readyState : ReadyState;
  bufferedAmount : Z;
  isAlive : bool;
  me : option Player
}.

(** a pending [setTimeout(flush, delay)] for destination [target] *)
Record Timer := mkTimer {
  delay : Z;
  target : WebSocket
}.

#[global] Instance Timer_eq_dec : EqDecision Timer.
Proof. solve_decision. Defined.

Record Server := mkServer {
  rooms : list (string * Room);
  sockets : gmap WebSocket Socket;
  clients : list WebSocket;
  latestZones : gmap WebSocket ZonesPayload;
  ticking : gset WebSocket;
  timers : list Timer
}.

Definition initial : Server := mkServer [] ∅ [] ∅ ∅ [].

Definition setRooms (f : list (string * Room) → list (string * Room)) (s : Server) : Server :=
  mkServer (f (rooms s)) (sockets s) (clients s) (latestZones s) (ticking s) (timers s).

Definition setSockets (f : gmap WebSocket Socket → gmap WebSocket Socket) (s : Server) : Server :=
  mkServer (rooms s) (f (sockets s)) (clients s) (latestZones s) (ticking s) (timers s).

Definition setClients (f : list WebSocket → list WebSocket) (s : Server) : Server :=
  mkServer (rooms s) (sockets s) (f (clients s)) (latestZones s) (ticking s) (timers s).

Definition setLatestZones (f : gmap WebSocket ZonesPayload → gmap WebSocket ZonesPayload)
    (s : Server) : Server :=
  mkServer (rooms s) (sockets s) (clients s) (f (latestZones s)) (ticking s) (timers s).

Definition setTicking (f : gset WebSocket → gset WebSocket) (s : Server) : Server :=
  mkServer (rooms s) (sockets s) (clients s) (latestZones s) (f (ticking s)) (timers s).

Definition setTimers (f : list Timer → list Timer) (s : Server) : Server :=
  mkServer (rooms s) (sockets s) (clients s) (latestZones s) (ticking s) (f (timers s)).

(** what a handler does to the outside world *)
Inductive Action :=
| Send (to : WebSocket) (msg : ServerMsg)
| Ping (to : WebSocket)
| Terminate (to : WebSocket).

(** ** Constants of the source *)

Definition PORT : Z := 8080.
Definition DROP_THRESHOLD : Z := 256 * 1024.
Definition FLUSH_MS : Z := 33.
Definition REAP_MS : Z := 60000.
Definition NAME_MAX : nat := 24.

(** ** [send] *)

Definition readyStateOf (s : Server) (ws : WebSocket) : ReadyState :=
  match sockets s !! ws with
  | Some k => readyState k
  | None => CLOSED
  end.

Definition bufferedAmountOf (s : Server) (ws : WebSocket) : Z :=
  match sockets s !! ws with
  | Some k => bufferedAmount k
  | None => 0%Z
  end.

Definition send (s : Server) (ws : WebSocket) (msg : ServerMsg) (allowDrop : bool)
    : list Action :=
  if negb (bool_decide (readyStateOf s ws = OPEN)) then []
  else if allowDrop && (DROP_THRESHOLD <? bufferedAmountOf s ws)%Z then []
  else [Send ws msg].

(** ** [broadcastRoom] *)

Definition rosterEntry (p : Player) : RosterEntry :=
  mkEntry (p_id p) (p_name p) (p_seat p).

(** [[r.A, r.B].filter(Boolean)] *)
Definition occupants (r : Room) : list Player :=
  omap id [seatA r; seatB r].

Definition rosterOf (r : Room) : list RosterEntry :=
  map rosterEntry (occupants r).

Definition members (r : Room) : list WebSocket :=
  map p_ws (occupants r) ++ spectatorList r.

Definition broadcastRoom (s : Server) (roomId : string) : list Action :=
  match Map_get roomId (rooms s) with
  | None => []
  | Some r =>
      let msg := Roster roomId (rosterOf r) in
      concat (map (λ ws, send s ws msg false) (members r))
  end.

(** ** [generateUniqueRoomId]

    [draws] are the successive results of [randomBytes(16)]; the loop
    has not returned when they are used up. *)

(** [randomBytes(16).toString("hex")] for the bytes [d] drawn *)
Definition roomIdOf (d : Vector.t byte 16) : string := Js.toHex (Vector.to_list d).

Fixpoint generateUniqueRoomId (rs : list (string * Room))
    (draws : list (Vector.t byte 16)) : option string :=
  match draws with
  | [] => None
  | d :: rest =>
      let id := roomIdOf d in
      if Map_has id rs then generateUniqueRoomId rs rest else Some id
  end.

(** ** The coalescing scheduler *)

Definition scheduleFlush (to : WebSocket) (s : Server) : Server :=
  if decide (to ∈ ticking s) then s
  else setTimers (λ ts, ts ++ [mkTimer FLUSH_MS to])
         (setTicking (λ t, {[to]} ∪ t) s).

(** the closure [push] of the [zones] handler *)
Definition push (payload : ZonesPayload) (sock : WebSocket) (s : Server) : Server :=
  scheduleFlush sock (setLatestZones (λ m, <[sock := payload]> m) s).

(** the callback given to [setTimeout] by [scheduleFlush] *)
Definition flush (to : WebSocket) (s : Server) : Server * list Action :=
  let s1 := setTicking (λ t, t ∖ {[to]}) s in
  match latestZones s1 !! to with
  | None => (s1, [])
  | Some payload =>
      (setLatestZones (λ m, delete to m) s1, send s1 to (Zones payload) true)
  end.

(** the oldest pending timer for [to] leaves the timer queue *)
Fixpoint dropTimer (to : WebSocket) (ts : list Timer) : list Timer :=
  match ts with
  | [] => []
  | t :: ts' => if decide (target t = to) then ts' else t :: dropTimer to ts'
  end.

Definition timerPending (to : WebSocket) (s : Server) : bool :=
  bool_decide (to ∈ map target (timers s)).

(** a sequence of pushes, each with its payload and destination *)
Definition pushes (ops : list (ZonesPayload * WebSocket)) (s : Server) : Server :=
  foldl (λ acc op, push op.1 op.2 acc) s ops.

(** the payload of the last push of [ops] whose destination is [to] *)
Fixpoint lastFor (to : WebSocket) (ops : list (ZonesPayload * WebSocket))
    : option ZonesPayload :=
  match ops with
  | [] => None
  | op :: rest =>
      match lastFor to rest with
      | Some p => Some p
      | None => if decide (op.2 = to) then Some op.1 else None
      end
  end.

(** ** Messages of a client and the random draws of their handler *)

Inductive ClientMsg :=
| Unparsable
| MCreate
| MJoin (room seat name : string)
| MZones (zones : Json) (seq : option Json)
| MOther (type : string).

Record Random := mkRandom {
  randomBytes16 : list (Vector.t byte 16);
  mathRandom : string
}.

(** ** The [create] branch *)

(** lines 90-91: the registry operation behind [create] *)
Definition createRoom (rnd : Random) (s : Server) : option (string * Server) :=
  match generateUniqueRoomId (rooms s) (randomBytes16 rnd) with
  | None => None
  | Some roomId =>
      Some (roomId,
            if Map_has roomId (rooms s) then s
            else setRooms (Map_set roomId emptyRoom) s)
  end.

Definition handleCreate (ws : WebSocket) (rnd : Random) (s : Server)
    : option (Server * list Action) :=
  match createRoom rnd s with
  | None => None
  | Some (roomId, s1) => Some (s1, send s1 ws (Created roomId) false)
  end.

(** [createRoom] called once per element of [rnds], one call after the other *)
Fixpoint createRooms (rnds : list Random) (s : Server) : option (list string * Server) :=
  match rnds with
  | [] => Some ([], s)
  | rnd :: rest =>
      match createRoom rnd s with
      | None => None
      | Some (id, s1) =>
          match createRooms rest s1 with
          | None => None
          | Some (ids, s2) => Some (id :: ids, s2)
          end
      end
  end.

(** every call draws, sooner or later, an id that is neither in [seen] nor
    among the ids drawn by the calls before it *)
Fixpoint freshSupply (seen : list string) (rnds : list Random) : Prop :=
  match rnds with
  | [] => True
  | rnd :: rest =>
      (∃ d, d ∈ randomBytes16 rnd ∧ roomIdOf d ∉ seen) ∧
      freshSupply (seen ++ map roomIdOf (randomBytes16 rnd)) rest
  end.

(** ** The [join] branch *)

(** lines 106-111: the seat decided for a request, [None] for "spectator" *)
Definition pickAuto (room : Room) : option Seat :=
  match seatA room with
  | None => Some A
  | Some _ => match seatB room with None => Some B | Some _ => None end
  end.

Definition decideSeat (requested : string) (room : Room) : option Seat :=
  if decide (requested = "A") then Some A
  else if decide (requested = "B") then Some B
  else if decide (requested = "AUTO") then pickAuto room
  else None.

Definition setMe (ws : WebSocket) (p : Player) (m : gmap WebSocket Socket)
    : gmap WebSocket Socket :=
  match m !! ws with
  | Some k => <[ws := mkSocket (readyState k) (bufferedAmount k) (isAlive k) (Some p)]> m
  | None => m
  end.

Definition handleJoin (ws : WebSocket) (room0 seat0 name0 : string) (rnd : Random)
    (s : Server) : Server * list Action :=
  let roomId := Js.trim room0 in
  let requested := Js.toUpperCase seat0 in
  let name := Js.slice0 NAME_MAX (Js.orElse (Js.trim name0) "Player") in
  if decide (roomId = EmptyString) then (s, send s ws (Error "room required") false)
  else
    let room := default emptyRoom (Map_get roomId (rooms s)) in
    let s1 := setRooms (Map_set roomId room) s in
    match decideSeat requested room with
    | None =>
        let room' := setSpectators room (Some (Set_add ws (spectatorList room))) in
        let s2 := setRooms (Map_set roomId room') s1 in
        let id := String.append "Spectator-" (mathRandom rnd) in
        (s2, send s2 ws (JoinedSpectator roomId id name) false
               ++ broadcastRoom s2 roomId)
    | Some seat =>
        match getSeat room seat with
        | Some _ =>
            (s1, send s1 ws
                   (Error (String.append "Seat "
                             (String.append (Seat_show seat) " is occupied")))
                   false)
        | None =>
            let id := String.append "Player-" (mathRandom rnd) in
            let p := mkPlayer id ws roomId seat name true in
            let s2 := setRooms (Map_set roomId (setSeat room seat (Some p)))
                        (setSockets (setMe ws p) s1) in
            (s2, send s2 ws (Joined roomId id seat name) false
                   ++ broadcastRoom s2 roomId)
        end
    end.

(** ** The [zones] branch, reached when [me] is set *)

Definition otherSeat (s : Seat) : Seat :=
  match s with A => B | B => A end.

(** the sockets the handler pushes to, in the order it does *)
Definition relayTargets (room : Room) (p : Player) : list WebSocket :=
  match getSeat room (otherSeat (p_seat p)) with
  | Some other => [p_ws other]
  | None => []
  end ++ spectatorList room.

Definition pushAll (payload : ZonesPayload) (targets : list WebSocket) (s : Server)
    : Server :=
  foldl (λ acc sock, push payload sock acc) s targets.

Definition handleZones (p : Player) (z : Json) (sq : option Json) (s : Server)
    : Server * list Action :=
  match Map_get (p_room p) (rooms s) with
  | None => (s, [])
  | Some room =>
      let payload := mkZones (p_seat p) z sq in
      (pushAll payload (relayTargets room p) s, [])
  end.

Definition meOf (s : Server) (ws : WebSocket) : option Player :=
  match sockets s !! ws with
  | Some k => me k
  | None => None
  end.

(** ** [ws.on("message")] *)

Definition onMessage (ws : WebSocket) (msg : ClientMsg) (rnd : Random) (s : Server)
    : option (Server * list Action) :=
  match msg with
  | Unparsable => Some (s, [])
  | MCreate => handleCreate ws rnd s
  | MJoin room seat name => Some (handleJoin ws room seat name rnd s)
  | MZones z sq =>
      match meOf s ws with
      | Some p => Some (handleZones p z sq s)
      | None => Some (s, [])
      end
  | MOther _ => Some (s, [])
  end.

(** ** [wss.on("connection")] and [ws.on("pong")] *)

Definition onConnection (ws : WebSocket) (s : Server) : Server * list Action :=
  let s1 := setClients (λ l, Set_add ws l)
              (setSockets (λ m, <[ws := mkSocket OPEN 0 true None]> m) s) in
  (s1, send s1 ws Hello false).

Definition markAlive (p : Player) : Player :=
  mkPlayer (p_id p) (p_ws p) (p_room p) (p_seat p) (p_name p) true.

Definition onPong (ws : WebSocket) (s : Server) : Server :=
  match sockets s !! ws with
  | Some k =>
      setSockets (λ m, <[ws := mkSocket (readyState k) (bufferedAmount k) true
                                (markAlive <$> me k)]> m) s
  | None => s
  end.

(** ** [ws.on("close")]

    When the event is emitted the socket is [CLOSED] and no longer among
    [wss.clients]. *)

Definition closeSocket (ws : WebSocket) (s : Server) : Server :=
  setClients (Set_delete ws)
    (setSockets (λ m,
       match m !! ws with
       | Some k => <[ws := mkSocket CLOSED (bufferedAmount k) (isAlive k) (me k)]> m
       | None => m
       end) s).

(** the loop over [rooms] for a socket without [me]: the first room whose
    spectators held [ws], and the rooms after the deletion *)
Fixpoint leaveSpectators (ws : WebSocket) (rs : list (string * Room))
    : option string * list (string * Room) :=
  match rs with
  | [] => (None, [])
  | (id, r) :: rest =>
      if Set_has ws (spectatorList r) then
        let sp := Set_delete ws (spectatorList r) in
        let r' := setSpectators r (match sp with [] => None | _ => Some sp end) in
        (Some id, (id, r') :: rest)
      else
        let '(found, rest') := leaveSpectators ws rest in
        (found, (id, r) :: rest')
  end.

Definition vacate (p : Player) (room : Room) : Room :=
  match getSeat room (p_seat p) with
  | Some q => if decide (p_id q = p_id p) then setSeat room (p_seat p) None else room
  | None => room
  end.

Definition closeHandler (ws : WebSocket) (mine : option Player) (s : Server)
    : Server * list Action :=
  match mine with
  | None =>
      match leaveSpectators ws (rooms s) with
      | (Some id, rs') =>
          let s1 := setRooms (λ _, rs') s in
          (s1, broadcastRoom s1 id)
      | (None, _) => (s, [])
      end
  | Some p =>
      match Map_get (p_room p) (rooms s) with
      | None => (s, [])
      | Some room =>
          let s1 := setRooms (Map_set (p_room p) (vacate p room)) s in
          (s1, broadcastRoom s1 (p_room p))
      end
  end.

Definition onClose (ws : WebSocket) (s : Server) : Server * list Action :=
  closeHandler ws (meOf s ws) (closeSocket ws s).

(** ** The heartbeat sweep *)

(** [ws.terminate()] *)
Definition terminate (k : Socket) : Socket :=
  match readyState k with
  | CLOSED => k
  | _ => mkSocket CLOSING (bufferedAmount k) (isAlive k) (me k)
  end.

Definition sweepSocket (acc : Server * list Action) (ws : WebSocket)
    : Server * list Action :=
  match sockets acc.1 !! ws with
  | None => acc
  | Some k =>
      if isAlive k then
        (setSockets (λ m, <[ws := mkSocket (readyState k) (bufferedAmount k) false (me k)]> m)
           acc.1,
         acc.2 ++ (if decide (readyState k = OPEN) then [Ping ws] else []))
      else
        (setSockets (λ m, <[ws := terminate k]> m) acc.1, acc.2 ++ [Terminate ws])
  end.

Definition heartbeat (s : Server) : Server * list Action :=
  foldl sweepSocket (s, []) (clients s).

(** a socket after a sweep that found it confirmed *)
Definition unconfirmed (k : Socket) : Socket :=
  mkSocket (readyState k) (bufferedAmount k) false (me k).

(** what one sweep does to a socket and what it emits for it *)
Definition sweptSocket (k : Socket) : Socket :=
  if isAlive k then unconfirmed k else terminate k.

Definition sweepActions (s : Server) (ws : WebSocket) : list Action :=
  match sockets s !! ws with
  | None => []
  | Some k =>
      if isAlive k then (if decide (readyState k = OPEN) then [Ping ws] else [])
      else [Terminate ws]
  end.

(** ** The room reaper *)

Definition hasPlayers (r : Room) : bool :=
  match seatA r, seatB r with
  | None, None => false
  | _, _ => true
  end.

Definition hasSpectators (r : Room) : bool :=
  match spectators r with
  | Some (_ :: _) => true
  | _ => false
  end.

Definition reap (s : Server) : Server :=
  setRooms (filter (λ kv, hasPlayers kv.2 || hasSpectators kv.2 = true)) s.

(** ** The event loop *)

Inductive Event :=
| EConnection (ws : WebSocket)
| EMessage (ws : WebSocket) (msg : ClientMsg) (rnd : Random)
| EPong (ws : WebSocket)
| EClose (ws : WebSocket)
| EBuffered (ws : WebSocket) (amount : Z)
| ETimeout (to : WebSocket)
| EHeartbeat
| EReap.

Definition isClient (ws : WebSocket) (s : Server) : bool :=
  Set_has ws (clients s).

Definition setBuffered (ws : WebSocket) (n : Z) (s : Server) : Server :=
  match sockets s !! ws with
  | Some k => setSockets (λ m, <[ws := mkSocket (readyState k) n (isAlive k) (me k)]> m) s
  | None => s
  end.

(** one turn of the event loop; [None] when the event cannot occur in [s]
    or its handler does not return *)
Definition step (s : Server) (e : Event) : option (Server * list Action) :=
  match e with
  | EConnection ws =>
      match sockets s !! ws with
      | None => Some (onConnection ws s)
      | Some _ => None
      end
  | EMessage ws msg rnd => if isClient ws s then onMessage ws msg rnd s else None
  | EPong ws => if isClient ws s then Some (onPong ws s, []) else None
  | EClose ws => if isClient ws s then Some (onClose ws s) else None
  | EBuffered ws n => if isClient ws s then Some (setBuffered ws n s, []) else None
  | ETimeout to =>
      if timerPending to s then Some (flush to (setTimers (dropTimer to) s)) else None
  | EHeartbeat => Some (heartbeat s)
  | EReap => Some (reap s, [])
  end.

Fixpoint run (s : Server) (es : list Event) : option (Server * list Action) :=
  match es with
  | [] => Some (s, [])
  | e :: es' =>
      match step s e with
      | None => None
      | Some (s1, out1) =>
          match run s1 es' with
          | None => None
          | Some (s2, out2) => Some (s2, out1 ++ out2)
          end
      end
  end.

Definition reachable (s : Server) : Prop :=
  ∃ es out, run initial es = Some (s, out).

(** the [zones] messages of one sender, as events *)
Definition zonesEvents (ws : WebSocket) (rnd : Random) (msgs : list (Json * option Json))
    : list Event :=
  map (λ m, EMessage ws (MZones m.1 m.2) rnd) msgs.

(** the two halves of a run of pushes: what it schedules, what it stores *)
Definition scheduleAll (targets : list WebSocket) (s : Server) : Server :=
  foldl (λ acc sock, scheduleFlush sock acc) s targets.

Definition insertAll (payload : ZonesPayload) (targets : list WebSocket)
    (m : gmap WebSocket ZonesPayload) : gmap WebSocket ZonesPayload :=
  foldl (λ acc sock, <[sock := payload]> acc) m targets.

(** a flush scheduled for [to] has its timer in the queue *)
Definition scheduledPending (to : WebSocket) (s : Server) : Prop :=
  to ∈ ticking s → to ∈ map target (timers s).

(** ** Seat assignment *)

(** the three ways lines 108-121 leave the seat decision *)
Inductive Assignment :=
| Seated (seat : Seat)
| Spectating
| Occupied (seat : Seat).

Definition assign (requested : string) (room : Room) : Assignment :=
  match decideSeat requested room with
  | None => Spectating
  | Some seat =>
      match getSeat room seat with
      | Some _ => Occupied seat
      | None => Seated seat
      end
  end.

Definition isFree (room : Room) (seat : Seat) : bool :=
  match getSeat room seat with None => true | Some _ => false end.

Definition occupiedReason (seat : Seat) : string :=
  String.append "Seat " (String.append (Seat_show seat) " is occupied").

(** the room a join request looks at *)
Definition roomOf (s : Server) (roomId : string) : Room :=
  default emptyRoom (Map_get roomId (rooms s)).

Definition joinName (name0 : string) : string :=
  Js.slice0 NAME_MAX (Js.orElse (Js.trim name0) "Player").

Definition playerOf (ws : WebSocket) (roomId : string) (seat : Seat)
    (name0 : string) (rnd : Random) : Player :=
  mkPlayer (String.append "Player-" (mathRandom rnd)) ws roomId seat (joinName name0) true.

(** the observable outcomes of a [join] for the connection that sent it *)
Definition seatedAt (ws : WebSocket) (roomId : string) (seat : Seat)
    (res : Server * list Action) : Prop :=
  ∃ p rest,
    p_ws p = ws ∧ p_room p = roomId ∧ p_seat p = seat ∧
    getSeat (roomOf res.1 roomId) seat = Some p ∧
    meOf res.1 ws = Some p ∧
    res.2 = Send ws (Joined roomId (p_id p) seat (p_name p)) :: rest.

Definition spectatingIn (ws : WebSocket) (roomId : string)
    (res : Server * list Action) : Prop :=
  ∃ id name rest,
    ws ∈ spectatorList (roomOf res.1 roomId) ∧
    res.2 = Send ws (JoinedSpectator roomId id name) :: rest.

Definition rejectedFor (ws : WebSocket) (seat : Seat) (s : Server)
    (res : Server * list Action) : Prop :=
  res = (s, [Send ws (Error (occupiedReason seat))]).

Definition joinOutcome (ws : WebSocket) (roomId : string) (s : Server)
    (res : Server * list Action) (a : Assignment) : Prop :=
  match a with
  | Seated seat => seatedAt ws roomId seat res
  | Spectating => spectatingIn ws roomId res
  | Occupied seat => rejectedFor ws seat s res
  end.

(** ** Invariants of the reachable states *)

(** a seated player records the seat and the room it sits in *)
Definition seatsConsistent (s : Server) : Prop :=
  ∀ k r seat p,
    (k, r) ∈ rooms s → getSeat r seat = Some p →
    p_seat p = seat ∧ p_room p = k ∧ p_alive p = true.

(** the [me] of a connected socket sits in the seat it records *)
Definition meConsistent (s : Server) : Prop :=
  ∀ ws p,
    ws ∈ clients s → meOf s ws = Some p →
    p_ws p = ws ∧
    ∃ r, Map_get (p_room p) (rooms s) = Some r ∧ getSeat r (p_seat p) = Some p.

Definition keysUnique (s : Server) : Prop := NoDup (Map_keys (rooms s)).

Definition clientsValid (s : Server) : Prop :=
  NoDup (clients s) ∧ ∀ ws, ws ∈ clients s → is_Some (sockets s !! ws).

(** [ticking] holds exactly the destinations with a pending flush timer *)
Definition timersConsistent (s : Server) : Prop :=
  NoDup (map target (timers s)) ∧
  ∀ d, d ∈ ticking s ↔ d ∈ map target (timers s).

(** a non-empty slot has its flush scheduled *)
Definition slotsScheduled (s : Server) : Prop :=
  ∀ d, is_Some (latestZones s !! d) → d ∈ ticking s.

Definition Inv (s : Server) : Prop :=
  seatsConsistent s ∧ meConsistent s ∧ keysUnique s ∧ clientsValid s ∧
  timersConsistent s ∧ slotsScheduled s.

(** an update of the sockets that keeps every [me] *)
Definition keepsMe (s s' : Server) : Prop :=
  rooms s' = rooms s ∧ clients s' = clients s ∧
  latestZones s' = latestZones s ∧ ticking s' = ticking s ∧ timers s' = timers s ∧
  (∀ ws, meOf s' ws = meOf s ws) ∧
  (∀ ws, is_Some (sockets s !! ws) → is_Some (sockets s' !! ws)).

(** the socket [ws] occupies a seat of some room *)
Definition holdsSeat (ws : WebSocket) (s : Server) : Prop :=
  ∃ roomId r seat p,
    Map_get roomId (rooms s) = Some r ∧ getSeat r seat = Some p ∧ p_ws p = ws.

(** who is in room [roomId]: its two seats and its spectators *)
Definition membership (s : Server) (roomId : string)
    : option Player * option Player * list WebSocket :=
  let r := roomOf s roomId in (seatA r, seatB r, spectatorList r).

(** the scheduler as a whole: slots, flags and timers *)
Definition schedulerOf (s : Server)
    : gmap WebSocket ZonesPayload * gset WebSocket * list Timer :=
  (latestZones s, ticking s, timers s).

(** the room a [join] leaves under its room id *)
Definition joinedRoom (ws : WebSocket) (roomId requested name0 : string) (rnd : Random)
    (room : Room) : Room :=
  match assign requested room with
  | Seated seat => setSeat room seat (Some (playerOf ws roomId seat name0 rnd))
  | Spectating => setSpectators room (Some (Set_add ws (spectatorList room)))
  | Occupied _ => room
  end.

(** ** States used to exercise the statements *)

(** ten [zones] messages, "z1" to "z10" *)
Definition tenUpdates : list (Json * option Json) :=
  [("z1", None); ("z2", None); ("z3", None); ("z4", None); ("z5", None);
   ("z6", None); ("z7", None); ("z8", None); ("z9", None); ("z10", Some "10")].


Definition rnd0 : Random := mkRandom [] "k3x9q".

Definition draw1 : Vector.t byte 16 :=
  Vector.of_list [x00; x1f; xa2; xb3; xc4; xd5; xe6; xf7;
                  x08; x19; x2a; x3b; x4c; x5d; x6e; x7f]%byte.

Definition draw2 : Vector.t byte 16 :=
  Vector.of_list [xff; xee; xdd; xcc; xbb; xaa; x99; x88;
                  x77; x66; x55; x44; x33; x22; x11; x00]%byte.

(** three connected sockets, no room *)
Definition lobby : Server :=
  (onConnection 3 (onConnection 2 (onConnection 1 initial).1).1).1.

(** socket 1 seated at A of room "r1" *)
Definition oneSeated : Server :=
  (handleJoin 1 "r1" "A" "Ann" rnd0 lobby).1.

(** sockets 1 and 2 seated at A and B of room "r1", socket 3 watching *)
Definition fullRoom : Server :=
  (handleJoin 3 "r1" "spectator" "Cy" rnd0
     (handleJoin 2 "r1" "AUTO" "Bob" (mkRandom [] "p7w2m") oneSeated).1).1.

(** the events that lead from [initial] to [fullRoom] *)
Definition fullRoomTrace : list Event :=
  [EConnection 1; EConnection 2; EConnection 3;
   EMessage 1 (MJoin "r1" "A" "Ann") rnd0;
   EMessage 2 (MJoin "r1" "AUTO" "Bob") (mkRandom [] "p7w2m");
   EMessage 3 (MJoin "r1" "spectator" "Cy") rnd0].

(** socket 3 of [fullRoom] goes away *)
Definition spectatorLeaves : Event := EClose 3.

(** the player record of socket 1 in [fullRoom] *)
Definition ann : Player := mkPlayer "Player-k3x9q" 1 "r1" A "Ann" true.

(** socket 2 of [fullRoom] with a payload pending and 300000 bytes buffered *)
Definition congested : Server :=
  setBuffered 2 300000 (pushAll (mkZones A "z1" None) [2] fullRoom).

(** ** Well-formedness of the registry *)

(** the socket object [ws] exists *)
Definition known (s : Server) (ws : WebSocket) : Prop := is_Some (sockets s !! ws).

Definition playerOk (s : Server) (p : Player) : Prop :=
  known s (p_ws p) ∧
  p_name p ≠ EmptyString ∧ (String.length (p_name p) ≤ NAME_MAX)%nat ∧
  ∃ token, p_id p = String.append "Player-" token.

(** a [spectators] set that is present is not empty *)
Definition spectatorsOk (s : Server) (r : Room) : Prop :=
  ∀ l, spectators r = Some l → l ≠ [] ∧ NoDup l ∧ ∀ w, w ∈ l → known s w.

Definition registryOk (s : Server) : Prop :=
  ∀ k r, (k, r) ∈ rooms s →
    k ≠ EmptyString ∧ Js.trim k = k ∧
    (∀ seat p, getSeat r seat = Some p → playerOk s p) ∧
    spectatorsOk s r.

Definition timersOk (s : Server) : Prop :=
  ∀ t, t ∈ timers s → delay t = FLUSH_MS.

(** the test of the reaper: the room has a player or a spectator *)
Definition isLive (r : Room) : bool := hasPlayers r || hasSpectators r.

(** [room.spectators] after [delete(ws)] and the removal of an empty set *)
Definition spectatorsWithout (ws : WebSocket) (r : Room) : Room :=
  let sp := Set_delete ws (spectatorList r) in
  setSpectators r (match sp with [] => None | _ => Some sp end).

(** nobody connected has [q] as its player record *)
Definition orphaned (q : Player) (s : Server) : Prop :=
  ∀ ws, ws ∈ clients s → meOf s ws ≠ Some q.

(** seat [seat] of room [k] is held by [q] *)
Definition seatHeldBy (s : Server) (k : string) (seat : Seat) (q : Player) : Prop :=
  ∃ r, Map_get k (rooms s) = Some r ∧ getSeat r seat = Some q.

(** ** More states used to exercise the statements *)

(** one connected socket and a room just created *)
Definition createdTrace : list Event :=
  [EConnection 1; EMessage 1 MCreate (mkRandom [draw1] EmptyString)].

Definition created : Server :=
  setRooms (Map_set (roomIdOf draw1) emptyRoom) (onConnection 1 initial).1.

(** socket 1 joins seat A and then seat B of room "r1" *)
Definition twoSeatsTrace : list Event :=
  [EConnection 1; EConnection 2; EConnection 3;
   EMessage 1 (MJoin "r1" "A" "Ann") rnd0;
   EMessage 1 (MJoin "r1" "B" "Ann") (mkRandom [] "zzzzz")].

Definition twoSeats : Server :=
  (handleJoin 1 "r1" "B" "Ann" (mkRandom [] "zzzzz") oneSeated).1.

(** socket 2 of [fullRoom] with a payload pending *)
Definition pendingFlush : Server := pushAll (mkZones A "z1" None) [2] fullRoom.

(** [fullRoom] after socket 1 has sent one zones message *)
Definition relayedTrace : list Event :=
  fullRoomTrace ++ [EMessage 1 (MZones "z1" None) rnd0].

Definition relayed : Server := (handleZones ann "z1" None fullRoom).1.

(** socket 1 seated at A of room "r1" and watching the same room *)
Definition seatedSpectatorTrace : list Event :=
  [EConnection 1; EConnection 2; EConnection 3;
   EMessage 1 (MJoin "r1" "A" "Ann") rnd0;
   EMessage 1 (MJoin "r1" "spectator" "Ann") rnd0].

Definition seatedSpectator : Server :=
  (handleJoin 1 "r1" "spectator" "Ann" rnd0 oneSeated).1.

(** socket 3 watching rooms "r1" and "r2" *)
Definition twoRoomsTrace : list Event :=
  fullRoomTrace ++ [EMessage 3 (MJoin "r2" "spectator" "Cy") rnd0].

Definition twoRooms : Server :=
  (handleJoin 3 "r2" "spectator" "Cy" rnd0 fullRoom).1.

(** ** The client hook [useRoom] (src/net/useRoom.ts)

    The state variables of the hook are the fields of [State]; the
    reference [wsRef] is kept with them.  The socket objects of the client
    are numbered.  A server message is handled in the shape the server
    wrote it.  [truthy] tells whether the value of the [zones] field of a
    relayed payload is truthy. *)

Module Client.

(** [x.toString(16)] for an element of a [Uint8Array] *)
Definition toString16 (x : byte) : string :=
  let n := Byte.to_N x in
  if (n <? 16)%N then String (Js.hexDigit n) EmptyString
  else String (Js.hexDigit (n / 16)) (String (Js.hexDigit (n mod 16)) EmptyString).

(** [s.padStart(n, c)] for a filler of one character *)
Definition padStart (n : nat) (c : ascii) (s : string) : string :=
  String.append (string_of_list_ascii (replicate (n - String.length s) c)) s.

(** [generateRoomId(bytes)]: [a] holds the [bytes] random values drawn *)
Definition generateRoomId (a : list byte) : string :=
  String.concat EmptyString (map (λ x, padStart 2 "0"%char (toString16 x)) a).

Inductive Role := RolePlayer | RoleSpectator.

Inductive Status := Connecting | Open | Closed.

#[global] Instance Role_eq_dec : EqDecision Role.
Proof. solve_decision. Defined.

Record State := mkState {
  status : Status;
  players : list RosterEntry;
  myId : string;
  myName : string;
  role : Role;
  mySeat : option Seat;
  opponentZones : option Json;
  wsRef : option nat
}.

(** the values given to [useState] and [useRef] *)
Definition initialState (playerName : string) : State :=
  mkState Connecting [] EmptyString playerName RolePlayer None None None.

(** the body of the effect, with [ws] the socket it creates *)
Definition effect (room playerName : string) (ws : nat) (c : State) : State :=
  if decide (room = EmptyString) then c
  else mkState Connecting (players c) EmptyString playerName RolePlayer None
         (opponentZones c) (Some ws).

(** the function the effect returns *)
Definition cleanup (ws : nat) (c : State) : State :=
  if decide (wsRef c = Some ws)
  then mkState (status c) (players c) (myId c) (myName c) (role c) (mySeat c)
         (opponentZones c) None
  else c.

Definition onopen (room playerName : string) (c : State) : State * ClientMsg :=
  (mkState Open (players c) (myId c) (myName c) (role c) (mySeat c)
     (opponentZones c) (wsRef c),
   MJoin room "AUTO" playerName).

Definition onclose (c : State) : State :=
  mkState Closed (players c) (myId c) (myName c) (role c) (mySeat c)
    (opponentZones c) (wsRef c).

(** [if (msg.name) setMyName(String(msg.name))] *)
Definition named (name : string) (c : State) : string :=
  match name with EmptyString => myName c | _ => name end.

Definition onmessage (truthy : Json → bool) (ws : nat) (msg : ServerMsg) (c : State)
    : State :=
  if decide (wsRef c = Some ws) then
    match msg with
    | Hello => c
    | Error _ =>
        mkState (status c) (players c) (myId c) (myName c) RoleSpectator None
          (opponentZones c) (wsRef c)
    | Joined _ id seat name =>
        mkState (status c) (players c) (Js.orElse id EmptyString) (named name c)
          RolePlayer (Some seat) (opponentZones c) (wsRef c)
    | JoinedSpectator _ id name =>
        mkState (status c) (players c) (Js.orElse id EmptyString) (named name c)
          RoleSpectator None (opponentZones c) (wsRef c)
    | Roster _ roster =>
        mkState (status c) roster (myId c) (myName c) (role c) (mySeat c)
          (opponentZones c) (wsRef c)
    | Zones payload =>
        mkState (status c) (players c) (myId c) (myName c) (role c) (mySeat c)
          (if truthy (zones payload) then Some (zones payload) else None) (wsRef c)
    | Created _ => c
    end
  else c.

(** [sendZoneState(zones)], with [rs] the [readyState] of the socket *)
Definition sendZoneState (rs : ReadyState) (z : Json) (c : State) : option ClientMsg :=
  match wsRef c with
  | None => None
  | Some _ =>
      if decide (rs = OPEN ∧ role c = RolePlayer) then Some (MZones z None) else None
  end.

Definition isFull (c : State) : bool := (2 <=? length (players c))%nat.

(** the messages of [msgs] handled one after the other *)
Definition receive (truthy : Json → bool) (ws : nat) (msgs : list ServerMsg) (c : State)
    : State :=
  foldl (λ acc m, onmessage truthy ws m acc) c msgs.

End Client.

(** the messages a turn of the server writes to [ws], in order *)
Definition inbox (ws : WebSocket) (out : list Action) : list ServerMsg :=
  omap (λ a, match a with
             | Send w m => if decide (w = ws) then Some m else None
             | _ => None
             end) out.

(** the hook of a client named "Ann" for room "r1", its socket created *)
Definition annClient : Client.State :=
  Client.effect "r1" "Ann" 7 (Client.initialState "Ann").

(** * Properties *)

(** ** The [Map] model *)

Section JsMapFacts.
Context {V : Type}.
Implicit Types (m : list (string * V)) (k : string) (v : V).

Lemma Map_get_set_eq k v m : Map_get k (Map_set k v m) = Some v.
Proof.
  induction m as [|[k' v'] m IH]; simpl.
  - by rewrite decide_True.
  - destruct (decide (k = k')) as [->|Hne]; simpl.
    + by rewrite decide_True.
    + by rewrite decide_False.
Qed.

Lemma Map_get_set_ne k k' v m :
  k ≠ k' → Map_get k' (Map_set k v m) = Map_get k' m.
Proof.
  intros Hne. induction m as [|[k0 v0] m IH]; simpl.
  - rewrite decide_False; [done | congruence].
  - destruct (decide (k = k0)) as [->|Hk]; simpl.
    + rewrite !decide_False; [done | congruence | congruence].
    + destruct (decide (k' = k0)); [done | apply IH].
Qed.

Lemma Map_set_id k v m : Map_get k m = Some v → Map_set k v m = m.
Proof.
  induction m as [|[k' v'] m IH]; simpl; [done |].
  destruct (decide (k = k')) as [->|Hne]; [congruence |].
  intros Hget. by rewrite IH.
Qed.

Lemma Map_set_set k v1 v2 m : Map_set k v2 (Map_set k v1 m) = Map_set k v2 m.
Proof.
  induction m as [|[k' v'] m IH]; simpl.
  - by rewrite decide_True.
  - destruct (decide (k = k')) as [->|Hne]; simpl.
    + by rewrite decide_True.
    + rewrite decide_False; [by rewrite IH | done].
Qed.

Lemma Map_has_get k m : Map_has k m = true ↔ is_Some (Map_get k m).
Proof.
  unfold Map_has. destruct (Map_get k m); split; intros H;
    try done; try (by eexists); by destruct H.
Qed.

Lemma Map_has_keys k m : Map_has k m = true ↔ k ∈ Map_keys m.
Proof.
  unfold Map_has, Map_keys. induction m as [|[k' v'] m IH]; simpl.
  - split; [done | by intros ?%elem_of_nil].
  - destruct (decide (k = k')) as [->|Hne].
    + split; [intros _; apply list_elem_of_here | done].
    + rewrite IH. split; [by apply list_elem_of_further |].
      intros [?|?]%elem_of_cons; [done | done].
Qed.

Lemma Map_keys_set_new k v m :
  Map_get k m = None → Map_keys (Map_set k v m) = Map_keys m ++ [k].
Proof.
  unfold Map_keys. induction m as [|[k' v'] m IH]; simpl; [done |].
  destruct (decide (k = k')); [done |]. intros H. simpl. by rewrite IH.
Qed.
End JsMapFacts.

(** ** Record updates *)

Lemma setRooms_id (s : Server) (f : list (string * Room) → list (string * Room)) :
  f (rooms s) = rooms s → setRooms f s = s.
Proof. intros H. destruct s; unfold setRooms; simpl in *. by rewrite H. Qed.

Lemma setMe_readyState (ws w : WebSocket) p (m : gmap WebSocket Socket) :
  (readyState <$> setMe ws p m !! w) = (readyState <$> m !! w).
Proof.
  unfold setMe. destruct (m !! ws) as [k|] eqn:Hk; [|done].
  destruct (decide (ws = w)) as [<-|Hne].
  - by rewrite lookup_insert_eq, Hk.
  - by rewrite lookup_insert_ne.
Qed.

Lemma readyStateOf_setMe f ws p s w :
  readyStateOf (setRooms f (setSockets (setMe ws p) s)) w = readyStateOf s w.
Proof.
  unfold readyStateOf; simpl.
  pose proof (setMe_readyState ws w p (sockets s)) as H.
  destruct (setMe ws p (sockets s) !! w), (sockets s !! w); simpl in H; congruence.
Qed.

Lemma send_open s ws msg :
  readyStateOf s ws = OPEN → send s ws msg false = [Send ws msg].
Proof. intros H. unfold send. rewrite H. by rewrite bool_decide_eq_true_2. Qed.

Lemma send_not_open s ws msg drop :
  readyStateOf s ws ≠ OPEN → send s ws msg drop = [].
Proof. intros H. unfold send. by rewrite bool_decide_eq_false_2. Qed.

Lemma assign_explicit room seat :
  assign (Seat_show seat) room = if isFree room seat then Seated seat else Occupied seat.
Proof.
  unfold assign, isFree, decideSeat.
  destruct seat; simpl; [destruct (seatA room) | destruct (seatB room)]; done.
Qed.

Lemma assign_auto room :
  assign "AUTO" room =
    if isFree room A then Seated A
    else if isFree room B then Seated B
    else Spectating.
Proof.
  unfold assign, isFree, decideSeat, pickAuto; simpl.
  destruct (seatA room) eqn:HA, (seatB room) eqn:HB; simpl; by rewrite ?HA, ?HB.
Qed.

Lemma assign_other requested room :
  requested ≠ "A" → requested ≠ "B" → requested ≠ "AUTO" →
  assign requested room = Spectating.
Proof.
  intros HA HB HU. unfold assign, decideSeat.
  by rewrite !decide_False.
Qed.

Lemma assign_occupancy requested r1 r2 :
  isFree r1 A = isFree r2 A → isFree r1 B = isFree r2 B →
  assign requested r1 = assign requested r2.
Proof.
  unfold assign, decideSeat, pickAuto, isFree, getSeat. intros HA HB.
  destruct (seatA r1), (seatA r2), (seatB r1), (seatB r2);
    simpl in *; try discriminate; repeat case_decide; reflexivity.
Qed.

(** what the [join] branch does, by the seat assignment it computes *)
Lemma handleJoin_assign ws room0 seat0 name0 rnd s :
  let roomId := Js.trim room0 in
  let room := roomOf s roomId in
  let s1 := setRooms (Map_set roomId room) s in
  roomId ≠ EmptyString →
  handleJoin ws room0 seat0 name0 rnd s =
    match assign (Js.toUpperCase seat0) room with
    | Seated seat =>
        let p := playerOf ws roomId seat name0 rnd in
        let s2 := setRooms (Map_set roomId (setSeat room seat (Some p)))
                    (setSockets (setMe ws p) s1) in
        (s2, send s2 ws (Joined roomId (p_id p) seat (p_name p)) false
               ++ broadcastRoom s2 roomId)
    | Spectating =>
        let room' := setSpectators room (Some (Set_add ws (spectatorList room))) in
        let s2 := setRooms (Map_set roomId room') s1 in
        (s2, send s2 ws
               (JoinedSpectator roomId (String.append "Spectator-" (mathRandom rnd))
                  (joinName name0)) false
               ++ broadcastRoom s2 roomId)
    | Occupied seat => (s1, send s1 ws (Error (occupiedReason seat)) false)
    end.
Proof.
  intros roomId room s1 Hne. unfold handleJoin, assign.
  fold roomId. rewrite decide_False; [|done].
  fold (roomOf s roomId). fold room.
  destruct (decideSeat (Js.toUpperCase seat0) room) as [seat|]; [|done].
  by destruct (getSeat room seat).
Qed.

(** the registry and the sockets after a [join], by its seat assignment *)
Lemma handleJoin_room ws room0 seat0 name0 rnd s :
  let roomId := Js.trim room0 in
  let room := roomOf s roomId in
  roomId ≠ EmptyString →
  roomOf (handleJoin ws room0 seat0 name0 rnd s).1 roomId =
    match assign (Js.toUpperCase seat0) room with
    | Seated seat => setSeat room seat (Some (playerOf ws roomId seat name0 rnd))
    | Spectating => setSpectators room (Some (Set_add ws (spectatorList room)))
    | Occupied _ => room
    end.
Proof.
  intros roomId room Hne.
  rewrite (handleJoin_assign ws room0 seat0 name0 rnd s Hne).
  fold roomId room.
  destruct (assign (Js.toUpperCase seat0) room); unfold roomOf at 1; simpl;
    by rewrite ?Map_set_set, Map_get_set_eq.
Qed.

Lemma handleJoin_readyState ws room0 seat0 name0 rnd s w :
  readyStateOf (handleJoin ws room0 seat0 name0 rnd s).1 w = readyStateOf s w.
Proof.
  unfold handleJoin. case_decide; [done |].
  destruct (decideSeat _ _) as [seat|]; [|done].
  destruct (getSeat _ seat); [done |].
  simpl. by rewrite (readyStateOf_setMe _ ws).
Qed.

Lemma meOf_setMe f ws p s :
  is_Some (sockets s !! ws) →
  meOf (setRooms f (setSockets (setMe ws p) s)) ws = Some p.
Proof.
  intros [k Hk]. unfold meOf, setMe; simpl. rewrite Hk.
  by rewrite lookup_insert_eq.
Qed.

Lemma readyStateOf_open_socket s ws :
  readyStateOf s ws = OPEN → is_Some (sockets s !! ws).
Proof. unfold readyStateOf. destruct (sockets s !! ws); [by eexists | done]. Qed.

Lemma Set_add_elem {T} `{EqDecision T} (x : T) (l : list T) : x ∈ Set_add x l.
Proof.
  unfold Set_add, Set_has. case_bool_decide; [done |].
  apply elem_of_app. right. apply list_elem_of_singleton. done.
Qed.

Lemma getSeat_setSeat room seat v : getSeat (setSeat room seat v) seat = v.
Proof. by destruct seat. Qed.

Lemma join_outcome ws room0 seat0 name0 rnd s :
  let roomId := Js.trim room0 in
  roomId ≠ EmptyString → readyStateOf s ws = OPEN →
  joinOutcome ws roomId s (handleJoin ws room0 seat0 name0 rnd s)
    (assign (Js.toUpperCase seat0) (roomOf s roomId)).
Proof.
  intros roomId Hne Hopen.
  pose proof (handleJoin_room ws room0 seat0 name0 rnd s Hne) as Hroom.
  pose proof (handleJoin_readyState ws room0 seat0 name0 rnd s ws) as Hrs.
  pose proof (handleJoin_assign ws room0 seat0 name0 rnd s Hne) as Hj.
  cbv zeta in Hroom, Hj. fold roomId in Hroom, Hj.
  destruct (handleJoin ws room0 seat0 name0 rnd s) as [s' out].
  simpl in Hroom, Hrs. rewrite Hopen in Hrs.
  destruct (assign (Js.toUpperCase seat0) (roomOf s roomId)) as [seat| |seat] eqn:Ha;
    injection Hj as Hs Hout;
    unfold joinOutcome, seatedAt, spectatingIn, rejectedFor; cbn [fst snd].
  - exists (playerOf ws roomId seat name0 rnd). eexists.
    split; [done |]. split; [done |]. split; [done |]. split; [|split].
    + rewrite Hroom. apply getSeat_setSeat.
    + rewrite Hs. apply meOf_setMe. simpl. by apply readyStateOf_open_socket.
    + rewrite Hout, <- Hs, send_open; [done | done].
  - eexists _, _, _. split.
    + rewrite Hroom. simpl. apply Set_add_elem.
    + rewrite Hout, <- Hs, send_open; [done | done].
  - rewrite Hout, <- Hs, send_open; [|done].
    f_equal. rewrite Hs. apply setRooms_id.
    unfold assign in Ha. destruct (decideSeat _ _) as [st|]; [|done].
    destruct (getSeat (roomOf s roomId) st) as [q|] eqn:Hq; [|done].
    apply Map_set_id. unfold roomOf in *.
    destruct (Map_get roomId (rooms s)); [done |]. by destruct st.
Qed.

Lemma three_auto_joins s room0 w1 w2 w3 n1 n2 n3 r1 r2 r3 :
  let roomId := Js.trim room0 in
  let res1 := handleJoin w1 room0 "AUTO" n1 r1 s in
  let res2 := handleJoin w2 room0 "AUTO" n2 r2 res1.1 in
  let res3 := handleJoin w3 room0 "AUTO" n3 r3 res2.1 in
  roomId ≠ EmptyString → roomOf s roomId = emptyRoom →
  readyStateOf s w1 = OPEN → readyStateOf s w2 = OPEN → readyStateOf s w3 = OPEN →
  seatedAt w1 roomId A res1 ∧ seatedAt w2 roomId B res2 ∧ spectatingIn w3 roomId res3.
Proof.
  intros roomId res1 res2 res3 Hne Hfresh H1 H2 H3.
  assert (Hr1 : roomOf res1.1 roomId
                = setSeat emptyRoom A (Some (playerOf w1 roomId A n1 r1))).
  { unfold res1. rewrite handleJoin_room; [|done]. fold roomId.
    change (Js.toUpperCase "AUTO") with "AUTO".
    rewrite assign_auto, Hfresh. done. }
  assert (Hr2 : roomOf res2.1 roomId
                = setSeat (roomOf res1.1 roomId) B (Some (playerOf w2 roomId B n2 r2))).
  { unfold res2. rewrite handleJoin_room; [|done]. fold roomId.
    change (Js.toUpperCase "AUTO") with "AUTO".
    rewrite assign_auto, Hr1. done. }
  assert (Ho2 : readyStateOf res1.1 w2 = OPEN).
  { unfold res1. by rewrite handleJoin_readyState. }
  assert (Ho3 : readyStateOf res2.1 w3 = OPEN).
  { unfold res2. rewrite handleJoin_readyState. unfold res1.
    by rewrite handleJoin_readyState. }
  pose proof (join_outcome w1 room0 "AUTO" n1 r1 s Hne H1) as J1.
  pose proof (join_outcome w2 room0 "AUTO" n2 r2 res1.1 Hne Ho2) as J2.
  pose proof (join_outcome w3 room0 "AUTO" n3 r3 res2.1 Hne Ho3) as J3.
  change (Js.toUpperCase "AUTO") with "AUTO" in J1, J2, J3.
  fold roomId res1 in J1. fold roomId res2 in J2. fold roomId res3 in J3.
  rewrite assign_auto in J1, J2, J3.
  rewrite Hfresh in J1. rewrite Hr1 in J2. rewrite Hr2, Hr1 in J3.
  done.
Qed.

(** ** Outputs of [send] and [broadcastRoom] *)

Lemma elem_of_send s ws msg drop a : a ∈ send s ws msg drop → a = Send ws msg.
Proof.
  unfold send. repeat case_match; intros Ha;
    [by apply elem_of_nil in Ha | by apply elem_of_nil in Ha
    | by apply list_elem_of_singleton in Ha].
Qed.

Lemma elem_of_broadcastRoom s roomId a :
  a ∈ broadcastRoom s roomId →
  ∃ ws r, Map_get roomId (rooms s) = Some r ∧ ws ∈ members r ∧
          a = Send ws (Roster roomId (rosterOf r)).
Proof.
  unfold broadcastRoom. destruct (Map_get roomId (rooms s)) as [r|]; [|by intros ?%elem_of_nil].
  intros Ha. apply list_elem_of_In, in_concat in Ha as (l & Hl & Hal).
  apply in_map_iff in Hl as (ws & <- & Hws).
  apply list_elem_of_In, elem_of_send in Hal.
  exists ws, r. split; [done |]. split; [by apply list_elem_of_In | done].
Qed.

(** ** Case of the requested seat *)




(** ** Claims about the [join] branch *)

(** C1. Seat assignment is a function of the requested seat and of which
    seats of the room are taken.  For a join with a room id, sent on an
    open socket: a request for A or B is granted exactly when that seat is
    free and is otherwise answered by the error "Seat A is occupied" /
    "Seat B is occupied" with the server left as it was; AUTO gives A if
    free, else B if free, else the spectator role; every other value gives
    the spectator role.  Three AUTO joins on a fresh room get A, B and the
    spectator role, in that order. *)
Theorem seat_assignment_deterministic ws room0 seat0 name0 rnd s :
  let roomId := Js.trim room0 in
  let room := roomOf s roomId in
  let requested := Js.toUpperCase seat0 in
  let res := handleJoin ws room0 seat0 name0 rnd s in
  roomId ≠ EmptyString → readyStateOf s ws = OPEN →
  joinOutcome ws roomId s res (assign requested room) ∧
  (∀ room', isFree room' A = isFree room A → isFree room' B = isFree room B →
            assign requested room' = assign requested room) ∧
  (∀ seat, requested = Seat_show seat →
     (seatedAt ws roomId seat res ↔ isFree room seat = true) ∧
     (rejectedFor ws seat s res ↔ isFree room seat = false)) ∧
  (requested = "AUTO" →
     if isFree room A then seatedAt ws roomId A res
     else if isFree room B then seatedAt ws roomId B res
     else spectatingIn ws roomId res) ∧
  (requested ≠ "A" → requested ≠ "B" → requested ≠ "AUTO" →
     spectatingIn ws roomId res) ∧
  (∀ w2 w3 n2 n3 r2 r3,
     room = emptyRoom → readyStateOf s w2 = OPEN → readyStateOf s w3 = OPEN →
     let res1 := handleJoin ws room0 "AUTO" name0 rnd s in
     let res2 := handleJoin w2 room0 "AUTO" n2 r2 res1.1 in
     let res3 := handleJoin w3 room0 "AUTO" n3 r3 res2.1 in
     seatedAt ws roomId A res1 ∧ seatedAt w2 roomId B res2 ∧
     spectatingIn w3 roomId res3).
Proof.
  intros roomId room requested res Hne Hopen.
  pose proof (join_outcome ws room0 seat0 name0 rnd s Hne Hopen) as Hout.
  fold roomId room requested res in Hout.
  split; [done |]. split; [intros; by apply assign_occupancy |].
  split; [|split; [|split]].
  - intros seat Hreq. rewrite Hreq, assign_explicit in Hout.
    destruct (isFree room seat); simpl in Hout; split; split; try done.
    + intros Hrej. destruct Hout as (p & rest & _ & _ & _ & _ & _ & Hsnd).
      unfold rejectedFor in Hrej. rewrite Hrej in Hsnd. discriminate.
    + intros (p & rest & _ & _ & _ & _ & _ & Hsnd).
      unfold rejectedFor in Hout. rewrite Hout in Hsnd. discriminate.
  - intros Hreq. rewrite Hreq, assign_auto in Hout.
    by destruct (isFree room A), (isFree room B).
  - intros HA HB HU. by rewrite assign_other in Hout.
  - intros w2 w3 n2 n3 r2 r3 Hfresh H2 H3.
    by apply three_auto_joins.
Qed.



Lemma seat_assignment_witness :
  Js.trim "r1" ≠ EmptyString ∧ readyStateOf oneSeated 2 = OPEN ∧
  joinOutcome 2 (Js.trim "r1") oneSeated (handleJoin 2 "r1" "A" "Bob" rnd0 oneSeated)
    (assign (Js.toUpperCase "A") (roomOf oneSeated (Js.trim "r1"))).
Proof.
  assert (H1 : Js.trim "r1" ≠ EmptyString) by (vm_compute; discriminate).
  assert (H2 : readyStateOf oneSeated 2 = OPEN) by (vm_compute; reflexivity).
  split; [exact H1 |]. split; [exact H2 |].
  exact (proj1 (seat_assignment_deterministic 2 "r1" "A" "Bob" rnd0 oneSeated H1 H2)).
Defined.

(** C4. A join that names seat A or B of a room in which that seat is taken
    is answered by an error envelope and nothing else: the whole server
    state, with its rooms, seats, spectators and every socket's player record, is
    as before, and no roster is sent. *)
Theorem occupied_join_no_change ws room0 seat0 name0 rnd s seat r q :
  let roomId := Js.trim room0 in
  let res := handleJoin ws room0 seat0 name0 rnd s in
  let reason := if decide (roomId = EmptyString) then "room required" else occupiedReason seat in
  Js.toUpperCase seat0 = Seat_show seat →
  Map_get roomId (rooms s) = Some r →
  getSeat r seat = Some q →
  res.1 = s ∧
  res.2 = send s ws (Error reason) false ∧
  (readyStateOf s ws = OPEN → res.2 = [Send ws (Error reason)]) ∧
  (∀ w room roster, Send w (Roster room roster) ∉ res.2).
Proof.
  intros roomId res reason Hseat Hroom Hq.
  assert (Hres : res = (s, send s ws (Error reason) false)).
  { unfold res, reason. destruct (decide (roomId = EmptyString)) as [He|Hne].
    - unfold handleJoin. fold roomId. by rewrite decide_True.
    - rewrite (handleJoin_assign ws room0 seat0 name0 rnd s Hne).
      fold roomId. rewrite Hseat, assign_explicit.
      unfold isFree, roomOf. rewrite Hroom. simpl. rewrite Hq.
      rewrite setRooms_id; [done |]. by apply Map_set_id. }
  rewrite Hres. simpl. split; [done |]. split; [done |]. split.
  - intros Hopen. by apply send_open.
  - intros w room roster Hin. apply elem_of_send in Hin. discriminate.
Qed.

Lemma occupied_join_no_change_witness :
  (handleJoin 2 "r1" "a" "Bob" rnd0 oneSeated).1 = oneSeated ∧
  (handleJoin 2 "r1" "a" "Bob" rnd0 oneSeated).2 = [Send 2 (Error "Seat A is occupied")].
Proof.
  pose proof (occupied_join_no_change 2 "r1" "a" "Bob" rnd0 oneSeated A
                (mkRoom (Some (mkPlayer "Player-k3x9q" 1 "r1" A "Ann" true)) None None)
                (mkPlayer "Player-k3x9q" 1 "r1" A "Ann" true)
                eq_refl eq_refl eq_refl) as (Hst & _ & Hsend & _).
  split; [exact Hst |]. exact (Hsend eq_refl).
Defined.

(** C8. A join that names a room id absent from the registry does not fail:
    it stores an empty room under that id, last in the registry, and goes
    on with seat assignment in it, as if the room had been created empty
    just before; no error is sent. *)
Theorem join_unknown_room_creates ws room0 seat0 name0 rnd s :
  let roomId := Js.trim room0 in
  let res := handleJoin ws room0 seat0 name0 rnd s in
  roomId ≠ EmptyString →
  Map_get roomId (rooms s) = None →
  Map_has roomId (rooms res.1) = true ∧
  Map_keys (rooms res.1) = Map_keys (rooms s) ++ [roomId] ∧
  res = handleJoin ws room0 seat0 name0 rnd (setRooms (Map_set roomId emptyRoom) s) ∧
  (∀ seat, assign (Js.toUpperCase seat0) emptyRoom ≠ Occupied seat) ∧
  (∀ w reason, Send w (Error reason) ∉ res.2) ∧
  (readyStateOf s ws = OPEN →
     joinOutcome ws roomId s res (assign (Js.toUpperCase seat0) emptyRoom)).
Proof.
  intros roomId res Hne Hnone.
  assert (Hroom : roomOf s roomId = emptyRoom) by (unfold roomOf; by rewrite Hnone).
  assert (Hfree : ∀ seat, assign (Js.toUpperCase seat0) emptyRoom ≠ Occupied seat).
  { intros seat. unfold assign.
    destruct (decideSeat _ _) as [[]|]; simpl; discriminate. }
  pose proof (handleJoin_assign ws room0 seat0 name0 rnd s Hne) as Hj.
  cbv zeta in Hj. fold roomId res in Hj. rewrite Hroom in Hj.
  split; [|split; [|split; [|split; [done | split]]]].
  - apply Map_has_get. fold (roomOf res.1 roomId).
    rewrite Hj. destruct (assign _ _); simpl;
      rewrite ?Map_set_set, Map_get_set_eq; by eexists.
  - rewrite Hj. destruct (assign _ _) as [st| |st]; simpl;
      rewrite ?Map_set_set; by apply Map_keys_set_new.
  - pose proof (handleJoin_assign ws room0 seat0 name0 rnd
                  (setRooms (Map_set roomId emptyRoom) s) Hne) as Hj'.
    cbv zeta in Hj'. fold roomId in Hj'.
    assert (Hroom' : roomOf (setRooms (Map_set roomId emptyRoom) s) roomId = emptyRoom).
    { unfold roomOf; simpl. by rewrite Map_get_set_eq. }
    assert (Hs1 : setRooms (Map_set roomId emptyRoom)
                    (setRooms (Map_set roomId emptyRoom) s)
                  = setRooms (Map_set roomId emptyRoom) s).
    { apply setRooms_id, Map_set_id. simpl. apply Map_get_set_eq. }
    rewrite Hroom', Hs1 in Hj'. by rewrite Hj, Hj'.
  - intros w reason Hin. rewrite Hj in Hin.
    destruct (assign _ _) as [st| |st] eqn:Ha; simpl in Hin.
    + apply elem_of_app in Hin as [Hin|Hin].
      * apply elem_of_send in Hin. discriminate.
      * apply elem_of_broadcastRoom in Hin as (? & ? & _ & _ & ?). discriminate.
    + apply elem_of_app in Hin as [Hin|Hin].
      * apply elem_of_send in Hin. discriminate.
      * apply elem_of_broadcastRoom in Hin as (? & ? & _ & _ & ?). discriminate.
    + by destruct (Hfree st).
  - intros Hopen. rewrite <- Hroom. by apply join_outcome.
Qed.

Lemma join_unknown_room_creates_witness :
  Js.trim " den " ≠ EmptyString ∧ Map_get (Js.trim " den ") (rooms lobby) = None ∧
  Map_has (Js.trim " den ") (rooms (handleJoin 1 " den " "B" "Ann" rnd0 lobby).1) = true.
Proof.
  assert (H1 : Js.trim " den " ≠ EmptyString) by (vm_compute; discriminate).
  assert (H2 : Map_get (Js.trim " den ") (rooms lobby) = None) by reflexivity.
  split; [exact H1 |]. split; [exact H2 |].
  exact (proj1 (join_unknown_room_creates 1 " den " "B" "Ann" rnd0 lobby H1 H2)).
Defined.

(** ** Room ids *)

Lemma hexByte_lower b : Js.allChars Js.isLowerHex (Js.hexByte b) = true.
Proof. destruct b; reflexivity. Qed.

Lemma toHex_cons b l :
  Js.toHex (b :: l)
  = String (Js.hexDigit (Byte.to_N b / 16))
      (String (Js.hexDigit (Byte.to_N b mod 16)) (Js.toHex l)).
Proof. reflexivity. Qed.

Lemma toHex_length l : String.length (Js.toHex l) = 2 * length l.
Proof.
  induction l as [|b l IH]; [done |].
  rewrite toHex_cons. cbn [String.length length]. rewrite IH. lia.
Qed.

Lemma toHex_lower l : Js.allChars Js.isLowerHex (Js.toHex l) = true.
Proof.
  induction l as [|b l IH]; [done |].
  pose proof (hexByte_lower b) as Hb.
  rewrite toHex_cons. unfold Js.hexByte in Hb. cbn [Js.allChars] in *.
  rewrite IH. by rewrite !andb_true_r in *.
Qed.

Lemma roomIdOf_shape d :
  String.length (roomIdOf d) = 32 ∧ Js.allChars Js.isLowerHex (roomIdOf d) = true.
Proof.
  unfold roomIdOf. split; [|apply toHex_lower].
  rewrite toHex_length, Vector.length_to_list. done.
Qed.

(** the loop returns the id of the first draw that is not in use *)
Lemma generateUniqueRoomId_Some rs draws id :
  generateUniqueRoomId rs draws = Some id ↔
  ∃ used d rest,
    draws = used ++ d :: rest ∧
    Forall (λ u, Map_has (roomIdOf u) rs = true) used ∧
    Map_has (roomIdOf d) rs = false ∧ id = roomIdOf d.
Proof.
  split.
  - induction draws as [|d draws IH]; simpl; [done |].
    destruct (Map_has (roomIdOf d) rs) eqn:Hd.
    + intros (used & d' & rest & -> & Hu & Hd' & ->)%IH.
      exists (d :: used), d', rest.
      split; [done |]. split; [by constructor |]. done.
    + intros [= <-]. by exists [], d, draws.
  - intros (used & d & rest & -> & Hu & Hd & ->).
    induction Hu as [|u used Hu _ IH]; simpl.
    + by rewrite Hd.
    + by rewrite Hu.
Qed.

(** the loop returns as soon as the source yields an id that is not in use *)
Lemma generateUniqueRoomId_total rs draws :
  (∃ d, d ∈ draws ∧ Map_has (roomIdOf d) rs = false) →
  is_Some (generateUniqueRoomId rs draws).
Proof.
  intros (d & Hin & Hd). induction draws as [|d' draws IH]; simpl.
  - by apply elem_of_nil in Hin.
  - destruct (Map_has (roomIdOf d') rs) eqn:Hd'; [|by eexists].
    apply IH. apply elem_of_cons in Hin as [->|Hin]; [congruence | done].
Qed.

Lemma generateUniqueRoomId_drawn rs draws id :
  generateUniqueRoomId rs draws = Some id → id ∈ map roomIdOf draws.
Proof.
  intros (used & d & rest & -> & _ & _ & ->)%generateUniqueRoomId_Some.
  rewrite map_app. apply elem_of_app. right. simpl. apply list_elem_of_here.
Qed.

Lemma createRoom_Some rnd s id s' :
  createRoom rnd s = Some (id, s') →
  generateUniqueRoomId (rooms s) (randomBytes16 rnd) = Some id ∧
  Map_has id (rooms s) = false ∧
  s' = setRooms (Map_set id emptyRoom) s.
Proof.
  unfold createRoom.
  destruct (generateUniqueRoomId _ _) as [i|] eqn:Hg; [|done].
  intros [= -> <-]. split; [done |].
  apply generateUniqueRoomId_Some in Hg as (used & d & rest & _ & _ & Hd & ->).
  by rewrite Hd.
Qed.

Lemma createRoom_keys rnd s id s' :
  createRoom rnd s = Some (id, s') →
  Map_keys (rooms s') = Map_keys (rooms s) ++ [id].
Proof.
  intros (_ & Hfresh & ->)%createRoom_Some. simpl.
  apply Map_keys_set_new. unfold Map_has in Hfresh.
  by destruct (Map_get id (rooms s)).
Qed.

(** rooms stored by successive calls stay as they were stored *)
Lemma createRooms_keeps rnds s ids s' k r :
  createRooms rnds s = Some (ids, s') →
  Map_get k (rooms s) = Some r → Map_get k (rooms s') = Some r.
Proof.
  revert s ids s'. induction rnds as [|rnd rnds IH]; simpl; intros s ids s'.
  - by intros [= <- <-].
  - destruct (createRoom rnd s) as [[id s1]|] eqn:Hc; [|done].
    destruct (createRooms rnds s1) as [[ids1 s2]|] eqn:Hcs; [|done].
    intros [= <- <-] Hk. eapply IH; [done |].
    apply createRoom_Some in Hc as (_ & Hfresh & ->). simpl.
    rewrite Map_get_set_ne; [done |].
    intros ->. unfold Map_has in Hfresh. by rewrite Hk in Hfresh.
Qed.

Lemma createRooms_sound rnds s ids s' :
  createRooms rnds s = Some (ids, s') →
  length ids = length rnds ∧
  NoDup ids ∧
  Map_keys (rooms s') = Map_keys (rooms s) ++ ids ∧
  ∀ id, id ∈ ids →
    String.length id = 32 ∧ Js.allChars Js.isLowerHex id = true ∧
    Map_has id (rooms s) = false ∧ Map_get id (rooms s') = Some emptyRoom.
Proof.
  revert s ids s'. induction rnds as [|rnd rnds IH]; simpl; intros s ids s'.
  - intros [= <- <-]. rewrite app_nil_r.
    split; [done |]. split; [constructor |]. split; [done |].
    by intros id ?%elem_of_nil.
  - destruct (createRoom rnd s) as [[id s1]|] eqn:Hc; [|done].
    destruct (createRooms rnds s1) as [[ids1 s2]|] eqn:Hcs; [|done].
    intros [= <- <-].
    destruct (IH _ _ _ Hcs) as (Hlen & Hnd & Hkeys & Hall).
    pose proof (createRoom_keys _ _ _ _ Hc) as Hk1.
    pose proof (createRoom_Some _ _ _ _ Hc) as (Hg & Hfresh & Hs1).
    assert (Hstored : Map_get id (rooms s1) = Some emptyRoom).
    { rewrite Hs1. simpl. apply Map_get_set_eq. }
    split; [simpl; by rewrite Hlen |]. split; [|split].
    + constructor; [|done]. intros Hin.
      destruct (Hall id Hin) as (_ & _ & Hnew & _).
      unfold Map_has in Hnew. by rewrite Hstored in Hnew.
    + rewrite Hkeys, Hk1, <- app_assoc. done.
    + intros i [->|Hi]%elem_of_cons.
      * apply generateUniqueRoomId_Some in Hg as (used & d & rest & _ & _ & _ & ->).
        destruct (roomIdOf_shape d) as [? ?].
        repeat split; try done. by eapply createRooms_keeps.
      * destruct (Hall i Hi) as (? & ? & Hnew & ?). repeat split; try done.
        destruct (Map_has i (rooms s)) eqn:Hi0; [|done].
        apply Map_has_keys in Hi0.
        assert (Map_has i (rooms s1) = true); [|congruence].
        apply Map_has_keys. rewrite Hk1. apply elem_of_app. by left.
Qed.

Lemma createRooms_total rnds s seen :
  Map_keys (rooms s) ⊆ seen →
  freshSupply seen rnds →
  is_Some (createRooms rnds s).
Proof.
  revert s seen. induction rnds as [|rnd rnds IH]; simpl; intros s seen Hsub.
  - by eexists.
  - intros [(d & Hd & Hnew) Hrest].
    destruct (generateUniqueRoomId_total (rooms s) (randomBytes16 rnd)) as [id Hid].
    { exists d. split; [done |].
      destruct (Map_has (roomIdOf d) (rooms s)) eqn:Hh; [|done].
      apply Map_has_keys in Hh. by apply Hsub in Hh. }
    destruct (createRoom rnd s) as [[id' s1]|] eqn:Hc.
    + assert (Hsub1 : Map_keys (rooms s1) ⊆ seen ++ map roomIdOf (randomBytes16 rnd)).
      { rewrite (createRoom_keys _ _ _ _ Hc).
        apply createRoom_Some in Hc as (Hg & _ & _).
        apply generateUniqueRoomId_drawn in Hg.
        intros k [Hk|Hk]%elem_of_app; apply elem_of_app.
        - left. by apply Hsub.
        - right. apply list_elem_of_singleton in Hk as ->. done. }
      destruct (IH s1 _ Hsub1 Hrest) as [[ids s2] Hcs].
      rewrite Hcs. by eexists.
    + unfold createRoom in Hc. by rewrite Hid in Hc.
Qed.

(** C7. [createRoom] returns whenever the random source yields, sooner or
    later, an id that is not in use, and then returns a fresh id: 32
    lower-case hexadecimal characters rendering 16 random bytes, the first
    draw not already a key of the registry, stored with an empty room.  [N]
    calls made one after the other yield [N] pairwise distinct ids, and the
    [create] handler replies with the id it stored. *)
Theorem createRoom_fresh_ids rnds s :
  freshSupply (Map_keys (rooms s)) rnds →
  ∃ ids s',
    createRooms rnds s = Some (ids, s') ∧
    length ids = length rnds ∧
    NoDup ids ∧
    Map_keys (rooms s') = Map_keys (rooms s) ++ ids ∧
    (∀ id, id ∈ ids →
       String.length id = 32 ∧ Js.allChars Js.isLowerHex id = true ∧
       Map_has id (rooms s) = false ∧ Map_get id (rooms s') = Some emptyRoom) ∧
    (∀ rnd id s1, createRoom rnd s = Some (id, s1) →
       ∃ used d rest,
         randomBytes16 rnd = used ++ d :: rest ∧
         Forall (λ u, Map_has (roomIdOf u) (rooms s) = true) used ∧
         Map_has (roomIdOf d) (rooms s) = false ∧ id = roomIdOf d ∧
         s1 = setRooms (Map_set id emptyRoom) s ∧
         ∀ ws, handleCreate ws rnd s = Some (s1, send s1 ws (Created id) false)).
Proof.
  intros Hsupply.
  destruct (createRooms_total rnds s _ (reflexivity _) Hsupply) as [[ids s'] Hcs].
  exists ids, s'. split; [done |].
  destruct (createRooms_sound _ _ _ _ Hcs) as (Hlen & Hnd & Hkeys & Hall).
  repeat (split; [done |]).
  intros rnd id s1 Hc.
  pose proof (createRoom_Some _ _ _ _ Hc) as (Hg & _ & Hs1).
  apply generateUniqueRoomId_Some in Hg as (used & d & rest & Hdraws & Hu & Hd & Hid).
  exists used, d, rest. repeat (split; [done |]).
  intros ws. unfold handleCreate. by rewrite Hc.
Qed.

Lemma createRoom_fresh_ids_witness :
  freshSupply (Map_keys (rooms lobby))
    [mkRandom [draw1] EmptyString; mkRandom [draw1; draw1; draw2] EmptyString] ∧
  ∃ ids s',
    createRooms [mkRandom [draw1] EmptyString; mkRandom [draw1; draw1; draw2] EmptyString] lobby
      = Some (ids, s') ∧ NoDup ids.
Proof.
  assert (H : freshSupply (Map_keys (rooms lobby))
                [mkRandom [draw1] EmptyString; mkRandom [draw1; draw1; draw2] EmptyString]).
  { simpl. split; [|split; [|done]].
    - exists draw1. split; [apply list_elem_of_here | by intros ?%elem_of_nil].
    - exists draw2. split; [do 2 apply list_elem_of_further; apply list_elem_of_here |].
      intros Hin. apply list_elem_of_singleton in Hin. vm_compute in Hin. discriminate. }
  split; [exact H |].
  destruct (createRoom_fresh_ids _ lobby H) as (ids & s' & Hc & _ & Hnd & _).
  by exists ids, s'.
Defined.

(** ** The coalescing scheduler *)

Lemma Server_eq (s1 s2 : Server) :
  rooms s1 = rooms s2 → sockets s1 = sockets s2 → clients s1 = clients s2 →
  latestZones s1 = latestZones s2 → ticking s1 = ticking s2 → timers s1 = timers s2 →
  s1 = s2.
Proof. destruct s1, s2; simpl; intros; subst; reflexivity. Qed.

Lemma scheduleFlush_in to s : to ∈ ticking s → scheduleFlush to s = s.
Proof. intros H. unfold scheduleFlush. by rewrite decide_True. Qed.

Lemma scheduleFlush_ticking to s : ticking (scheduleFlush to s) = {[to]} ∪ ticking s.
Proof. unfold scheduleFlush. case_decide; simpl; [set_solver | done]. Qed.

Lemma scheduleFlush_timers to s :
  timers (scheduleFlush to s)
  = if decide (to ∈ ticking s) then timers s else timers s ++ [mkTimer FLUSH_MS to].
Proof. unfold scheduleFlush. by case_decide. Qed.

Lemma scheduleFlush_setLatestZones f to s :
  scheduleFlush to (setLatestZones f s) = setLatestZones f (scheduleFlush to s).
Proof. unfold scheduleFlush; simpl. by case_decide. Qed.

Lemma scheduleFlush_frame to s :
  rooms (scheduleFlush to s) = rooms s ∧ sockets (scheduleFlush to s) = sockets s ∧
  clients (scheduleFlush to s) = clients s ∧
  latestZones (scheduleFlush to s) = latestZones s.
Proof. unfold scheduleFlush. by case_decide. Qed.

Lemma push_lookup payload to s : latestZones (push payload to s) !! to = Some payload.
Proof.
  unfold push. destruct (scheduleFlush_frame to (setLatestZones (λ m, <[to:=payload]> m) s))
    as (_ & _ & _ & ->). simpl. apply lookup_insert_eq.
Qed.

Lemma push_lookup_ne payload to d s :
  to ≠ d → latestZones (push payload to s) !! d = latestZones s !! d.
Proof.
  intros Hne. unfold push.
  destruct (scheduleFlush_frame to (setLatestZones (λ m, <[to:=payload]> m) s))
    as (_ & _ & _ & ->). simpl. by apply lookup_insert_ne.
Qed.

Lemma push_timers payload to s :
  timers (push payload to s)
  = if decide (to ∈ ticking s) then timers s else timers s ++ [mkTimer FLUSH_MS to].
Proof. unfold push. by rewrite scheduleFlush_timers. Qed.

Lemma push_ticking payload to s : ticking (push payload to s) = {[to]} ∪ ticking s.
Proof. unfold push. by rewrite scheduleFlush_ticking. Qed.

Lemma push_frame payload to s :
  rooms (push payload to s) = rooms s ∧ sockets (push payload to s) = sockets s ∧
  clients (push payload to s) = clients s.
Proof.
  unfold push.
  destruct (scheduleFlush_frame to (setLatestZones (λ m, <[to:=payload]> m) s))
    as (-> & -> & -> & _). done.
Qed.

Lemma push_push p1 p2 to s : push p2 to (push p1 to s) = push p2 to s.
Proof.
  apply Server_eq.
  - destruct (push_frame p2 to (push p1 to s)) as (-> & _).
    destruct (push_frame p1 to s) as (-> & _).
    by destruct (push_frame p2 to s) as (-> & _).
  - destruct (push_frame p2 to (push p1 to s)) as (_ & -> & _).
    destruct (push_frame p1 to s) as (_ & -> & _).
    by destruct (push_frame p2 to s) as (_ & -> & _).
  - destruct (push_frame p2 to (push p1 to s)) as (_ & _ & ->).
    destruct (push_frame p1 to s) as (_ & _ & ->).
    by destruct (push_frame p2 to s) as (_ & _ & ->).
  - apply map_eq. intros d. destruct (decide (to = d)) as [<-|Hne].
    + by rewrite !push_lookup.
    + by rewrite !push_lookup_ne.
  - rewrite !push_ticking. set_solver.
  - rewrite !push_timers, push_ticking.
    rewrite (decide_True (P := to ∈ {[to]} ∪ ticking s)); [done | set_solver].
Qed.

Lemma scheduleAll_setLatestZones f targets s :
  scheduleAll targets (setLatestZones f s) = setLatestZones f (scheduleAll targets s).
Proof.
  revert s. induction targets as [|d ds IH]; intros s; [done |].
  change (scheduleAll (d :: ds) (setLatestZones f s))
    with (scheduleAll ds (scheduleFlush d (setLatestZones f s))).
  by rewrite scheduleFlush_setLatestZones, IH.
Qed.

(** a run of pushes stores what it stores whatever it schedules *)
Lemma pushAll_split payload targets s :
  pushAll payload targets s
  = setLatestZones (insertAll payload targets) (scheduleAll targets s).
Proof.
  revert s. induction targets as [|d ds IH]; intros s.
  - by destruct s.
  - change (pushAll payload (d :: ds) s) with (pushAll payload ds (push payload d s)).
    rewrite IH. unfold push.
    rewrite scheduleFlush_setLatestZones, scheduleAll_setLatestZones.
    reflexivity.
Qed.

Lemma insertAll_lookup payload targets m d :
  insertAll payload targets m !! d
  = if decide (d ∈ targets) then Some payload else m !! d.
Proof.
  revert m. induction targets as [|e ds IH]; intros m.
  - rewrite decide_False; [done | apply not_elem_of_nil].
  - unfold insertAll in *. simpl. rewrite IH.
    destruct (decide (d ∈ ds)) as [Hin|Hout].
    + rewrite decide_True; [done | by apply list_elem_of_further].
    + destruct (decide (e = d)) as [->|Hne].
      * rewrite lookup_insert_eq, decide_True; [done | apply list_elem_of_here].
      * rewrite lookup_insert_ne, decide_False; [done | | done].
        intros [?|?]%elem_of_cons; congruence.
Qed.

Lemma scheduleAll_ticking targets s :
  ticking (scheduleAll targets s) = list_to_set targets ∪ ticking s.
Proof.
  revert s. induction targets as [|d ds IH]; intros s; unfold scheduleAll in *; simpl.
  - set_solver.
  - rewrite IH, scheduleFlush_ticking. set_solver.
Qed.

Lemma scheduleAll_frame targets s :
  rooms (scheduleAll targets s) = rooms s ∧ sockets (scheduleAll targets s) = sockets s ∧
  clients (scheduleAll targets s) = clients s ∧
  latestZones (scheduleAll targets s) = latestZones s.
Proof.
  revert s. induction targets as [|d ds IH]; intros s; unfold scheduleAll in *; simpl.
  - done.
  - destruct (IH (scheduleFlush d s)) as (-> & -> & -> & ->).
    apply scheduleFlush_frame.
Qed.

Lemma scheduleAll_scheduled targets s :
  (∀ d, d ∈ targets → d ∈ ticking s) → scheduleAll targets s = s.
Proof.
  revert s. induction targets as [|d ds IH]; intros s Hall; unfold scheduleAll in *; simpl.
  - done.
  - rewrite scheduleFlush_in; [|apply Hall, list_elem_of_here].
    apply IH. intros e He. by apply Hall, list_elem_of_further.
Qed.

Lemma scheduleAll_idemp targets s :
  scheduleAll targets (scheduleAll targets s) = scheduleAll targets s.
Proof.
  apply scheduleAll_scheduled. intros d Hd.
  rewrite scheduleAll_ticking. set_solver.
Qed.

Lemma scheduleAll_pending targets s to :
  scheduledPending to s → scheduledPending to (scheduleAll targets s).
Proof.
  revert s. induction targets as [|d ds IH]; intros s Hs; unfold scheduleAll in *; simpl.
  - done.
  - apply IH. unfold scheduledPending in *.
    rewrite scheduleFlush_ticking, scheduleFlush_timers.
    case_decide as Hd.
    + intros Hin. apply Hs. set_solver.
    + rewrite map_app. simpl. intros [Hin|Hin]%elem_of_union; apply elem_of_app.
      * right. apply list_elem_of_singleton. set_solver.
      * left. by apply Hs.
Qed.

(** pushing to the same destinations again keeps only the later payload *)
Lemma pushAll_pushAll p1 p2 targets s :
  pushAll p2 targets (pushAll p1 targets s) = pushAll p2 targets s.
Proof.
  rewrite !pushAll_split, scheduleAll_setLatestZones, scheduleAll_idemp.
  apply Server_eq; simpl; try reflexivity.
  apply map_eq. intros d. rewrite !insertAll_lookup. by case_decide.
Qed.

Lemma pushAll_frame payload targets s :
  rooms (pushAll payload targets s) = rooms s ∧
  sockets (pushAll payload targets s) = sockets s ∧
  clients (pushAll payload targets s) = clients s.
Proof.
  rewrite pushAll_split. simpl.
  destruct (scheduleAll_frame targets s) as (-> & -> & -> & _). done.
Qed.

Lemma pushAll_lookup payload targets s d :
  latestZones (pushAll payload targets s) !! d
  = if decide (d ∈ targets) then Some payload else latestZones s !! d.
Proof.
  rewrite pushAll_split. simpl. rewrite insertAll_lookup.
  by destruct (scheduleAll_frame targets s) as (_ & _ & _ & ->).
Qed.

Lemma pushAll_pending payload targets s to :
  scheduledPending to s → to ∈ targets →
  timerPending to (pushAll payload targets s) = true.
Proof.
  intros Hs Hin. unfold timerPending. apply bool_decide_eq_true_2.
  rewrite pushAll_split. simpl.
  apply (scheduleAll_pending targets s to Hs).
  rewrite scheduleAll_ticking. set_solver.
Qed.

Lemma pushes_frame ops s :
  rooms (pushes ops s) = rooms s ∧ sockets (pushes ops s) = sockets s ∧
  clients (pushes ops s) = clients s.
Proof.
  revert s. induction ops as [|op ops IH]; intros s; [done |].
  change (pushes (op :: ops) s) with (pushes ops (push op.1 op.2 s)).
  destruct (IH (push op.1 op.2 s)) as (-> & -> & ->). apply push_frame.
Qed.

(** the slot of a destination holds the payload last pushed to it *)
Lemma pushes_lookup ops s to :
  latestZones (pushes ops s) !! to
  = match lastFor to ops with
    | Some p => Some p
    | None => latestZones s !! to
    end.
Proof.
  revert s. induction ops as [|op ops IH]; intros s; [done |].
  change (pushes (op :: ops) s) with (pushes ops (push op.1 op.2 s)).
  rewrite IH. simpl. destruct (lastFor to ops); [done |].
  destruct (decide (op.2 = to)) as [<-|Hne].
  - apply push_lookup.
  - by apply push_lookup_ne.
Qed.

(** ** Runs *)

Lemma run_app s es1 es2 :
  run s (es1 ++ es2)
  = match run s es1 with
    | None => None
    | Some (s1, out1) =>
        match run s1 es2 with
        | None => None
        | Some (s2, out2) => Some (s2, out1 ++ out2)
        end
    end.
Proof.
  revert s. induction es1 as [|e es1 IH]; intros s; simpl.
  - by destruct (run s es2) as [[??]|].
  - destruct (step s e) as [[s1 o1]|]; [|done].
    rewrite IH. destruct (run s1 es1) as [[s2 o2]|]; [|done].
    destruct (run s2 es2) as [[s3 o3]|]; [|done].
    by rewrite app_assoc.
Qed.

Lemma run_single s e : run s [e] = (λ r, (r.1, r.2 ++ [])) <$> step s e.
Proof. simpl. by destruct (step s e) as [[??]|]. Qed.

Lemma step_zones s ws p room z sq rnd :
  isClient ws s = true → meOf s ws = Some p →
  Map_get (p_room p) (rooms s) = Some room →
  step s (EMessage ws (MZones z sq) rnd)
  = Some (pushAll (mkZones (p_seat p) z sq) (relayTargets room p) s, []).
Proof.
  intros Hc Hme Hroom. simpl. rewrite Hc, Hme.
  unfold handleZones. by rewrite Hroom.
Qed.

Lemma pushAll_sender payload targets s ws :
  isClient ws (pushAll payload targets s) = isClient ws s ∧
  meOf (pushAll payload targets s) ws = meOf s ws ∧
  readyStateOf (pushAll payload targets s) ws = readyStateOf s ws ∧
  bufferedAmountOf (pushAll payload targets s) ws = bufferedAmountOf s ws.
Proof.
  unfold isClient, meOf, readyStateOf, bufferedAmountOf.
  by destruct (pushAll_frame payload targets s) as (_ & -> & ->).
Qed.

(** a burst of [zones] messages of one seated sender, with no other event
    in between, leaves the server as its last message alone would *)
Lemma run_burst s ws p room rnd msgs z sq :
  isClient ws s = true → meOf s ws = Some p →
  Map_get (p_room p) (rooms s) = Some room →
  run s (zonesEvents ws rnd (msgs ++ [(z, sq)]))
  = Some (pushAll (mkZones (p_seat p) z sq) (relayTargets room p) s, []).
Proof.
  revert s. induction msgs as [|[z1 sq1] msgs IH]; intros s Hc Hme Hroom.
  - simpl zonesEvents. rewrite run_single, (step_zones s ws p room); done.
  - change (zonesEvents ws rnd (((z1, sq1) :: msgs) ++ [(z, sq)]))
      with (EMessage ws (MZones z1 sq1) rnd
              :: zonesEvents ws rnd (msgs ++ [(z, sq)])).
    cbn [run]. rewrite (step_zones s ws p room); [|done ..].
    set (payload1 := mkZones (p_seat p) z1 sq1).
    destruct (pushAll_sender payload1 (relayTargets room p) s ws) as (Hc' & Hme' & _).
    destruct (pushAll_frame payload1 (relayTargets room p) s) as (Hr' & _).
    rewrite IH; [| congruence | congruence | congruence].
    by rewrite pushAll_pushAll.
Qed.

(** ** The flush callback *)

Lemma send_droppable s to msg :
  send s to msg true
  = if decide (readyStateOf s to = OPEN ∧ (bufferedAmountOf s to ≤ DROP_THRESHOLD)%Z)
    then [Send to msg] else [].
Proof.
  unfold send. case_bool_decide as Ho; simpl.
  - destruct (Z.ltb_spec DROP_THRESHOLD (bufferedAmountOf s to)) as [Hlt|Hle].
    + rewrite decide_False; [done | lia].
    + by rewrite decide_True.
  - rewrite decide_False; [done | tauto].
Qed.

Lemma flush_Some to s payload :
  latestZones s !! to = Some payload →
  flush to s
  = (setLatestZones (delete to) (setTicking (λ t, t ∖ {[to]}) s),
     send s to (Zones payload) true).
Proof. intros H. unfold flush. simpl. by rewrite H. Qed.

Lemma flush_None to s :
  latestZones s !! to = None → flush to s = (setTicking (λ t, t ∖ {[to]}) s, []).
Proof. intros H. unfold flush. simpl. by rewrite H. Qed.

Lemma setBuffered_socket to n s :
  readyStateOf s to = OPEN →
  readyStateOf (setBuffered to n s) to = OPEN ∧ bufferedAmountOf (setBuffered to n s) to = n.
Proof.
  unfold readyStateOf, bufferedAmountOf, setBuffered.
  destruct (sockets s !! to) as [k|] eqn:Hk; [|done]. simpl.
  rewrite lookup_insert_eq. done.
Qed.

(** ** Claims about the coalescing scheduler *)

(** C2. A push overwrites the single pending slot of its destination
    whatever it held, and schedules a flush 33 ms later only when none is
    scheduled for that destination; pushing again before the flush leaves
    the server as the later push alone would.  So a burst of [zones]
    messages of a seated sender, with the flush of the opposite seat's
    socket firing after the last of them, is the same as its last message
    alone, and that flush delivers exactly one [zones] message to the
    opposite seat, carrying the last payload. *)
Theorem zones_latest_wins s a b p q room rnd msgs z sq :
  isClient a s = true → meOf s a = Some p →
  Map_get (p_room p) (rooms s) = Some room →
  getSeat room (otherSeat (p_seat p)) = Some q → p_ws q = b →
  scheduledPending b s →
  readyStateOf s b = OPEN → (bufferedAmountOf s b ≤ DROP_THRESHOLD)%Z →
  (∀ d pl s0, latestZones (push pl d s0) !! d = Some pl) ∧
  (∀ d pl s0,
     timers (push pl d s0)
     = if decide (d ∈ ticking s0) then timers s0 else timers s0 ++ [mkTimer 33 d]) ∧
  (∀ d p1 p2 s0, push p2 d (push p1 d s0) = push p2 d s0) ∧
  run s (zonesEvents a rnd (msgs ++ [(z, sq)])) = run s (zonesEvents a rnd [(z, sq)]) ∧
  ∃ s',
    run s (zonesEvents a rnd (msgs ++ [(z, sq)]) ++ [ETimeout b])
    = Some (s', [Send b (Zones (mkZones (p_seat p) z sq))]) ∧
    latestZones s' !! b = None ∧ b ∉ ticking s'.
Proof.
  intros Hc Hme Hroom Hq Hb Hpend Hopen Hbuf.
  split; [intros; apply push_lookup |].
  split; [intros; apply push_timers |].
  split; [intros; apply push_push |].
  pose proof (run_burst s a p room rnd msgs z sq Hc Hme Hroom) as Hburst.
  split.
  { rewrite Hburst. symmetry. apply (run_burst s a p room rnd [] z sq Hc Hme Hroom). }
  set (payload := mkZones (p_seat p) z sq) in *.
  set (targets := relayTargets room p) in *.
  set (s2 := pushAll payload targets s) in *.
  assert (Hin : b ∈ targets).
  { unfold targets, relayTargets. rewrite Hq, Hb. apply list_elem_of_here. }
  assert (Hslot : latestZones s2 !! b = Some payload).
  { unfold s2. rewrite pushAll_lookup. by rewrite decide_True. }
  assert (Htimer : timerPending b s2 = true) by by apply pushAll_pending.
  destruct (pushAll_sender payload targets s b) as (_ & _ & Hrs & Hba).
  fold s2 in Hrs, Hba.
  eexists. split; [|split].
  - rewrite run_app, Hburst, run_single. cbn [step]. rewrite Htimer. simpl fmap.
    rewrite (flush_Some b _ payload); [|done].
    cbn [fst snd]. rewrite send_droppable.
    rewrite decide_True; [reflexivity |].
    split; [exact (eq_trans Hrs Hopen) |].
    change (bufferedAmountOf s2 b ≤ DROP_THRESHOLD)%Z. by rewrite Hba.
  - simpl. apply lookup_delete_eq.
  - simpl. set_solver.
Qed.

Lemma zones_latest_wins_witness :
  ∃ s', run fullRoom (zonesEvents 1 rnd0 tenUpdates ++ [ETimeout 2])
        = Some (s', [Send 2 (Zones (mkZones A "z10" (Some "10")))]) ∧
        latestZones s' !! 2 = None ∧ 2 ∉ ticking s'.
Proof.
  assert (Hpend : scheduledPending 2 fullRoom).
  { intros Hin. vm_compute in Hin. discriminate Hin. }
  assert (Hbuf : (bufferedAmountOf fullRoom 2%nat ≤ DROP_THRESHOLD)%Z).
  { vm_compute. discriminate. }
  exact (proj2 (proj2 (proj2 (proj2
    (zones_latest_wins fullRoom 1 2
       (mkPlayer "Player-k3x9q" 1 "r1" A "Ann" true)
       (mkPlayer "Player-p7w2m" 2 "r1" B "Bob" true)
       (mkRoom (Some (mkPlayer "Player-k3x9q" 1 "r1" A "Ann" true))
               (Some (mkPlayer "Player-p7w2m" 2 "r1" B "Bob" true))
               (Some [3]))
       rnd0
       [("z1", None); ("z2", None); ("z3", None); ("z4", None); ("z5", None);
        ("z6", None); ("z7", None); ("z8", None); ("z9", None)]
       "z10" (Some "10")
       eq_refl eq_refl eq_refl eq_refl eq_refl Hpend eq_refl Hbuf))))).
Defined.

(** C3. When the flush timer of a destination fires: with an empty slot
    nothing is sent and the slot stays empty; with a payload in the slot,
    the payload is sent and the slot cleared when the socket is open and
    its buffered amount is at most 256 KiB, and when the buffered amount
    exceeds 256 KiB nothing is sent, the callback returns as usual and
    nothing stays stored for the destination.  Whatever the flush did, the
    next flush that finds the socket open with its buffer drained sends
    the payload pushed last to that destination since. *)
Theorem flush_sends_or_skips to s :
  let res := flush to s in
  (latestZones s !! to = None → res = (setTicking (λ t, t ∖ {[to]}) s, [])) ∧
  (∀ payload, latestZones s !! to = Some payload →
     res.1 = setLatestZones (delete to) (setTicking (λ t, t ∖ {[to]}) s) ∧
     (readyStateOf s to = OPEN → (bufferedAmountOf s to ≤ DROP_THRESHOLD)%Z →
        res.2 = [Send to (Zones payload)]) ∧
     ((DROP_THRESHOLD < bufferedAmountOf s to)%Z → res.2 = [])) ∧
  (DROP_THRESHOLD = 262144)%Z ∧
  latestZones res.1 !! to = None ∧
  (to ∉ ticking res.1) ∧
  sockets res.1 = sockets s ∧ rooms res.1 = rooms s ∧ timers res.1 = timers s ∧
  (timerPending to s = true →
     step s (ETimeout to) = Some (flush to (setTimers (dropTimer to) s))) ∧
  (∀ n ops p',
     lastFor to ops = Some p' → readyStateOf s to = OPEN → (n ≤ DROP_THRESHOLD)%Z →
     let s2 := pushes ops (setBuffered to n res.1) in
     to ∈ ticking s2 ∧ (flush to s2).2 = [Send to (Zones p')]).
Proof.
  intros res.
  assert (Hres : res = match latestZones s !! to with
                       | None => (setTicking (λ t, t ∖ {[to]}) s, [])
                       | Some payload =>
                           (setLatestZones (delete to) (setTicking (λ t, t ∖ {[to]}) s),
                            send s to (Zones payload) true)
                       end).
  { unfold res. destruct (latestZones s !! to) eqn:H;
      [by apply flush_Some | by apply flush_None]. }
  split; [by intros H; rewrite Hres, H |].
  split.
  { intros payload H. rewrite Hres, H. cbn [fst snd]. split; [done |].
    rewrite send_droppable. split.
    - intros Ho Hb. by rewrite decide_True.
    - intros Hb. rewrite decide_False; [done | lia]. }
  split; [reflexivity |].
  assert (Hframe : (latestZones res.1 !! to = None) ∧ (to ∉ ticking res.1) ∧
                   sockets res.1 = sockets s ∧ rooms res.1 = rooms s ∧
                   timers res.1 = timers s).
  { rewrite Hres. destruct (latestZones s !! to) eqn:H; simpl.
    - rewrite lookup_delete_eq. repeat split; try done. set_solver.
    - repeat split; try done. set_solver. }
  destruct Hframe as (Hslot & Htick & Hsock & Hrooms & Htimers).
  repeat (split; [done |]).
  split; [by intros H; simpl; rewrite H |].
  intros n ops p' Hlast Hopen Hn s2.
  assert (Hopen1 : readyStateOf res.1 to = OPEN).
  { unfold readyStateOf in *. by rewrite Hsock. }
  destruct (setBuffered_socket to n res.1 Hopen1) as (Ho2 & Hb2).
  destruct (pushes_frame ops (setBuffered to n res.1)) as (_ & Hs2 & _).
  fold s2 in Hs2.
  split.
  - unfold s2. clear -Hlast.
    generalize (setBuffered to n res.1). intros s0.
    revert s0. induction ops as [|op ops IH]; intros s0; [done |].
    change (pushes (op :: ops) s0) with (pushes ops (push op.1 op.2 s0)).
    simpl in Hlast. destruct (lastFor to ops) eqn:Hl.
    + by apply IH.
    + destruct (decide (op.2 = to)) as [<-|]; [|done].
      clear. generalize (push_ticking op.1 op.2 s0). intros Ht.
      assert (Hin : op.2 ∈ ticking (push op.1 op.2 s0)) by (rewrite Ht; set_solver).
      revert Hin. generalize (push op.1 op.2 s0). intros s1.
      revert s1. induction ops as [|o ops IH]; intros s1 Hin; [done |].
      change (pushes (o :: ops) s1) with (pushes ops (push o.1 o.2 s1)).
      apply IH. rewrite push_ticking. set_solver.
  - rewrite (flush_Some to s2 p').
    + cbn [snd]. rewrite send_droppable, decide_True; [done |].
      unfold readyStateOf, bufferedAmountOf in *. rewrite Hs2. split; [done | lia].
    + unfold s2. by rewrite pushes_lookup, Hlast.
Qed.

Lemma flush_sends_or_skips_witness :
  (flush 2 congested).2 = [] ∧
  latestZones (flush 2 congested).1 !! 2 = None.
Proof.
  pose proof (flush_sends_or_skips 2 congested) as (_ & Hsome & _ & Hslot & _).
  split; [|exact Hslot].
  destruct (Hsome (mkZones A "z1" None) eq_refl) as (_ & _ & Hskip).
  apply Hskip. vm_compute. reflexivity.
Defined.

(** ** More on the [Map] model *)

Section JsMapEntries.
Context {V : Type}.
Implicit Types (m : list (string * V)) (k : string) (v : V).

Lemma elem_of_Map_get k v m : Map_get k m = Some v → (k, v) ∈ m.
Proof.
  induction m as [|[k' v'] m IH]; simpl; [done |].
  destruct (decide (k = k')) as [->|Hne].
  - intros [= ->]. apply list_elem_of_here.
  - intros H. by apply list_elem_of_further, IH.
Qed.

Lemma elem_of_Map_set k v m kv : kv ∈ Map_set k v m → kv = (k, v) ∨ kv ∈ m.
Proof.
  induction m as [|[k' v'] m IH]; simpl.
  - intros ->%list_elem_of_singleton. by left.
  - destruct (decide (k = k')) as [->|Hne].
    + intros [->|H]%elem_of_cons; [by left |]. right. by apply list_elem_of_further.
    + intros [->|H]%elem_of_cons; [right; apply list_elem_of_here |].
      destruct (IH H); [by left |]. right. by apply list_elem_of_further.
Qed.

Lemma Map_keys_set k v m :
  Map_keys (Map_set k v m) = if Map_has k m then Map_keys m else Map_keys m ++ [k].
Proof.
  unfold Map_has, Map_keys. induction m as [|[k' v'] m IH]; simpl; [done |].
  destruct (decide (k = k')) as [->|Hne]; simpl; [done |].
  rewrite IH. by destruct (Map_get k m).
Qed.

Lemma NoDup_Map_set k v m : NoDup (Map_keys m) → NoDup (Map_keys (Map_set k v m)).
Proof.
  intros Hnd. rewrite Map_keys_set. destruct (Map_has k m) eqn:Hh; [done |].
  apply NoDup_app. split; [done |]. split; [|apply NoDup_singleton].
  intros x Hx ->%list_elem_of_singleton.
  apply Map_has_keys in Hx. congruence.
Qed.

Lemma Map_get_filter (P : string * V → Prop) `{∀ kv, Decision (P kv)} k v m :
  Map_get k m = Some v → P (k, v) → Map_get k (filter P m) = Some v.
Proof.
  induction m as [|[k' v'] m IH]; simpl; [done |].
  destruct (decide (k = k')) as [->|Hne].
  - intros [= ->] HP. rewrite filter_cons_True; [|done]. simpl. by rewrite decide_True.
  - intros Hg HP. rewrite filter_cons. destruct (decide (P (k', v'))); [|by apply IH].
    simpl. rewrite decide_False; [by apply IH | done].
Qed.

Lemma Map_get_filter_None (P : string * V → Prop) `{∀ kv, Decision (P kv)} k m :
  Map_get k m = None → Map_get k (filter P m) = None.
Proof.
  induction m as [|[k' v'] m IH]; simpl; [done |].
  destruct (decide (k = k')) as [->|Hne]; [done |].
  intros Hg. rewrite filter_cons. destruct (decide (P (k', v'))); [|by apply IH].
  simpl. rewrite decide_False; [by apply IH | done].
Qed.

Lemma Map_get_filter_out (P : string * V → Prop) `{∀ kv, Decision (P kv)} k v m :
  NoDup (Map_keys m) → Map_get k m = Some v → ¬ P (k, v) →
  Map_get k (filter P m) = None.
Proof.
  unfold Map_keys. induction m as [|[k' v'] m IH]; simpl; [done |].
  intros Hnd. apply NoDup_cons in Hnd as [Hk' Hnd].
  destruct (decide (k = k')) as [->|Hne].
  - intros [= ->] HP. rewrite filter_cons_False; [|done].
    apply Map_get_filter_None.
    destruct (Map_get k' m) as [v0|] eqn:Hg; [|done].
    destruct Hk'. apply elem_of_Map_get in Hg.
    apply list_elem_of_In, in_map_iff. exists (k', v0). split; [done |].
    by apply list_elem_of_In.
  - intros Hg HP. rewrite filter_cons. destruct (decide (P (k', v'))); [|by apply IH].
    simpl. rewrite decide_False; [by apply IH | done].
Qed.

Lemma Map_keys_filter_NoDup (P : string * V → Prop) `{∀ kv, Decision (P kv)} m :
  NoDup (Map_keys m) → NoDup (Map_keys (filter P m)).
Proof.
  unfold Map_keys. induction m as [|[k' v'] m IH]; simpl; [done |].
  intros Hnd. apply NoDup_cons in Hnd as [Hk' Hnd].
  rewrite filter_cons. destruct (decide (P (k', v'))); [|by apply IH].
  simpl. apply NoDup_cons. split; [|by apply IH].
  intros Hin. apply Hk'. apply list_elem_of_In, in_map_iff in Hin as ([k0 v0] & Hk0 & Hin).
  simpl in Hk0. subst k0. apply list_elem_of_In, list_elem_of_filter in Hin as [_ Hin].
  apply list_elem_of_In, in_map_iff. exists (k', v0). split; [done |].
  by apply list_elem_of_In.
Qed.
End JsMapEntries.

(** ** What each invariant reads *)

Lemma seatsConsistent_frame s s' :
  rooms s' = rooms s → seatsConsistent s → seatsConsistent s'.
Proof. unfold seatsConsistent. by intros ->. Qed.

Lemma meConsistent_frame s s' :
  rooms s' = rooms s → clients s' = clients s → (∀ ws, meOf s' ws = meOf s ws) →
  meConsistent s → meConsistent s'.
Proof.
  unfold meConsistent. intros -> -> Hme H ws p Hc Hp.
  rewrite Hme in Hp. by apply H.
Qed.

Lemma keysUnique_frame s s' : rooms s' = rooms s → keysUnique s → keysUnique s'.
Proof. unfold keysUnique. by intros ->. Qed.

Lemma clientsValid_frame s s' :
  clients s' = clients s →
  (∀ ws, is_Some (sockets s !! ws) → is_Some (sockets s' !! ws)) →
  clientsValid s → clientsValid s'.
Proof. unfold clientsValid. intros -> Hs [Hnd H]. split; [done |]. intros ws Hws. by apply Hs, H. Qed.

Lemma timersConsistent_frame s s' :
  ticking s' = ticking s → timers s' = timers s → timersConsistent s → timersConsistent s'.
Proof. unfold timersConsistent. by intros -> ->. Qed.

Lemma slotsScheduled_frame s s' :
  ticking s' = ticking s → latestZones s' = latestZones s →
  slotsScheduled s → slotsScheduled s'.
Proof. unfold slotsScheduled. by intros -> ->. Qed.

Lemma keepsMe_Inv s s' : keepsMe s s' → Inv s → Inv s'.
Proof.
  intros (Hr & Hc & Hl & Ht & Htm & Hme & Hs) (I1 & I2 & I3 & I4 & I5 & I6).
  split; [by eapply seatsConsistent_frame |].
  split; [by eapply meConsistent_frame |].
  split; [by eapply keysUnique_frame |].
  split; [by eapply clientsValid_frame |].
  split; [by eapply timersConsistent_frame |].
  by eapply slotsScheduled_frame.
Qed.

Lemma keepsMe_refl s : keepsMe s s.
Proof. by repeat split. Qed.

Lemma keepsMe_trans s1 s2 s3 : keepsMe s1 s2 → keepsMe s2 s3 → keepsMe s1 s3.
Proof.
  intros (Hr & Hc & Hl & Ht & Htm & Hme & Hs) (Hr' & Hc' & Hl' & Ht' & Htm' & Hme' & Hs').
  split; [congruence |]. split; [congruence |]. split; [congruence |].
  split; [congruence |]. split; [congruence |]. split.
  - intros ws. by rewrite Hme', Hme.
  - intros ws H. by apply Hs', Hs.
Qed.

(** replacing a socket by one with the same [me] *)
Lemma keepsMe_insert s ws k k' :
  sockets s !! ws = Some k → me k' = me k →
  keepsMe s (setSockets (λ m, <[ws := k']> m) s).
Proof.
  intros Hk Hme. repeat split; simpl.
  - intros w. unfold meOf; simpl. destruct (decide (ws = w)) as [<-|Hne].
    + by rewrite lookup_insert_eq, Hk.
    + by rewrite lookup_insert_ne.
  - intros w Hw. destruct (decide (ws = w)) as [<-|Hne].
    + rewrite lookup_insert_eq. by eexists.
    + by rewrite lookup_insert_ne.
Qed.

(** ** The state after a [join] *)

Lemma assign_Seated_free requested room seat :
  assign requested room = Seated seat → getSeat room seat = None.
Proof.
  unfold assign. destruct (decideSeat requested room) as [st|]; [|done].
  destruct (getSeat room st) eqn:H; [done |]. by intros [= <-].
Qed.

Lemma getSeat_setSeat_ne room seat seat' v :
  seat' ≠ seat → getSeat (setSeat room seat v) seat' = getSeat room seat'.
Proof. by destruct seat, seat'. Qed.

Lemma roomOf_seat s k seat q :
  getSeat (roomOf s k) seat = Some q → Map_get k (rooms s) = Some (roomOf s k).
Proof.
  unfold roomOf. destruct (Map_get k (rooms s)); [done |]. by destruct seat.
Qed.

Lemma handleJoin_state ws room0 seat0 name0 rnd s :
  let roomId := Js.trim room0 in
  let room := roomOf s roomId in
  let res := handleJoin ws room0 seat0 name0 rnd s in
  roomId ≠ EmptyString →
  rooms res.1 = Map_set roomId (joinedRoom ws roomId (Js.toUpperCase seat0) name0 rnd room)
                  (rooms s) ∧
  clients res.1 = clients s ∧ latestZones res.1 = latestZones s ∧
  ticking res.1 = ticking s ∧ timers res.1 = timers s ∧
  sockets res.1 = match assign (Js.toUpperCase seat0) room with
                  | Seated seat => setMe ws (playerOf ws roomId seat name0 rnd) (sockets s)
                  | _ => sockets s
                  end.
Proof.
  intros roomId room res Hne. unfold res, joinedRoom.
  rewrite (handleJoin_assign ws room0 seat0 name0 rnd s Hne).
  fold roomId room.
  destruct (assign (Js.toUpperCase seat0) room); simpl;
    rewrite ?Map_set_set; done.
Qed.

Lemma handleJoin_empty ws room0 seat0 name0 rnd s :
  Js.trim room0 = EmptyString → (handleJoin ws room0 seat0 name0 rnd s).1 = s.
Proof. intros H. unfold handleJoin. by rewrite decide_True. Qed.

Lemma meOf_setMe_cases ws p m c :
  (match setMe ws p m !! c with Some k => me k | None => None end)
  = if decide (c = ws ∧ is_Some (m !! ws)) then Some p
    else match m !! c with Some k => me k | None => None end.
Proof.
  unfold setMe. destruct (m !! ws) as [k|] eqn:Hk.
  - destruct (decide (c = ws)) as [->|Hne].
    + rewrite lookup_insert_eq, decide_True; [done |]. split; [done | by eexists].
    + rewrite lookup_insert_ne, decide_False; [done | tauto | done].
  - rewrite decide_False; [done |]. intros [_ [? ?]]. done.
Qed.

Lemma setMe_is_Some ws p m c : is_Some (m !! c) → is_Some (setMe ws p m !! c).
Proof.
  unfold setMe. destruct (m !! ws) as [k|] eqn:Hk; [|done].
  destruct (decide (ws = c)) as [->|Hne].
  - rewrite lookup_insert_eq. by eexists.
  - by rewrite lookup_insert_ne.
Qed.

Lemma joinedRoom_seat ws roomId requested name0 rnd room seat q :
  getSeat (joinedRoom ws roomId requested name0 rnd room) seat = Some q →
  getSeat room seat = Some q ∨
  (assign requested room = Seated seat ∧ q = playerOf ws roomId seat name0 rnd).
Proof.
  unfold joinedRoom. destruct (assign requested room) as [st| |st] eqn:Ha.
  - destruct (decide (seat = st)) as [->|Hne].
    + rewrite getSeat_setSeat. intros [= <-]. by right.
    + rewrite getSeat_setSeat_ne; [by left | done].
  - destruct seat; by left.
  - by left.
Qed.

Lemma joinedRoom_keeps ws roomId requested name0 rnd room seat q :
  getSeat room seat = Some q →
  getSeat (joinedRoom ws roomId requested name0 rnd room) seat = Some q.
Proof.
  intros Hq. unfold joinedRoom. destruct (assign requested room) as [st| |st] eqn:Ha.
  - destruct (decide (seat = st)) as [->|Hne].
    + apply assign_Seated_free in Ha. congruence.
    + by rewrite getSeat_setSeat_ne.
  - by destruct seat.
  - done.
Qed.

Lemma handleJoin_Inv ws room0 seat0 name0 rnd s :
  Inv s → Inv (handleJoin ws room0 seat0 name0 rnd s).1.
Proof.
  intros (I1 & I2 & I3 & I4 & I5 & I6).
  destruct (decide (Js.trim room0 = EmptyString)) as [He|Hne].
  { by rewrite handleJoin_empty. }
  destruct (handleJoin_state ws room0 seat0 name0 rnd s Hne)
    as (Hr & Hc & Hl & Ht & Htm & Hs).
  set (roomId := Js.trim room0) in *. set (room := roomOf s roomId) in *.
  set (s' := (handleJoin ws room0 seat0 name0 rnd s).1) in *.
  set (R := joinedRoom ws roomId (Js.toUpperCase seat0) name0 rnd room) in *.
  assert (Hme : ∀ c, meOf s' c
                     = match assign (Js.toUpperCase seat0) room with
                       | Seated seat =>
                           if decide (c = ws ∧ is_Some (sockets s !! ws))
                           then Some (playerOf ws roomId seat name0 rnd) else meOf s c
                       | _ => meOf s c
                       end).
  { intros c. unfold meOf. rewrite Hs.
    destruct (assign _ _); [apply meOf_setMe_cases | done | done]. }
  split; [|split; [|split; [|split; [|split]]]].
  - intros k r seat q Hin Hq. rewrite Hr in Hin.
    apply elem_of_Map_set in Hin as [[= -> ->]|Hin]; [|by eapply I1].
    apply joinedRoom_seat in Hq as [Hq|[_ ->]]; [|done].
    eapply I1; [|done]. apply elem_of_Map_get. by eapply roomOf_seat.
  - intros c q Hcl Hq. rewrite Hc in Hcl. rewrite Hme in Hq. rewrite Hr.
    assert (Hold : meOf s c = Some q →
                   p_ws q = c ∧ ∃ r, Map_get (p_room q) (Map_set roomId R (rooms s)) = Some r
                                     ∧ getSeat r (p_seat q) = Some q).
    { intros Hq0. destruct (I2 c q Hcl Hq0) as (Hws & r & Hg & Hseat).
      split; [done |]. destruct (decide (roomId = p_room q)) as [Heq|Hneq].
      - exists R. rewrite <- Heq, Map_get_set_eq. split; [done |].
        apply joinedRoom_keeps. unfold room, roomOf. by rewrite Heq, Hg.
      - exists r. by rewrite Map_get_set_ne. }
    destruct (assign (Js.toUpperCase seat0) room) as [st| |st] eqn:Ha; try by apply Hold.
    case_decide as Hd; [|by apply Hold].
    injection Hq as <-. destruct Hd as [-> _]. split; [done |].
    exists R. simpl. rewrite Map_get_set_eq. split; [done |].
    unfold R, joinedRoom. rewrite Ha. apply getSeat_setSeat.
  - unfold keysUnique. rewrite Hr. by apply NoDup_Map_set.
  - destruct I4 as [Hnd Hsock]. split; [by rewrite Hc |].
    intros c Hcl. rewrite Hc in Hcl. rewrite Hs.
    destruct (assign _ _); [apply setMe_is_Some | |]; by apply Hsock.
  - by eapply timersConsistent_frame.
  - by eapply slotsScheduled_frame.
Qed.

(** ** The invariants along the other handlers *)

Lemma Set_add_NoDup {T} `{EqDecision T} (x : T) (l : list T) :
  NoDup l → NoDup (Set_add x l).
Proof.
  intros Hnd. unfold Set_add, Set_has. case_bool_decide as Hin; [done |].
  apply NoDup_app. split; [done |]. split; [|apply NoDup_singleton].
  intros y Hy ->%list_elem_of_singleton. done.
Qed.

Lemma elem_of_Set_add {T} `{EqDecision T} (x y : T) (l : list T) :
  y ∈ Set_add x l ↔ y = x ∨ y ∈ l.
Proof.
  unfold Set_add, Set_has. case_bool_decide as Hin.
  - split; [by right | intros [->|?]; done].
  - rewrite elem_of_app, list_elem_of_singleton. tauto.
Qed.

Lemma elem_of_Set_delete {T} `{EqDecision T} (x y : T) (l : list T) :
  y ∈ Set_delete x l ↔ y ≠ x ∧ y ∈ l.
Proof. unfold Set_delete. by rewrite list_elem_of_filter. Qed.

Lemma onConnection_Inv ws s :
  sockets s !! ws = None → Inv s → Inv (onConnection ws s).1.
Proof.
  intros Hnew (I1 & I2 & I3 & I4 & I5 & I6). unfold onConnection. cbn [fst].
  split; [by eapply seatsConsistent_frame |].
  split; [|split; [by eapply keysUnique_frame |
           split; [|split; [by eapply timersConsistent_frame
                           | by eapply slotsScheduled_frame]]]].
  - intros c q Hc Hq. simpl in Hc. unfold meOf in Hq; simpl in Hq.
    destruct (decide (ws = c)) as [<-|Hne].
    + by rewrite lookup_insert_eq in Hq.
    + rewrite lookup_insert_ne in Hq; [|done].
      apply elem_of_Set_add in Hc as [->|Hc]; [done |]. by apply I2.
  - destruct I4 as [Hnd Hsock]. split; simpl.
    + by apply Set_add_NoDup.
    + intros c [->|Hc]%elem_of_Set_add.
      * rewrite lookup_insert_eq. by eexists.
      * destruct (decide (ws = c)) as [<-|Hne].
        -- rewrite lookup_insert_eq. by eexists.
        -- rewrite lookup_insert_ne; [by apply Hsock | done].
Qed.

Lemma createRoom_Inv rnd s id s' : createRoom rnd s = Some (id, s') → Inv s → Inv s'.
Proof.
  intros (_ & Hfresh & ->)%createRoom_Some (I1 & I2 & I3 & I4 & I5 & I6).
  split; [|split; [|split; [|split; [done | split; [done | done]]]]].
  - intros k r seat q Hin Hq. simpl in Hin.
    apply elem_of_Map_set in Hin as [[= -> ->]|Hin]; [by destruct seat | by eapply I1].
  - intros c q Hc Hq. destruct (I2 c q Hc Hq) as (Hws & r & Hg & Hseat).
    split; [done |]. exists r. split; [|done]. simpl.
    rewrite Map_get_set_ne; [done |]. intros ->.
    unfold Map_has in Hfresh. by rewrite Hg in Hfresh.
  - unfold keysUnique. simpl. by apply NoDup_Map_set.
Qed.

Lemma push_timersConsistent payload to s :
  timersConsistent s → timersConsistent (push payload to s).
Proof.
  intros [Hnd Hiff]. unfold timersConsistent.
  rewrite push_timers, push_ticking. case_decide as Hin.
  - split; [done |]. intros d. rewrite <- Hiff. set_solver.
  - rewrite map_app. simpl. split.
    + apply NoDup_app. split; [done |]. split; [|apply NoDup_singleton].
      intros x Hx ->%list_elem_of_singleton. by apply Hiff in Hx.
    + intros d. rewrite elem_of_app, list_elem_of_singleton, <- Hiff. set_solver.
Qed.

Lemma push_slotsScheduled payload to s :
  slotsScheduled s → slotsScheduled (push payload to s).
Proof.
  intros H d Hd. rewrite push_ticking.
  destruct (decide (to = d)) as [<-|Hne]; [set_solver |].
  rewrite push_lookup_ne in Hd; [|done]. apply H in Hd. set_solver.
Qed.

Lemma push_Inv payload to s : Inv s → Inv (push payload to s).
Proof.
  intros (I1 & I2 & I3 & I4 & I5 & I6).
  destruct (push_frame payload to s) as (Hr & Hs & Hc).
  split; [by eapply seatsConsistent_frame |].
  split; [eapply meConsistent_frame; try done; intros; unfold meOf; by rewrite Hs |].
  split; [by eapply keysUnique_frame |].
  split; [eapply clientsValid_frame; try done; intros ws; by rewrite Hs |].
  split; [by apply push_timersConsistent | by apply push_slotsScheduled].
Qed.

Lemma pushAll_Inv payload targets s : Inv s → Inv (pushAll payload targets s).
Proof.
  revert s. induction targets as [|d ds IH]; intros s HI; [done |].
  change (pushAll payload (d :: ds) s) with (pushAll payload ds (push payload d s)).
  by apply IH, push_Inv.
Qed.

Lemma handleZones_Inv p z sq s : Inv s → Inv (handleZones p z sq s).1.
Proof.
  intros HI. unfold handleZones.
  destruct (Map_get (p_room p) (rooms s)); [|done]. by apply pushAll_Inv.
Qed.

Lemma onMessage_Inv ws msg rnd s s' out :
  onMessage ws msg rnd s = Some (s', out) → Inv s → Inv s'.
Proof.
  destruct msg as [| |room0 seat0 name0|z sq|ty]; simpl.
  - by intros [= <- _].
  - unfold handleCreate. destruct (createRoom rnd s) as [[id s1]|] eqn:Hc; [|done].
    intros [= <- _]. by eapply createRoom_Inv.
  - intros [= Hj] HI. replace s' with (handleJoin ws room0 seat0 name0 rnd s).1
      by (by rewrite Hj). by apply handleJoin_Inv.
  - destruct (meOf s ws) as [p|].
    + intros [= Hz] HI. replace s' with (handleZones p z sq s).1
        by (by rewrite Hz). by apply handleZones_Inv.
    + by intros [= <- _].
  - by intros [= <- _].
Qed.

Lemma markAlive_id p : p_alive p = true → markAlive p = p.
Proof. destruct p; simpl; by intros ->. Qed.

Lemma onPong_Inv ws s : ws ∈ clients s → Inv s → Inv (onPong ws s).
Proof.
  intros Hc HI. unfold onPong. destruct (sockets s !! ws) as [k|] eqn:Hk; [|done].
  eapply keepsMe_Inv; [|done]. eapply keepsMe_insert; [done |]. simpl.
  destruct (me k) as [p|] eqn:Hme; [|done]. simpl. f_equal. apply markAlive_id.
  destruct HI as (I1 & I2 & _).
  destruct (I2 ws p Hc) as (_ & r & Hg & Hseat).
  { unfold meOf. by rewrite Hk. }
  eapply I1; [by apply elem_of_Map_get | done].
Qed.

Lemma setBuffered_keepsMe ws n s : keepsMe s (setBuffered ws n s).
Proof.
  unfold setBuffered. destruct (sockets s !! ws) as [k|] eqn:Hk; [|apply keepsMe_refl].
  by eapply keepsMe_insert.
Qed.

Lemma sweepSocket_keepsMe acc ws s : keepsMe s acc.1 → keepsMe s (sweepSocket acc ws).1.
Proof.
  intros H. unfold sweepSocket.
  destruct (sockets acc.1 !! ws) as [k|] eqn:Hk; [|done].
  eapply keepsMe_trans; [done |].
  destruct (isAlive k); simpl.
  - by eapply keepsMe_insert.
  - eapply keepsMe_insert; [done |]. unfold terminate. by destruct (readyState k).
Qed.

Lemma heartbeat_keepsMe s : keepsMe s (heartbeat s).1.
Proof.
  unfold heartbeat.
  assert (H : ∀ l acc, keepsMe s acc.1 → keepsMe s (foldl sweepSocket acc l).1).
  { induction l as [|w l IH]; intros acc Hacc; simpl; [done |].
    by apply IH, sweepSocket_keepsMe. }
  apply H. apply keepsMe_refl.
Qed.

Lemma hasPlayers_seat r seat q : getSeat r seat = Some q → hasPlayers r = true.
Proof.
  unfold hasPlayers. destruct seat; simpl; intros ->; [done |]. by destruct (seatA r).
Qed.

Lemma reap_Inv s : Inv s → Inv (reap s).
Proof.
  intros (I1 & I2 & I3 & I4 & I5 & I6). unfold reap.
  split; [|split; [|split; [|split; [done | split; [done | done]]]]].
  - intros k r seat q Hin Hq. simpl in Hin.
    apply list_elem_of_filter in Hin as [_ Hin]. by eapply I1.
  - intros c q Hc Hq. destruct (I2 c q Hc Hq) as (Hws & r & Hg & Hseat).
    split; [done |]. exists r. split; [|done]. simpl.
    apply Map_get_filter; [done |]. simpl.
    by rewrite (hasPlayers_seat r _ q Hseat).
  - unfold keysUnique. simpl. by apply Map_keys_filter_NoDup.
Qed.

Lemma dropTimer_targets to ts x :
  NoDup (map target ts) →
  x ∈ map target (dropTimer to ts) ↔ x ∈ map target ts ∧ x ≠ to.
Proof.
  induction ts as [|t ts IH]; simpl.
  - intros _. split; [by intros ?%elem_of_nil | by intros [?%elem_of_nil _]].
  - intros Hnd. apply NoDup_cons in Hnd as [Ht Hnd].
    destruct (decide (target t = to)) as [<-|Hne].
    + rewrite elem_of_cons. split.
      * intros Hx. split; [by right |]. by intros ->.
      * intros [[->|Hx] Hne]; done.
    + simpl. rewrite !elem_of_cons, (IH Hnd). split.
      * intros [->|[Hx Hxt]]; [by split; [left |] | by split; [right |]].
      * intros [[->|Hx] Hxt]; [by left | by right].
Qed.

Lemma dropTimer_NoDup to ts : NoDup (map target ts) → NoDup (map target (dropTimer to ts)).
Proof.
  induction ts as [|t ts IH]; simpl; [done |].
  intros Hnd. pose proof Hnd as [Ht Hnd']%NoDup_cons.
  destruct (decide (target t = to)); [done |]. simpl.
  apply NoDup_cons. split; [|by apply IH].
  intros Hin. apply dropTimer_targets in Hin as [Hin _]; done.
Qed.

Lemma timeout_Inv to s : Inv s → Inv (flush to (setTimers (dropTimer to) s)).1.
Proof.
  intros (I1 & I2 & I3 & I4 & [Hnd Hiff] & I6).
  set (s0 := setTimers (dropTimer to) s).
  assert (Hshape : rooms (flush to s0).1 = rooms s ∧ sockets (flush to s0).1 = sockets s ∧
                   clients (flush to s0).1 = clients s ∧
                   ticking (flush to s0).1 = ticking s ∖ {[to]} ∧
                   timers (flush to s0).1 = dropTimer to (timers s) ∧
                   ∀ d, is_Some (latestZones (flush to s0).1 !! d) →
                        d ≠ to ∧ is_Some (latestZones s !! d)).
  { unfold flush. simpl. destruct (latestZones s !! to) as [pl|] eqn:Hl; simpl.
    - repeat split; try done.
      + intros ->. rewrite lookup_delete_eq in H. by destruct H.
      + destruct (decide (to = d)) as [->|Hne].
        * rewrite lookup_delete_eq in H. by destruct H.
        * by rewrite lookup_delete_ne in H.
    - repeat split; try done. intros ->. rewrite Hl in H. by destruct H. }
  destruct Hshape as (Hr & Hs & Hc & Ht & Htm & Hl).
  split; [by eapply seatsConsistent_frame |].
  split; [eapply meConsistent_frame; try done; intros; unfold meOf; by rewrite Hs |].
  split; [by eapply keysUnique_frame |].
  split; [eapply clientsValid_frame; try done; intros ws; by rewrite Hs |].
  split; [split |].
  - rewrite Htm. by apply dropTimer_NoDup.
  - intros d. rewrite Ht, Htm, dropTimer_targets, <- Hiff; [|done]. set_solver.
  - intros d [Hne Hd]%Hl. rewrite Ht. apply I6 in Hd. set_solver.
Qed.

(** ** The invariants along [close] *)

Lemma closeSocket_shape ws s :
  rooms (closeSocket ws s) = rooms s ∧
  clients (closeSocket ws s) = Set_delete ws (clients s) ∧
  latestZones (closeSocket ws s) = latestZones s ∧
  ticking (closeSocket ws s) = ticking s ∧ timers (closeSocket ws s) = timers s ∧
  (∀ c, meOf (closeSocket ws s) c = meOf s c) ∧
  (∀ c, is_Some (sockets s !! c) → is_Some (sockets (closeSocket ws s) !! c)) ∧
  (∀ c, readyStateOf (closeSocket ws s) c
        = if decide (c = ws) then CLOSED else readyStateOf s c).
Proof.
  unfold closeSocket, meOf, readyStateOf. simpl.
  repeat split; try done.
  - intros c. destruct (sockets s !! ws) as [k|] eqn:Hk; [|done].
    destruct (decide (ws = c)) as [<-|Hne].
    + by rewrite lookup_insert_eq, Hk.
    + by rewrite lookup_insert_ne.
  - intros c Hc. destruct (sockets s !! ws) as [k|] eqn:Hk; [|done].
    destruct (decide (ws = c)) as [<-|Hne].
    + rewrite lookup_insert_eq. by eexists.
    + by rewrite lookup_insert_ne.
  - intros c. destruct (sockets s !! ws) as [k|] eqn:Hk.
    + destruct (decide (c = ws)) as [->|Hne].
      * by rewrite lookup_insert_eq.
      * by rewrite lookup_insert_ne.
    + destruct (decide (c = ws)) as [->|Hne]; [by rewrite Hk | done].
Qed.

Lemma Set_delete_NoDup {T} `{EqDecision T} (x : T) (l : list T) :
  NoDup l → NoDup (Set_delete x l).
Proof. unfold Set_delete. apply NoDup_filter. Qed.

Lemma closeSocket_Inv ws s : Inv s → Inv (closeSocket ws s).
Proof.
  intros (I1 & I2 & I3 & I4 & I5 & I6).
  destruct (closeSocket_shape ws s) as (Hr & Hc & Hl & Ht & Htm & Hme & Hs & _).
  split; [by eapply seatsConsistent_frame |].
  split; [|split; [by eapply keysUnique_frame |
           split; [|split; [by eapply timersConsistent_frame
                           | by eapply slotsScheduled_frame]]]].
  - intros c q Hcl Hq. rewrite Hc in Hcl. apply elem_of_Set_delete in Hcl as [_ Hcl].
    rewrite Hme in Hq. rewrite Hr. by apply I2.
  - destruct I4 as [Hnd Hsock]. split.
    + rewrite Hc. by apply Set_delete_NoDup.
    + intros c Hcl. rewrite Hc in Hcl. apply elem_of_Set_delete in Hcl as [_ Hcl].
      by apply Hs, Hsock.
Qed.

(** what the loop over the rooms does for a socket without [me] *)
Lemma leaveSpectators_spec ws rs :
  let res := leaveSpectators ws rs in
  Map_keys res.2 = Map_keys rs ∧
  (∀ k r', (k, r') ∈ res.2 →
     ∃ r, (k, r) ∈ rs ∧ seatA r' = seatA r ∧ seatB r' = seatB r) ∧
  (∀ k r, Map_get k rs = Some r →
     ∃ r', Map_get k res.2 = Some r' ∧ seatA r' = seatA r ∧ seatB r' = seatB r ∧
           (res.1 ≠ Some k → r' = r)) ∧
  (∀ k, Map_get k rs = None → Map_get k res.2 = None) ∧
  (res.1 = None → res.2 = rs) ∧
  (∀ id, res.1 = Some id → is_Some (Map_get id res.2)).
Proof.
  induction rs as [|[id r] rs IH]; simpl.
  - repeat split; try done. by intros k r' ?%elem_of_nil.
  - destruct (Set_has ws (spectatorList r)) eqn:Hhas; simpl.
    + split; [done |]. split; [|split; [|split; [|split; [done |]]]];
        [| | |intros i [= <-]; rewrite decide_True; [by eexists | done]].
      * intros k r' [[= -> ->]|Hin]%elem_of_cons.
        -- exists r. split; [apply list_elem_of_here | done].
        -- exists r'. split; [by apply list_elem_of_further | done].
      * intros k r0. destruct (decide (k = id)) as [->|Hne].
        -- intros [= <-]. eexists. split; [done |]. by repeat split.
        -- intros Hg. exists r0. by repeat split.
      * intros k. by destruct (decide (k = id)).
    + destruct (leaveSpectators ws rs) as [found rs'] eqn:Hls. simpl in *.
      destruct IH as (Hkeys & Hentries & Hget & Hnone & Hsame & Hfound).
      split; [by rewrite Hkeys |]. split; [|split; [|split; [|split]]].
      * intros k r' [[= -> ->]|Hin]%elem_of_cons.
        -- exists r. split; [apply list_elem_of_here | done].
        -- destruct (Hentries k r' Hin) as (r0 & Hin0 & ? & ?).
           exists r0. split; [by apply list_elem_of_further | done].
      * intros k r0. destruct (decide (k = id)) as [->|Hne].
        -- intros [= <-]. exists r. by repeat split.
        -- apply Hget.
      * intros k. destruct (decide (k = id)); [done | apply Hnone].
      * intros Hf. by rewrite Hsame.
      * intros i Hi. destruct (decide (i = id)); [by eexists | by apply Hfound].
Qed.

Lemma vacate_seat p room seat q :
  getSeat (vacate p room) seat = Some q → getSeat room seat = Some q.
Proof.
  unfold vacate. destruct (getSeat room (p_seat p)) as [q0|] eqn:H0; [|done].
  case_decide; [|done]. destruct (decide (seat = p_seat p)) as [->|Hne].
  - by rewrite getSeat_setSeat.
  - by rewrite getSeat_setSeat_ne.
Qed.

Lemma vacate_other p room seat :
  seat ≠ p_seat p → getSeat (vacate p room) seat = getSeat room seat.
Proof.
  intros Hne. unfold vacate. destruct (getSeat room (p_seat p)) as [q0|]; [|done].
  case_decide; [|done]. by rewrite getSeat_setSeat_ne.
Qed.

Lemma vacate_own p room :
  getSeat room (p_seat p) = Some p → getSeat (vacate p room) (p_seat p) = None.
Proof.
  intros H. unfold vacate. rewrite H, decide_True; [|done]. apply getSeat_setSeat.
Qed.

Lemma onClose_Inv ws s : ws ∈ clients s → Inv s → Inv (onClose ws s).1.
Proof.
  intros Hws HI. unfold onClose.
  pose proof (closeSocket_Inv ws s HI) as (I1 & I2 & I3 & I4 & I5 & I6).
  destruct (closeSocket_shape ws s) as (Hr & Hc & Hl & Ht & Htm & Hme & Hs & _).
  destruct HI as (_ & J2 & _).
  set (s0 := closeSocket ws s) in *.
  unfold closeHandler. destruct (meOf s ws) as [p|] eqn:Hp.
  - destruct (Map_get (p_room p) (rooms s0)) as [room|] eqn:Hroom; [|done].
    cbn [fst]. rewrite Hr in Hroom.
    destruct (J2 ws p Hws Hp) as (Hpws & r & Hg & Hseat).
    assert (r = room) as -> by congruence.
    split; [|split; [|split; [|split; [done | split; [done | done]]]]].
    + intros k r seat q Hin Hq. simpl in Hin.
      apply elem_of_Map_set in Hin as [[= -> ->]|Hin]; [|by eapply I1].
      apply vacate_seat in Hq. eapply I1; [|done].
      rewrite Hr. by apply elem_of_Map_get.
    + intros c q Hcl Hq. change (c ∈ clients s0) in Hcl. rewrite Hc in Hcl.
      apply elem_of_Set_delete in Hcl as [Hne Hcl].
      change (meOf s0 c = Some q) in Hq. rewrite Hme in Hq.
      destruct (J2 c q Hcl Hq) as (Hqws & r & Hgq & Hseatq).
      split; [done |]. simpl. rewrite ?Hr.
      destruct (decide (p_room p = p_room q)) as [Heq|Hneq].
      * exists (vacate p room). rewrite <- Heq, Map_get_set_eq. split; [done |].
        assert (r = room) as -> by congruence.
        rewrite vacate_other; [done |]. intros Hs2.
        rewrite Hs2 in Hseatq. congruence.
      * exists r. by rewrite Map_get_set_ne.
    + unfold keysUnique. simpl. by apply NoDup_Map_set.
  - pose proof (leaveSpectators_spec ws (rooms s0)) as Hspec.
    destruct (leaveSpectators ws (rooms s0)) as [[id|] rs'] eqn:Hls; [|done].
    simpl in Hspec. destruct Hspec as (Hkeys & Hentries & Hget & _).
    cbn [fst].
    split; [|split; [|split; [|split; [done | split; [done | done]]]]].
    + intros k r' seat q Hin Hq. simpl in Hin.
      destruct (Hentries k r' Hin) as (r & Hin0 & HA & HB).
      eapply I1; [exact Hin0 |]. destruct seat; simpl in *; congruence.
    + intros c q Hcl Hq. simpl in Hcl.
      destruct (I2 c q Hcl Hq) as (Hqws & r & Hgq & Hseatq).
      split; [done |]. destruct (Hget _ _ Hgq) as (r' & Hg' & HA & HB & _).
      exists r'. split; [done |]. destruct (p_seat q); simpl in *; congruence.
    + unfold keysUnique. simpl. by rewrite Hkeys.
Qed.

(** ** Every reachable state satisfies the invariants *)

Lemma isClient_elem ws s : isClient ws s = true ↔ ws ∈ clients s.
Proof. unfold isClient, Set_has. apply bool_decide_eq_true. Qed.

Lemma initial_Inv : Inv initial.
Proof.
  split; [by intros k r seat q ?%elem_of_nil |].
  split; [by intros c q ?%elem_of_nil |].
  split; [apply NoDup_nil_2 |].
  split; [split; [apply NoDup_nil_2 | by intros c ?%elem_of_nil] |].
  split; [split; [apply NoDup_nil_2 | intros d; simpl; set_solver] |].
  intros d [pl Hd]. simpl in Hd. by rewrite lookup_empty in Hd.
Qed.

Lemma Some_pair_fst {X Y} (x : X * Y) a b : Some x = Some (a, b) → a = x.1.
Proof. by intros [= ->]. Qed.

Lemma step_Inv s e s' out : step s e = Some (s', out) → Inv s → Inv s'.
Proof.
  destruct e as [ws|ws msg rnd|ws|ws|ws n|to| |]; cbn [step].
  - destruct (sockets s !! ws) eqn:Hs; [done |].
    intros ->%Some_pair_fst HI. by apply onConnection_Inv.
  - destruct (isClient ws s); [|done]. apply onMessage_Inv.
  - destruct (isClient ws s) eqn:Hc; [|done]. intros ->%Some_pair_fst.
    by apply onPong_Inv, isClient_elem.
  - destruct (isClient ws s) eqn:Hc; [|done].
    intros ->%Some_pair_fst HI. by apply onClose_Inv; [apply isClient_elem |].
  - destruct (isClient ws s); [|done]. intros ->%Some_pair_fst.
    apply keepsMe_Inv, setBuffered_keepsMe.
  - destruct (timerPending to s); [|done].
    intros ->%Some_pair_fst HI. by apply timeout_Inv.
  - intros ->%Some_pair_fst HI.
    eapply keepsMe_Inv; [apply heartbeat_keepsMe | done].
  - intros ->%Some_pair_fst. apply reap_Inv.
Qed.

Lemma run_Inv es s s' out : run s es = Some (s', out) → Inv s → Inv s'.
Proof.
  revert s out. induction es as [|e es IH]; intros s out; simpl.
  - by intros [= <- _].
  - destruct (step s e) as [[s1 o1]|] eqn:Hstep; [|done].
    destruct (run s1 es) as [[s2 o2]|] eqn:Hrun; [|done].
    intros [= <- _] HI. eapply IH; [done |]. by eapply step_Inv.
Qed.

Lemma reachable_Inv s : reachable s → Inv s.
Proof. intros (es & out & Hrun). eapply run_Inv; [done | apply initial_Inv]. Qed.

Lemma fullRoom_reachable : reachable fullRoom.
Proof. exists fullRoomTrace. eexists. vm_compute. reflexivity. Qed.

(** in a reachable state every scheduled flush has its timer pending *)
Lemma reachable_scheduledPending s to : reachable s → scheduledPending to s.
Proof.
  intros (_ & _ & _ & _ & [_ Hiff] & _)%reachable_Inv Hin. by apply Hiff.
Qed.

(** ** Claims about the [zones] relay *)

Lemma meOf_holdsSeat s ws p :
  Inv s → ws ∈ clients s → meOf s ws = Some p → holdsSeat ws s.
Proof.
  intros (_ & I2 & _) Hc Hp. destruct (I2 ws p Hc Hp) as (Hws & r & Hg & Hseat).
  by exists (p_room p), r, (p_seat p), p.
Qed.

Lemma elem_of_relayTargets room p d :
  d ∈ relayTargets room p ↔
  (∃ q, getSeat room (otherSeat (p_seat p)) = Some q ∧ p_ws q = d) ∨ d ∈ spectatorList room.
Proof.
  unfold relayTargets. rewrite elem_of_app.
  destruct (getSeat room (otherSeat (p_seat p))) as [q|].
  - rewrite list_elem_of_singleton. split.
    + intros [->|?]; [left; by exists q | by right].
    + intros [(q' & [= <-] & <-)|?]; [by left | by right].
  - split.
    + intros [?%elem_of_nil|?]; [done | by right].
    + intros [(q' & ? & _)|?]; [done | by right].
Qed.

(** C6. A [zones] message is relayed only when its connection holds a seat.
    For a connection of a reachable state: without a player record (a
    spectator, or a socket that never joined) and, more generally, without a
    seat, the message changes nothing and sends nothing; with a player
    record, the connection sits in the seat it records, and the payload is
    pushed to the scheduler for the socket of the opposite seat, if taken,
    and for every spectator of the sender's room, and for no other socket. *)
Theorem zones_only_from_seat s ws z sq rnd :
  reachable s → isClient ws s = true →
  let res := step s (EMessage ws (MZones z sq) rnd) in
  (meOf s ws = None → res = Some (s, [])) ∧
  (¬ holdsSeat ws s → res = Some (s, [])) ∧
  (res ≠ Some (s, []) → holdsSeat ws s) ∧
  (∀ p, meOf s ws = Some p →
     ∃ room,
       Map_get (p_room p) (rooms s) = Some room ∧
       getSeat room (p_seat p) = Some p ∧ p_ws p = ws ∧
       res = Some (pushAll (mkZones (p_seat p) z sq) (relayTargets room p) s, []) ∧
       (∀ d, d ∈ relayTargets room p ↔
             (∃ q, getSeat room (otherSeat (p_seat p)) = Some q ∧ p_ws q = d)
             ∨ d ∈ spectatorList room) ∧
       (∀ d, latestZones (pushAll (mkZones (p_seat p) z sq) (relayTargets room p) s) !! d
             = if decide (d ∈ relayTargets room p)
               then Some (mkZones (p_seat p) z sq) else latestZones s !! d)).
Proof.
  intros Hreach Hc res. pose proof (reachable_Inv s Hreach) as HI.
  pose proof Hc as Hc'%isClient_elem.
  assert (Hnone : meOf s ws = None → res = Some (s, [])).
  { intros Hme. unfold res. cbn [step onMessage]. by rewrite Hc, Hme. }
  assert (Hnoseat : ¬ holdsSeat ws s → res = Some (s, [])).
  { intros Hno. apply Hnone. destruct (meOf s ws) as [p|] eqn:Hp; [|done].
    destruct Hno. by eapply meOf_holdsSeat. }
  split; [done |]. split; [done |]. split.
  - intros Hres. destruct (meOf s ws) as [p|] eqn:Hp.
    + by eapply meOf_holdsSeat.
    + by destruct Hres; apply Hnone.
  - intros p Hp. destruct HI as (_ & I2 & _).
    destruct (I2 ws p Hc' Hp) as (Hws & room & Hg & Hseat).
    exists room. repeat (split; [done |]).
    split; [by apply step_zones |].
    split; [apply elem_of_relayTargets | intros d; apply pushAll_lookup].
Qed.

Lemma zones_only_from_seat_witness :
  reachable fullRoom ∧ isClient 3 fullRoom = true ∧
  step fullRoom (EMessage 3 (MZones "z" None) rnd0) = Some (fullRoom, []).
Proof.
  split; [exact fullRoom_reachable |]. split; [reflexivity |].
  exact (proj1 (zones_only_from_seat fullRoom 3 "z" None rnd0
                  fullRoom_reachable eq_refl) eq_refl).
Defined.

(** ** Membership changes and the roster *)

Lemma membership_frame s s' k : rooms s' = rooms s → membership s' k = membership s k.
Proof. unfold membership, roomOf. by intros ->. Qed.

Lemma membership_set s k r f :
  (∀ m, f m = Map_set k r m) → r = roomOf s k →
  ∀ k', membership (setRooms f s) k' = membership s k'.
Proof.
  intros Hf -> k'.
  assert (H : roomOf (setRooms f s) k' = roomOf s k').
  { unfold roomOf at 1. simpl. rewrite Hf.
    destruct (decide (k = k')) as [->|Hne].
    - by rewrite Map_get_set_eq.
    - by rewrite Map_get_set_ne. }
  unfold membership. by rewrite H.
Qed.

Lemma membership_other s s' k k' r :
  rooms s' = Map_set k r (rooms s) → k ≠ k' → membership s' k' = membership s k'.
Proof.
  intros Hr Hne. unfold membership, roomOf. by rewrite Hr, Map_get_set_ne.
Qed.

Lemma hasSpectators_false r : hasSpectators r = false → spectatorList r = [].
Proof. unfold hasSpectators, spectatorList. by destruct (spectators r) as [[|??]|]. Qed.

Lemma hasPlayers_false r : hasPlayers r = false → seatA r = None ∧ seatB r = None.
Proof. unfold hasPlayers. by destruct (seatA r), (seatB r). Qed.

Lemma membership_reap s k : keysUnique s → membership (reap s) k = membership s k.
Proof.
  intros Hnd. unfold membership, roomOf, reap. simpl.
  destruct (Map_get k (rooms s)) as [r|] eqn:Hg.
  - destruct (hasPlayers r || hasSpectators r) eqn:Hlive.
    + rewrite (Map_get_filter _ k r); [done | done | done].
    + rewrite (Map_get_filter_out _ k r); [|done | done | simpl; by rewrite Hlive].
      apply orb_false_iff in Hlive as [[HA HB]%hasPlayers_false Hs%hasSpectators_false].
      simpl. by rewrite HA, HB, Hs.
  - by rewrite Map_get_filter_None.
Qed.

(** a turn of the event loop either leaves the membership of a room alone
    or ends with the roster broadcast of that room, and then leaves the
    scheduler alone *)
Lemma step_membership s e s' out roomId :
  keysUnique s → step s e = Some (s', out) →
  membership s' roomId = membership s roomId ∨
  ((∃ before, out = before ++ broadcastRoom s' roomId) ∧
   schedulerOf s' = schedulerOf s ∧ is_Some (Map_get roomId (rooms s'))).
Proof.
  intros Hnd. destruct e as [ws|ws msg rnd|ws|ws|ws n|to| |]; cbn [step].
  - destruct (sockets s !! ws); [done |]. intros ->%Some_pair_fst. by left.
  - destruct (isClient ws s); [|done].
    destruct msg as [| |room0 seat0 name0|z sq|ty]; cbn [onMessage].
    + intros ->%Some_pair_fst. by left.
    + unfold handleCreate. destruct (createRoom rnd s) as [[id s1]|] eqn:Hc; [|done].
      intros ->%Some_pair_fst. left. cbn [fst].
      apply createRoom_Some in Hc as (_ & Hfresh & ->).
      apply (membership_set s id emptyRoom); [done |].
      unfold roomOf, Map_has in *. by destruct (Map_get id (rooms s)).
    + intros [= Hj]. destruct (decide (Js.trim room0 = EmptyString)) as [He|Hne].
      { left. pose proof (handleJoin_empty ws room0 seat0 name0 rnd s He) as H.
        rewrite Hj in H. simpl in H. by subst. }
      rewrite (handleJoin_assign ws room0 seat0 name0 rnd s Hne) in Hj.
      set (rid := Js.trim room0) in *.
      destruct (decide (rid = roomId)) as [<-|Hother].
      * destruct (assign _ _) as [st| |st]; injection Hj as <- <-.
        -- right. split; [by eexists |]. split; [done |].
           simpl. rewrite Map_set_set, Map_get_set_eq. by eexists.
        -- right. split; [by eexists |]. split; [done |].
           simpl. rewrite Map_set_set, Map_get_set_eq. by eexists.
        -- left. by apply (membership_set s rid (roomOf s rid)).
      * left. destruct (assign _ _) as [st| |st]; injection Hj as <- _.
        -- eapply (membership_other s _ rid); [|done]. simpl. by rewrite Map_set_set.
        -- eapply (membership_other s _ rid); [|done]. simpl. by rewrite Map_set_set.
        -- by apply (membership_set s rid (roomOf s rid)).
    + destruct (meOf s ws) as [p|]; intros ->%Some_pair_fst; [|by left].
      left. apply membership_frame. unfold handleZones.
      destruct (Map_get (p_room p) (rooms s)); [|done]. apply pushAll_frame.
    + intros ->%Some_pair_fst. by left.
  - destruct (isClient ws s); [|done]. intros ->%Some_pair_fst. left.
    apply membership_frame. unfold onPong. by destruct (sockets s !! ws).
  - destruct (isClient ws s); [|done]. intros [= Hcl].
    unfold onClose, closeHandler in Hcl.
    destruct (closeSocket_shape ws s) as (Hr & _ & Hl & Ht & Htm & _).
    set (s0 := closeSocket ws s) in *.
    assert (H0 : membership s0 roomId = membership s roomId) by by apply membership_frame.
    destruct (meOf s ws) as [p|].
    + destruct (Map_get (p_room p) (rooms s0)) as [room|] eqn:Hroom.
      * injection Hcl as <- <-. destruct (decide (p_room p = roomId)) as [<-|Hother].
        -- right. split; [by exists [] |]. split.
           ++ unfold schedulerOf. simpl. congruence.
           ++ simpl. rewrite Map_get_set_eq. by eexists.
        -- left. rewrite <- H0. by eapply (membership_other s0 _ (p_room p)).
      * injection Hcl as <- <-. by left.
    + pose proof (leaveSpectators_spec ws (rooms s0)) as Hspec.
      destruct (leaveSpectators ws (rooms s0)) as [[id|] rs'] eqn:Hls.
      * injection Hcl as <- <-. simpl in Hspec.
        destruct Hspec as (_ & _ & Hget & Hnone & _ & Hfound).
        destruct (decide (id = roomId)) as [<-|Hother].
        -- right. split; [by exists [] |]. split.
           ++ unfold schedulerOf. simpl. congruence.
           ++ simpl. by apply Hfound.
        -- left. unfold membership, roomOf. simpl. rewrite ?Hr.
           rewrite ?Hr in Hget. rewrite ?Hr in Hnone.
           destruct (Map_get roomId (rooms s)) as [r|] eqn:Hg.
           ++ destruct (Hget _ _ Hg) as (r' & -> & _ & _ & Hsame).
              rewrite Hsame; [done | congruence].
           ++ by rewrite Hnone.
      * injection Hcl as <- <-. by left.
  - destruct (isClient ws s); [|done]. intros ->%Some_pair_fst. left.
    apply membership_frame. unfold setBuffered. by destruct (sockets s !! ws).
  - destruct (timerPending to s); [|done]. intros ->%Some_pair_fst. left.
    apply membership_frame. unfold flush. simpl. by destruct (latestZones s !! to).
  - intros ->%Some_pair_fst. left. apply membership_frame, heartbeat_keepsMe.
  - intros ->%Some_pair_fst. left. by apply membership_reap.
Qed.

Lemma broadcast_sends s msg (l : list WebSocket) :
  concat (map (λ ws, send s ws msg false) l)
  = map (λ ws, Send ws msg) (filter (λ ws, readyStateOf s ws = OPEN) l).
Proof.
  induction l as [|w l IH]; simpl; [done |].
  rewrite IH, filter_cons. destruct (decide (readyStateOf s w = OPEN)) as [Ho|Hc].
  - by rewrite send_open.
  - by rewrite send_not_open.
Qed.

Lemma broadcastRoom_Some s roomId r :
  Map_get roomId (rooms s) = Some r →
  broadcastRoom s roomId
  = map (λ ws, Send ws (Roster roomId (rosterOf r)))
      (filter (λ ws, readyStateOf s ws = OPEN) (members r)).
Proof. intros H. unfold broadcastRoom. rewrite H. apply broadcast_sends. Qed.

Lemma elem_of_occupants r p : p ∈ occupants r ↔ ∃ seat, getSeat r seat = Some p.
Proof.
  unfold occupants. simpl.
  destruct (seatA r) as [a|] eqn:HA, (seatB r) as [b|] eqn:HB; simpl; split.
  - intros [->|[->|?%elem_of_nil]%elem_of_cons]%elem_of_cons;
      [by exists A | by exists B | done].
  - intros [[] Hs]; simpl in Hs; rewrite ?HA, ?HB in Hs; injection Hs as <-;
      [apply list_elem_of_here | apply list_elem_of_further, list_elem_of_here].
  - intros ->%list_elem_of_singleton. by exists A.
  - intros [[] Hs]; simpl in Hs; rewrite ?HA, ?HB in Hs; [|done].
    injection Hs as <-. apply list_elem_of_here.
  - intros ->%list_elem_of_singleton. by exists B.
  - intros [[] Hs]; simpl in Hs; rewrite ?HA, ?HB in Hs; [done |].
    injection Hs as <-. apply list_elem_of_here.
  - by intros ?%elem_of_nil.
  - intros [[] Hs]; simpl in Hs; rewrite ?HA, ?HB in Hs; done.
Qed.

Lemma occupants_length r : (length (occupants r) ≤ 2)%nat.
Proof. unfold occupants. simpl. destruct (seatA r), (seatB r); simpl; lia. Qed.

(** the roster lists the occupants of the two seats, each under its seat *)
Lemma elem_of_rosterOf s roomId r entry :
  seatsConsistent s → Map_get roomId (rooms s) = Some r →
  entry ∈ rosterOf r ↔
  ∃ seat p, getSeat r seat = Some p ∧ entry = mkEntry (p_id p) (p_name p) seat.
Proof.
  intros I1 Hg. unfold rosterOf. rewrite list_elem_of_In, in_map_iff. split.
  - intros (p & <- & Hp). apply list_elem_of_In, elem_of_occupants in Hp as [seat Hs].
    exists seat, p. split; [done |]. unfold rosterEntry.
    destruct (I1 roomId r seat p) as (-> & _); [by apply elem_of_Map_get | done | done].
  - intros (seat & p & Hs & ->). exists p. split.
    + unfold rosterEntry.
      destruct (I1 roomId r seat p) as (-> & _); [by apply elem_of_Map_get | done | done].
    + apply list_elem_of_In, elem_of_occupants. by exists seat.
Qed.

Lemma run_cons s e es s1 out1 s2 out2 :
  step s e = Some (s1, out1) → run s1 es = Some (s2, out2) →
  run s (e :: es) = Some (s2, out1 ++ out2).
Proof. intros H1 H2. simpl. by rewrite H1, H2. Qed.

Lemma step_reachable s e s' out : reachable s → step s e = Some (s', out) → reachable s'.
Proof.
  intros (es & o & Hrun) Hstep. exists (es ++ [e]), (o ++ (out ++ [])).
  rewrite run_app, Hrun. simpl. by rewrite Hstep.
Qed.

(** C5. Whenever a turn of the event loop changes who is in a room (a seat
    taken or vacated, a spectator added or removed), the output of that
    same turn ends with one [roster] message for each member of the room
    whose socket is open, seat occupants first and spectators after; the
    message lists exactly the occupants of seats A and B, each with its id,
    name and seat, and no spectator.  The message is sent directly: the
    scheduler's slots, flags and timers are not touched.  The outputs of
    successive turns follow one another in the order of the turns. *)
Theorem roster_broadcast_on_change s e s' out roomId :
  reachable s → step s e = Some (s', out) →
  membership s' roomId ≠ membership s roomId →
  ∃ r before,
    Map_get roomId (rooms s') = Some r ∧
    out = before ++ broadcastRoom s' roomId ∧
    broadcastRoom s' roomId
    = map (λ ws, Send ws (Roster roomId (rosterOf r)))
        (filter (λ ws, readyStateOf s' ws = OPEN) (members r)) ∧
    members r = map p_ws (occupants r) ++ spectatorList r ∧
    (∀ p, p ∈ occupants r ↔ ∃ seat, getSeat r seat = Some p) ∧
    (∀ entry, entry ∈ rosterOf r ↔
       ∃ seat p, getSeat r seat = Some p ∧ entry = mkEntry (p_id p) (p_name p) seat) ∧
    (length (rosterOf r) ≤ 2)%nat ∧
    schedulerOf s' = schedulerOf s ∧
    (∀ es s2 out2, run s' es = Some (s2, out2) →
                   run s (e :: es) = Some (s2, out ++ out2)).
Proof.
  intros Hreach Hstep Hchange.
  pose proof (reachable_Inv s Hreach) as (_ & _ & I3 & _).
  pose proof (reachable_Inv s' (step_reachable s e s' out Hreach Hstep)) as (I1' & _).
  destruct (step_membership s e s' out roomId I3 Hstep)
    as [Hsame|((before & Hout) & Hsched & [r Hr])]; [done |].
  exists r, before. split; [done |]. split; [done |].
  split; [by apply broadcastRoom_Some |]. split; [done |].
  split; [apply elem_of_occupants |].
  split; [intros entry; by apply (elem_of_rosterOf s' roomId) |].
  split; [unfold rosterOf; rewrite length_map; apply occupants_length |].
  split; [done |].
  intros es s2 out2 Hrun. by apply (run_cons s e es s').
Qed.

Lemma roster_broadcast_on_change_witness :
  ∃ s' r, step fullRoom spectatorLeaves
          = Some (s', [Send 1 (Roster "r1" (rosterOf r)); Send 2 (Roster "r1" (rosterOf r))]) ∧
          Map_get "r1" (rooms s') = Some r ∧ spectators r = None.
Proof.
  destruct (step fullRoom spectatorLeaves) as [[s' out]|] eqn:Hstep;
    [|vm_compute in Hstep; discriminate Hstep].
  assert (Hchange : membership s' "r1" ≠ membership fullRoom "r1").
  { vm_compute in Hstep. injection Hstep as <- _. vm_compute. discriminate. }
  destruct (roster_broadcast_on_change fullRoom spectatorLeaves s' out "r1"
              fullRoom_reachable Hstep Hchange) as (r & before & Hr & _).
  exists s', r. split; [|split; [exact Hr |]];
    vm_compute in Hstep; injection Hstep as <- <-;
    vm_compute in Hr; injection Hr as <-; reflexivity.
Defined.

(** ** The heartbeat sweep *)

Lemma sweepSocket_spec acc ws :
  (sweepSocket acc ws).2 = acc.2 ++ sweepActions acc.1 ws ∧
  ∀ c, sockets (sweepSocket acc ws).1 !! c
       = if decide (c = ws) then sweptSocket <$> sockets acc.1 !! c
         else sockets acc.1 !! c.
Proof.
  unfold sweepSocket, sweepActions, sweptSocket.
  destruct (sockets acc.1 !! ws) as [k|] eqn:Hk.
  - destruct (isAlive k) eqn:Ha; simpl; (split; [done |]); intros c;
      destruct (decide (c = ws)) as [->|Hne];
      rewrite ?lookup_insert_eq, ?Hk; simpl; rewrite ?Ha; try done;
      by rewrite lookup_insert_ne.
  - split; [by rewrite app_nil_r |]. intros c.
    destruct (decide (c = ws)) as [->|Hne]; [by rewrite Hk | done].
Qed.

Lemma sweep_fold l acc :
  NoDup l →
  (foldl sweepSocket acc l).2 = acc.2 ++ concat (map (sweepActions acc.1) l) ∧
  ∀ c, sockets (foldl sweepSocket acc l).1 !! c
       = if decide (c ∈ l) then sweptSocket <$> sockets acc.1 !! c
         else sockets acc.1 !! c.
Proof.
  revert acc. induction l as [|w l IH]; intros acc Hnd; simpl.
  - split; [by rewrite app_nil_r | done].
  - apply NoDup_cons in Hnd as [Hw Hnd].
    destruct (IH (sweepSocket acc w) Hnd) as [Hout Hsock].
    destruct (sweepSocket_spec acc w) as [Hout1 Hsock1].
    split.
    + rewrite Hout, Hout1, <- app_assoc. f_equal. f_equal. f_equal.
      apply map_ext_in. intros c Hc%list_elem_of_In.
      unfold sweepActions. rewrite Hsock1, decide_False; [done |].
      by intros ->.
    + intros c. rewrite Hsock, Hsock1.
      destruct (decide (c = w)) as [->|Hne].
      * rewrite decide_False, decide_True; [done | apply list_elem_of_here | done].
      * destruct (decide (c ∈ l)) as [Hin|Hout'].
        -- rewrite decide_True; [done | by apply list_elem_of_further].
        -- rewrite decide_False; [done |].
           intros [?|?]%elem_of_cons; done.
Qed.

(** one sweep, socket by socket *)
Lemma heartbeat_spec s :
  NoDup (clients s) →
  (heartbeat s).2 = concat (map (sweepActions s) (clients s)) ∧
  ∀ c, sockets (heartbeat s).1 !! c
       = if decide (c ∈ clients s) then sweptSocket <$> sockets s !! c
         else sockets s !! c.
Proof. intros Hnd. unfold heartbeat. by apply (sweep_fold (clients s) (s, [])). Qed.

Lemma elem_of_sweep s (l : list WebSocket) a :
  a ∈ concat (map (sweepActions s) l) ↔ ∃ c, c ∈ l ∧ a ∈ sweepActions s c.
Proof.
  rewrite list_elem_of_In, in_concat. split.
  - intros (acts & Hacts & Ha). apply in_map_iff in Hacts as (c & <- & Hc).
    exists c. split; by apply list_elem_of_In.
  - intros (c & Hc & Ha). exists (sweepActions s c). split.
    + apply in_map_iff. exists c. split; [done | by apply list_elem_of_In].
    + by apply list_elem_of_In.
Qed.

Lemma elem_of_sweepActions s c a :
  a ∈ sweepActions s c →
  ∃ k, sockets s !! c = Some k ∧
       ((isAlive k = true ∧ readyState k = OPEN ∧ a = Ping c) ∨
        (isAlive k = false ∧ a = Terminate c)).
Proof.
  unfold sweepActions. destruct (sockets s !! c) as [k|]; [|by intros ?%elem_of_nil].
  intros Ha. exists k. split; [done |]. destruct (isAlive k).
  - case_decide; [|by apply elem_of_nil in Ha].
    apply list_elem_of_singleton in Ha. by left.
  - apply list_elem_of_singleton in Ha. by right.
Qed.




(** ** The close of a seated connection *)

Lemma close_seated s ws p :
  Inv s → ws ∈ clients s → meOf s ws = Some p →
  let res := onClose ws s in
  ∃ room0 room,
    Map_get (p_room p) (rooms s) = Some room0 ∧
    getSeat room0 (p_seat p) = Some p ∧
    Map_get (p_room p) (rooms res.1) = Some room ∧
    (∀ seat, getSeat room seat
             = if decide (seat = p_seat p) then None else getSeat room0 seat) ∧
    spectators room = spectators room0 ∧
    (ws ∉ clients res.1) ∧
    res.2 = map (λ w, Send w (Roster (p_room p) (rosterOf room)))
              (filter (λ w, readyStateOf res.1 w = OPEN) (members room)) ∧
    (∀ entry, entry ∈ rosterOf room → e_seat entry ≠ p_seat p) ∧
    (rosterEntry p ∉ rosterOf room) ∧
    (∀ w msg, Send w msg ∈ res.2 → w ≠ ws) ∧
    ((∀ seat q, getSeat room0 seat = Some q → p_ws q = ws → seat = p_seat p) →
     ws ∉ spectatorList room0 → ws ∉ members room).
Proof.
  intros HI Hc Hp res.
  pose proof (onClose_Inv ws s Hc HI) as (I1' & _). fold res in I1'.
  destruct HI as (I1 & I2 & _).
  destruct (I2 ws p Hc Hp) as (Hws & room0 & Hg & Hseat).
  destruct (closeSocket_shape ws s) as (Hr & Hcl & _ & _ & _ & _ & _ & Hrs).
  assert (Hres : res = (setRooms (Map_set (p_room p) (vacate p room0)) (closeSocket ws s),
                        broadcastRoom
                          (setRooms (Map_set (p_room p) (vacate p room0)) (closeSocket ws s))
                          (p_room p))).
  { unfold res, onClose, closeHandler. by rewrite Hp, Hr, Hg. }
  set (s3 := setRooms (Map_set (p_room p) (vacate p room0)) (closeSocket ws s)) in *.
  assert (Hg3 : Map_get (p_room p) (rooms s3) = Some (vacate p room0)).
  { unfold s3. simpl. apply Map_get_set_eq. }
  assert (Hseats : ∀ seat, getSeat (vacate p room0) seat
                           = if decide (seat = p_seat p) then None else getSeat room0 seat).
  { intros seat. case_decide as Hd.
    - subst seat. by apply vacate_own.
    - by apply vacate_other. }
  assert (Hentries : ∀ entry, entry ∈ rosterOf (vacate p room0) → e_seat entry ≠ p_seat p).
  { intros entry Hin. rewrite Hres in I1'. cbn [fst] in I1'.
    apply (elem_of_rosterOf s3 (p_room p)) in Hin as (seat & q & Hq & ->); [|done | done].
    simpl. intros ->. rewrite Hseats, decide_True in Hq; done. }
  exists room0, (vacate p room0). rewrite Hres. cbn [fst snd].
  split; [done |]. split; [done |]. split; [done |]. split; [done |].
  split.
  { unfold vacate. destruct (getSeat room0 (p_seat p)); [|done].
    case_decide; [|done]. by destruct (p_seat p). }
  split.
  { change (clients s3) with (clients (closeSocket ws s)). rewrite Hcl.
    intros [Hne _]%elem_of_Set_delete. done. }
  split; [by apply broadcastRoom_Some |].
  split; [done |]. split.
  { intros Hin. apply Hentries in Hin. simpl in Hin. done. }
  split.
  { intros w msg Hin. rewrite (broadcastRoom_Some s3 _ _ Hg3) in Hin.
    apply list_elem_of_fmap in Hin as (w' & [= <- _] & Hw').
    apply list_elem_of_filter in Hw' as [Hopen _].
    intros ->. change (readyStateOf s3 ws) with (readyStateOf (closeSocket ws s) ws) in Hopen.
    rewrite Hrs, decide_True in Hopen; done. }
  intros Honly Hspec [Hin|Hin]%elem_of_app.
  - apply list_elem_of_fmap in Hin as (q & Hq & [seat Hs]%elem_of_occupants).
    rewrite Hseats in Hs. case_decide as Hd; [done |].
    apply Hd. by eapply Honly.
  - apply Hspec. unfold spectatorList in *. unfold vacate in Hin.
    destruct (getSeat room0 (p_seat p)); [|done].
    case_decide; [|done]. by destruct (p_seat p).
Qed.

(** ** Claim about the liveness monitor *)



(** * Further properties of the relay *)

(** ** The display name *)

Lemma slice0_length n s : String.length (Js.slice0 n s) = Nat.min n (String.length s).
Proof.
  unfold Js.slice0. revert s. induction n as [|n IH]; intros [|c s]; simpl; try done.
  by rewrite IH.
Qed.


Lemma string_length_0 s : String.length s = 0%nat ↔ s = EmptyString.
Proof. by destruct s. Qed.

Lemma orElse_nonempty a b : b ≠ EmptyString → Js.orElse a b ≠ EmptyString.
Proof. by destruct a. Qed.



(** ** The room reaper *)

Lemma filter_idemp {T} (P : T → Prop) `{∀ x, Decision (P x)} (l : list T) :
  filter P (filter P l) = filter P l.
Proof.
  induction l as [|x l IH]; [done |].
  rewrite filter_cons. destruct (decide (P x)) as [HP|HP]; [|done].
  by rewrite filter_cons_True, IH.
Qed.

Lemma hasPlayers_true r : hasPlayers r = true ↔ ∃ seat p, getSeat r seat = Some p.
Proof.
  unfold hasPlayers. split.
  - destruct (seatA r) as [a|] eqn:HA; [intros _; by exists A, a |].
    destruct (seatB r) as [b|] eqn:HB; [intros _; by exists B, b | done].
  - intros ([] & p & Hs); simpl in Hs; rewrite Hs; [done |]. by destruct (seatA r).
Qed.

Lemma hasSpectators_true r : hasSpectators r = true ↔ spectatorList r ≠ [].
Proof.
  unfold hasSpectators, spectatorList. destruct (spectators r) as [[|w l]|]; simpl;
    split; done.
Qed.

Lemma reap_lookup s k :
  keysUnique s →
  Map_get k (rooms (reap s))
  = match Map_get k (rooms s) with
    | Some r => if isLive r then Some r else None
    | None => None
    end.
Proof.
  intros Hnd. unfold reap, isLive. simpl.
  destruct (Map_get k (rooms s)) as [r|] eqn:Hg.
  - destruct (hasPlayers r || hasSpectators r) eqn:Hl.
    + by apply Map_get_filter.
    + apply (Map_get_filter_out _ k r); [done | done |]. simpl. by rewrite Hl.
  - by apply Map_get_filter_None.
Qed.

(** X2. A reaper sweep deletes exactly the rooms that have no seat occupant
    and no spectator: every room with a player or a spectator is kept as it
    is, the kept rooms keep their order, nothing but the registry changes,
    nobody's membership changes, and a second sweep right after the first
    finds nothing to delete. *)
Theorem reap_deletes_exactly_empty_rooms s :
  reachable s →
  (∀ k, Map_get k (rooms (reap s))
        = match Map_get k (rooms s) with
          | Some r => if isLive r then Some r else None
          | None => None
          end) ∧
  (∀ r, isLive r = true ↔
        (∃ seat p, getSeat r seat = Some p) ∨ spectatorList r ≠ []) ∧
  rooms (reap s) = filter (λ kv, isLive kv.2 = true) (rooms s) ∧
  Map_keys (rooms (reap s)) `sublist_of` Map_keys (rooms s) ∧
  (∀ k, membership (reap s) k = membership s k) ∧
  sockets (reap s) = sockets s ∧ clients (reap s) = clients s ∧
  schedulerOf (reap s) = schedulerOf s ∧
  reap (reap s) = reap s ∧
  step s EReap = Some (reap s, []).
Proof.
  intros (_ & _ & Hnd & _)%reachable_Inv.
  split; [intros k; by apply reap_lookup |].
  split.
  { intros r. unfold isLive. rewrite orb_true_iff, hasPlayers_true, hasSpectators_true.
    done. }
  split; [done |]. split.
  { unfold reap, Map_keys. simpl. apply (fmap_sublist fst), sublist_filter. }
  split; [intros k; by apply membership_reap |].
  repeat (split; [done |]). split; [|done].
  unfold reap. destruct s; unfold setRooms; simpl. f_equal. apply filter_idemp.
Qed.

Lemma created_reachable : reachable created.
Proof. exists createdTrace. eexists. vm_compute. reflexivity. Qed.

Lemma reap_deletes_exactly_empty_rooms_witness :
  reachable created ∧ Map_has (roomIdOf draw1) (rooms created) = true ∧
  Map_get (roomIdOf draw1) (rooms (reap created)) = None.
Proof.
  split; [exact created_reachable |]. split; [reflexivity |].
  rewrite (proj1 (reap_deletes_exactly_empty_rooms created created_reachable)).
  reflexivity.
Defined.

Lemma Map_set_new {V} k (v : V) m : Map_get k m = None → Map_set k v m = m ++ [(k, v)].
Proof.
  induction m as [|[k' v'] m IH]; simpl; [done |].
  destruct (decide (k = k')); [done |]. intros H. by rewrite IH.
Qed.

(** X3. A room that [create] has stored and nobody has joined is deleted by
    the next reaper sweep: after the sweep the registry is what the sweep
    would have left had the room never been created. *)
Theorem created_room_is_reaped rnd s id s1 :
  createRoom rnd s = Some (id, s1) →
  Map_get id (rooms s1) = Some emptyRoom ∧
  Map_has id (rooms (reap s1)) = false ∧
  reap s1 = reap s.
Proof.
  intros (_ & Hfresh & ->)%createRoom_Some.
  assert (Hnone : Map_get id (rooms s) = None).
  { unfold Map_has in Hfresh. by destruct (Map_get id (rooms s)). }
  assert (Hrooms : rooms (reap (setRooms (Map_set id emptyRoom) s)) = rooms (reap s)).
  { unfold reap. simpl. rewrite (Map_set_new id emptyRoom _ Hnone), filter_app.
    rewrite filter_cons_False; [|simpl; done]. by rewrite filter_nil, app_nil_r. }
  split; [simpl; apply Map_get_set_eq |]. split.
  - unfold Map_has. rewrite Hrooms. unfold reap. simpl.
    by rewrite Map_get_filter_None.
  - apply Server_eq; try done.
Qed.

Lemma created_room_is_reaped_witness :
  createRoom (mkRandom [draw1] EmptyString) lobby
  = Some (roomIdOf draw1, setRooms (Map_set (roomIdOf draw1) emptyRoom) lobby) ∧
  reap (setRooms (Map_set (roomIdOf draw1) emptyRoom) lobby) = reap lobby.
Proof.
  assert (H : createRoom (mkRandom [draw1] EmptyString) lobby
              = Some (roomIdOf draw1, setRooms (Map_set (roomIdOf draw1) emptyRoom) lobby))
    by reflexivity.
  split; [exact H |].
  exact (proj2 (proj2 (created_room_is_reaped _ _ _ _ H))).
Defined.

(** ** What a turn of the event loop does to seats and player records *)

Lemma onPong_keepsMe ws s : Inv s → ws ∈ clients s → keepsMe s (onPong ws s).
Proof.
  intros HI Hc. unfold onPong. destruct (sockets s !! ws) as [k|] eqn:Hk;
    [|apply keepsMe_refl].
  eapply keepsMe_insert; [done |]. simpl.
  destruct (me k) as [p|] eqn:Hme; [|done]. simpl. f_equal. apply markAlive_id.
  destruct HI as (I1 & I2 & _).
  destruct (I2 ws p Hc) as (_ & r & Hg & Hseat).
  { unfold meOf. by rewrite Hk. }
  eapply I1; [by apply elem_of_Map_get | done].
Qed.

Lemma flush_shape to s :
  rooms (flush to s).1 = rooms s ∧ sockets (flush to s).1 = sockets s ∧
  clients (flush to s).1 = clients s ∧ timers (flush to s).1 = timers s.
Proof. unfold flush. simpl. by destruct (latestZones s !! to). Qed.

Lemma handleZones_frame p z sq s :
  rooms (handleZones p z sq s).1 = rooms s ∧
  sockets (handleZones p z sq s).1 = sockets s ∧
  clients (handleZones p z sq s).1 = clients s.
Proof.
  unfold handleZones. destruct (Map_get (p_room p) (rooms s)); [|done].
  apply pushAll_frame.
Qed.

Lemma vacate_spectators p room : spectators (vacate p room) = spectators room.
Proof.
  unfold vacate. destruct (getSeat room (p_seat p)); [|done].
  case_decide; [|done]. by destruct (p_seat p).
Qed.

(** an occupant stays in its seat through every turn of the event loop but
    the close of the connection whose player record it is *)
Lemma step_keeps_occupant s e s' out k seat q :
  Inv s → step s e = Some (s', out) → seatHeldBy s k seat q →
  (∀ ws, e = EClose ws → meOf s ws ≠ Some q) →
  seatHeldBy s' k seat q.
Proof.
  intros HI Hstep (r & Hg & Hq) Hclose. unfold seatHeldBy.
  destruct e as [ws|ws msg rnd|ws|ws|ws n|to| |]; cbn [step] in Hstep.
  - destruct (sockets s !! ws); [done |]. apply Some_pair_fst in Hstep as ->.
    by exists r.
  - destruct (isClient ws s); [|done].
    destruct msg as [| |room0 seat0 name0|z sq|ty]; cbn [onMessage] in Hstep.
    + apply Some_pair_fst in Hstep as ->. by exists r.
    + unfold handleCreate in Hstep.
      destruct (createRoom rnd s) as [[id s1]|] eqn:Hc; [|done].
      apply Some_pair_fst in Hstep as ->. cbn [fst].
      apply createRoom_Some in Hc as (_ & Hfresh & ->).
      exists r. split; [|done]. simpl. rewrite Map_get_set_ne; [done |].
      intros ->. unfold Map_has in Hfresh. by rewrite Hg in Hfresh.
    + apply Some_pair_fst in Hstep as ->.
      destruct (decide (Js.trim room0 = EmptyString)) as [He|Hne].
      { rewrite handleJoin_empty; [|done]. by exists r. }
      destruct (handleJoin_state ws room0 seat0 name0 rnd s Hne) as (-> & _).
      destruct (decide (Js.trim room0 = k)) as [->|Hk].
      * eexists. rewrite Map_get_set_eq. split; [done |].
        apply joinedRoom_keeps. unfold roomOf. by rewrite Hg.
      * exists r. by rewrite Map_get_set_ne.
    + destruct (meOf s ws) as [p|]; apply Some_pair_fst in Hstep as ->; [|by exists r].
      destruct (handleZones_frame p z sq s) as (-> & _). by exists r.
    + apply Some_pair_fst in Hstep as ->. by exists r.
  - destruct (isClient ws s); [|done]. apply Some_pair_fst in Hstep as ->.
    exists r. split; [|done]. unfold onPong. by destruct (sockets s !! ws).
  - destruct (isClient ws s) eqn:Hc; [|done]. apply Some_pair_fst in Hstep as ->.
    apply isClient_elem in Hc. specialize (Hclose ws eq_refl).
    destruct (closeSocket_shape ws s) as (Hr & _).
    unfold onClose, closeHandler. destruct (meOf s ws) as [p|] eqn:Hp.
    + rewrite Hr. destruct (Map_get (p_room p) (rooms s)) as [room|] eqn:Hroom;
        cbn [fst]; [|exists r; by rewrite Hr].
      simpl. rewrite ?Hr. destruct (decide (p_room p = k)) as [Hk|Hk].
      * rewrite Hk, Map_get_set_eq. eexists. split; [done |].
        assert (room = r) as -> by congruence.
        rewrite vacate_other; [done |]. intros ->.
        destruct HI as (_ & I2 & _).
        destruct (I2 ws p Hc Hp) as (_ & r0 & Hg0 & Hs0).
        assert (r0 = r) as -> by congruence. congruence.
      * exists r. by rewrite Map_get_set_ne.
    + pose proof (leaveSpectators_spec ws (rooms (closeSocket ws s))) as Hspec.
      destruct (leaveSpectators ws (rooms (closeSocket ws s))) as [[id|] rs'] eqn:Hls;
        cbn [fst]; [|exists r; by rewrite Hr].
      simpl in Hspec. destruct Hspec as (_ & _ & Hget & _).
      rewrite ?Hr in Hget. destruct (Hget _ _ Hg) as (r' & Hg' & HA & HB & _).
      exists r'. split; [done |]. destruct seat; simpl in *; congruence.
  - destruct (isClient ws s); [|done]. apply Some_pair_fst in Hstep as ->.
    exists r. split; [|done]. unfold setBuffered. by destruct (sockets s !! ws).
  - destruct (timerPending to s); [|done]. apply Some_pair_fst in Hstep as ->.
    exists r. split; [|done]. by destruct (flush_shape to (setTimers (dropTimer to) s)) as (-> & _).
  - apply Some_pair_fst in Hstep as ->. exists r. split; [|done].
    by destruct (heartbeat_keepsMe s) as (-> & _).
  - apply Some_pair_fst in Hstep as ->. exists r. split; [|done].
    simpl. apply Map_get_filter; [done |]. simpl.
    by rewrite (hasPlayers_seat r seat q Hq).
Qed.

(** the player record of a connection changes only by a seat join of its
    own that succeeds *)
Lemma step_me s e s' out c :
  Inv s → step s e = Some (s', out) → c ∈ clients s' →
  (c ∈ clients s ∧ meOf s' c = meOf s c) ∨
  (e = EConnection c ∧ meOf s' c = None) ∨
  (∃ room0 seat0 name0 rnd seat,
     e = EMessage c (MJoin room0 seat0 name0) rnd ∧ c ∈ clients s ∧
     Js.trim room0 ≠ EmptyString ∧
     assign (Js.toUpperCase seat0) (roomOf s (Js.trim room0)) = Seated seat ∧
     meOf s' c = Some (playerOf c (Js.trim room0) seat name0 rnd)).
Proof.
  intros HI Hstep Hc.
  destruct e as [ws|ws msg rnd|ws|ws|ws n|to| |]; cbn [step] in Hstep.
  - destruct (sockets s !! ws) eqn:Hs; [done |]. apply Some_pair_fst in Hstep as ->.
    cbn [fst onConnection] in Hc |- *. simpl in Hc.
    apply elem_of_Set_add in Hc as [->|Hc].
    + right. left. split; [done |]. unfold meOf. simpl. by rewrite lookup_insert_eq.
    + left. split; [done |]. unfold meOf. simpl.
      destruct (decide (ws = c)) as [->|Hne]; [|by rewrite lookup_insert_ne].
      by rewrite lookup_insert_eq, Hs.
  - destruct (isClient ws s) eqn:Hws; [|done]. apply isClient_elem in Hws.
    destruct msg as [| |room0 seat0 name0|z sq|ty]; cbn [onMessage] in Hstep.
    + apply Some_pair_fst in Hstep as ->. by left.
    + unfold handleCreate in Hstep.
      destruct (createRoom rnd s) as [[id s1]|] eqn:Hcr; [|done].
      apply Some_pair_fst in Hstep as ->.
      apply createRoom_Some in Hcr as (_ & _ & ->). by left.
    + apply Some_pair_fst in Hstep as ->.
      destruct (decide (Js.trim room0 = EmptyString)) as [He|Hne].
      { rewrite handleJoin_empty in Hc |- *; [|done ..]. by left. }
      destruct (handleJoin_state ws room0 seat0 name0 rnd s Hne)
        as (_ & Hcl & _ & _ & _ & Hs).
      rewrite Hcl in Hc.
      assert (Hme : meOf (handleJoin ws room0 seat0 name0 rnd s).1 c
                    = match assign (Js.toUpperCase seat0) (roomOf s (Js.trim room0)) with
                      | Seated seat =>
                          if decide (c = ws ∧ is_Some (sockets s !! ws))
                          then Some (playerOf ws (Js.trim room0) seat name0 rnd)
                          else meOf s c
                      | _ => meOf s c
                      end).
      { unfold meOf. rewrite Hs.
        destruct (assign _ _); [apply meOf_setMe_cases | done | done]. }
      destruct (assign _ _) as [st| |st] eqn:Ha; try by left.
      case_decide as Hd; [|by left].
      destruct Hd as [-> _]. right. right. by exists room0, seat0, name0, rnd, st.
    + destruct (meOf s ws) as [p|]; apply Some_pair_fst in Hstep as ->; [|by left].
      destruct (handleZones_frame p z sq s) as (_ & Hs & Hcl).
      left. rewrite Hcl in Hc. split; [done |]. unfold meOf. by rewrite Hs.
    + apply Some_pair_fst in Hstep as ->. by left.
  - destruct (isClient ws s) eqn:Hws; [|done]. apply isClient_elem in Hws.
    apply Some_pair_fst in Hstep as ->. cbn [fst] in *.
    destruct (onPong_keepsMe ws s HI Hws) as (_ & Hcl & _ & _ & _ & Hme & _).
    left. rewrite Hcl in Hc. by rewrite Hme.
  - destruct (isClient ws s) eqn:Hws; [|done]. apply Some_pair_fst in Hstep as ->.
    destruct (closeSocket_shape ws s) as (_ & Hcl & _ & _ & _ & Hme & _).
    assert (Hsame : clients (onClose ws s).1 = clients (closeSocket ws s) ∧
                    sockets (onClose ws s).1 = sockets (closeSocket ws s)).
    { unfold onClose, closeHandler. destruct (meOf s ws).
      - by destruct (Map_get _ _).
      - by destruct (leaveSpectators _ _) as [[?|] ?]. }
    destruct Hsame as [Hc1 Hs1]. rewrite Hc1, Hcl in Hc.
    apply elem_of_Set_delete in Hc as [_ Hc]. left. split; [done |].
    rewrite <- Hme. unfold meOf. by rewrite Hs1.
  - destruct (isClient ws s); [|done]. apply Some_pair_fst in Hstep as ->.
    destruct (setBuffered_keepsMe ws n s) as (_ & Hcl & _ & _ & _ & Hme & _).
    left. cbn [fst] in *. rewrite Hcl in Hc. by rewrite Hme.
  - destruct (timerPending to s); [|done]. apply Some_pair_fst in Hstep as ->.
    destruct (flush_shape to (setTimers (dropTimer to) s)) as (_ & Hs & Hcl & _).
    left. rewrite Hcl in Hc. split; [done |]. unfold meOf. by rewrite Hs.
  - apply Some_pair_fst in Hstep as ->.
    destruct (heartbeat_keepsMe s) as (_ & Hcl & _ & _ & _ & Hme & _).
    left. rewrite Hcl in Hc. by rewrite Hme.
  - apply Some_pair_fst in Hstep as ->. by left.
Qed.

Lemma twoSeats_reachable : reachable twoSeats.
Proof. exists twoSeatsTrace. eexists. vm_compute. reflexivity. Qed.

(** X4. An occupant is never displaced: through one turn of the event loop
    the occupant of a seat is still there afterwards, unless the turn is
    the close of the connection whose player record is that occupant, and
    then the seat is vacated.  No join, zones message, sweep or reaper run
    takes a seat away. *)
Theorem occupant_leaves_only_by_own_close s e s' out k seat q :
  reachable s → step s e = Some (s', out) → seatHeldBy s k seat q →
  (seatHeldBy s' k seat q ↔ ¬ ∃ ws, e = EClose ws ∧ meOf s ws = Some q).
Proof.
  intros Hreach Hstep Hheld. pose proof (reachable_Inv s Hreach) as HI. split.
  - intros (r' & Hg' & Hq') (ws & -> & Hme).
    cbn [step] in Hstep. destruct (isClient ws s) eqn:Hc; [|done].
    apply isClient_elem in Hc. injection Hstep as Hstep.
    destruct (close_seated s ws q HI Hc Hme)
      as (room0 & room & Hg0 & Hs0 & Hg1 & Hseats & _).
    rewrite Hstep in Hg1. cbn [fst] in Hg1.
    destruct Hheld as (r & Hg & Hq). destruct HI as (I1 & _).
    destruct (I1 k r seat q) as (Hseat & Hroom & _); [by apply elem_of_Map_get | done |].
    subst k seat. assert (r' = room) as -> by congruence.
    rewrite Hseats, decide_True in Hq'; done.
  - intros Hno. eapply step_keeps_occupant; [done | done | done |].
    intros ws -> Hme. apply Hno. by exists ws.
Qed.

Lemma occupant_leaves_only_by_own_close_witness :
  reachable fullRoom ∧
  step fullRoom (EClose 2) = Some (onClose 2 fullRoom) ∧
  seatHeldBy fullRoom "r1" A ann ∧
  seatHeldBy (onClose 2 fullRoom).1 "r1" A ann.
Proof.
  assert (Hstep : step fullRoom (EClose 2) = Some (onClose 2 fullRoom)) by reflexivity.
  assert (Hheld : seatHeldBy fullRoom "r1" A ann) by (eexists; split; reflexivity).
  split; [exact fullRoom_reachable |]. split; [exact Hstep |]. split; [exact Hheld |].
  destruct (onClose 2 fullRoom) as [s' out] eqn:Hc.
  apply (proj2 (occupant_leaves_only_by_own_close fullRoom (EClose 2) s' out "r1" A ann
                  fullRoom_reachable Hstep Hheld)).
  intros (ws & [= <-] & Hme). vm_compute in Hme. discriminate Hme.
Defined.

(** X5. The player record of a connection is set only by a seat join of
    that connection that succeeds; no other turn of the event loop changes
    it, and nothing ever clears it while the socket is connected. *)
Theorem player_record_changes_only_by_own_join s e s' out c :
  reachable s → step s e = Some (s', out) → c ∈ clients s' →
  (c ∈ clients s ∧ meOf s' c = meOf s c) ∨
  (e = EConnection c ∧ meOf s' c = None) ∨
  (∃ room0 seat0 name0 rnd seat,
     e = EMessage c (MJoin room0 seat0 name0) rnd ∧ c ∈ clients s ∧
     Js.trim room0 ≠ EmptyString ∧
     assign (Js.toUpperCase seat0) (roomOf s (Js.trim room0)) = Seated seat ∧
     meOf s' c = Some (playerOf c (Js.trim room0) seat name0 rnd)).
Proof. intros Hreach. apply step_me. by apply reachable_Inv. Qed.

Lemma player_record_changes_only_by_own_join_witness :
  reachable fullRoom ∧ 1 ∈ clients (heartbeat fullRoom).1 ∧
  meOf (heartbeat fullRoom).1 1 = Some ann.
Proof.
  assert (Hc : 1 ∈ clients (heartbeat fullRoom).1) by apply list_elem_of_here.
  split; [exact fullRoom_reachable |]. split; [exact Hc |].
  destruct (player_record_changes_only_by_own_join fullRoom EHeartbeat
              (heartbeat fullRoom).1 (heartbeat fullRoom).2 1
              fullRoom_reachable eq_refl Hc)
    as [[_ ->]|[[[=] _]|(? & ? & ? & ? & ? & [=] & _)]].
  reflexivity.
Defined.

Lemma step_orphaned s e s' out k seat q :
  Inv s → step s e = Some (s', out) → seatHeldBy s k seat q →
  orphaned q s → orphaned q s'.
Proof.
  intros HI Hstep (r & Hg & Hq) Horph c Hc Hme.
  destruct (step_me s e s' out c HI Hstep Hc)
    as [[Hc0 Heq]|[[_ Hnone]|(room0 & seat0 & name0 & rnd & st & _ & _ & Hne & Ha & Hnew)]].
  - apply (Horph c Hc0). by rewrite <- Heq.
  - congruence.
  - rewrite Hnew in Hme. injection Hme as <-.
    destruct HI as (I1 & _).
    destruct (I1 k r seat _ (elem_of_Map_get _ _ _ Hg) Hq) as (Hseat & Hroom & _).
    simpl in Hseat, Hroom. subst st k.
    apply assign_Seated_free in Ha. unfold roomOf in Ha. rewrite Hg in Ha.
    simpl in Ha. congruence.
Qed.

(** X6. A seat whose occupant is no connected socket's player record stays
    occupied for good: whatever events follow, that occupant is still in
    the seat, its room is never reaped, and every request for that seat is
    refused. *)
Theorem orphaned_seat_is_permanent s k seat q es s' out :
  reachable s → seatHeldBy s k seat q → orphaned q s →
  run s es = Some (s', out) →
  seatHeldBy s' k seat q ∧ orphaned q s' ∧
  Map_has k (rooms s') = true ∧
  assign (Seat_show seat) (roomOf s' k) = Occupied seat.
Proof.
  intros Hreach Hheld Horph Hrun.
  assert (H : seatHeldBy s' k seat q ∧ orphaned q s').
  { pose proof (reachable_Inv s Hreach) as HI. clear Hreach.
    revert s out HI Hheld Horph Hrun.
    induction es as [|e es IH]; intros s out HI Hheld Horph; simpl.
    - by intros [= <- _].
    - destruct (step s e) as [[s1 o1]|] eqn:Hstep; [|done].
      destruct (run s1 es) as [[s2 o2]|] eqn:Hrun; [|done].
      intros [= <- _]. eapply IH; [by eapply step_Inv | | | done].
      + eapply step_keeps_occupant; [done | done | done |].
        intros ws -> Hme. cbn [step] in Hstep.
        destruct (isClient ws s) eqn:Hc; [|done].
        by apply (Horph ws (proj1 (isClient_elem ws s) Hc)).
      + by eapply step_orphaned. }
  destruct H as [Hheld' Horph']. split; [done |]. split; [done |].
  destruct Hheld' as (r' & Hg' & Hq'). split.
  - unfold Map_has. by rewrite Hg'.
  - rewrite assign_explicit. unfold isFree, roomOf. rewrite Hg'. simpl. by rewrite Hq'.
Qed.

Lemma twoSeats_orphan : orphaned ann twoSeats.
Proof.
  intros ws Hin Hme.
  repeat (apply elem_of_cons in Hin as [->|Hin]; [vm_compute in Hme; discriminate Hme |]).
  by apply elem_of_nil in Hin.
Qed.

Lemma orphaned_seat_is_permanent_witness :
  reachable twoSeats ∧ seatHeldBy twoSeats "r1" A ann ∧ orphaned ann twoSeats ∧
  ∃ s' out, run twoSeats [EClose 1; EReap] = Some (s', out) ∧ seatHeldBy s' "r1" A ann.
Proof.
  assert (Hheld : seatHeldBy twoSeats "r1" A ann) by (eexists; split; reflexivity).
  split; [exact twoSeats_reachable |]. split; [exact Hheld |].
  split; [exact twoSeats_orphan |].
  destruct (run twoSeats [EClose 1; EReap]) as [[s' out]|] eqn:Hrun;
    [|vm_compute in Hrun; discriminate Hrun].
  exists s', out. split; [reflexivity |].
  exact (proj1 (orphaned_seat_is_permanent twoSeats "r1" A ann _ s' out
                  twoSeats_reachable Hheld twoSeats_orphan Hrun)).
Defined.

(** X7. A connection that holds a seat and is granted another one keeps
    both: the second join records the new player on the connection and
    leaves the first seat occupied by a record that no connection owns any
    more; the first seat is still occupied after the close of the
    connection. *)
Theorem rejoin_orphans_previous_seat ws room0 seat0 name0 rnd s p1 seat :
  reachable s → ws ∈ clients s → meOf s ws = Some p1 →
  Js.trim room0 ≠ EmptyString →
  assign (Js.toUpperCase seat0) (roomOf s (Js.trim room0)) = Seated seat →
  let s' := (handleJoin ws room0 seat0 name0 rnd s).1 in
  let p2 := playerOf ws (Js.trim room0) seat name0 rnd in
  meOf s' ws = Some p2 ∧ p2 ≠ p1 ∧
  seatHeldBy s' (Js.trim room0) seat p2 ∧
  seatHeldBy s' (p_room p1) (p_seat p1) p1 ∧
  orphaned p1 s' ∧
  seatHeldBy (onClose ws s').1 (p_room p1) (p_seat p1) p1.
Proof.
  intros Hreach Hc Hme Hne Ha s' p2.
  pose proof (reachable_Inv s Hreach) as HI.
  assert (Hstep : step s (EMessage ws (MJoin room0 seat0 name0) rnd)
                  = Some (handleJoin ws room0 seat0 name0 rnd s)).
  { cbn [step onMessage]. by rewrite (proj2 (isClient_elem ws s) Hc). }
  destruct (handleJoin ws room0 seat0 name0 rnd s) as [s1 out] eqn:Hj.
  assert (Hreach' : reachable s1) by by eapply step_reachable.
  pose proof (reachable_Inv s1 Hreach') as HI'.
  subst s'. cbn [fst].
  destruct HI as (I1 & I2 & I3 & [_ Hsock] & _).
  destruct (I2 ws p1 Hc Hme) as (Hws1 & r1 & Hg1 & Hs1).
  assert (Hheld1 : seatHeldBy s (p_room p1) (p_seat p1) p1) by by exists r1.
  assert (Hclients : clients s1 = clients s).
  { destruct (handleJoin_state ws room0 seat0 name0 rnd s Hne) as (_ & Hcl & _).
    by rewrite Hj in Hcl. }
  assert (Hme2 : meOf s1 ws = Some p2).
  { pose proof (handleJoin_state ws room0 seat0 name0 rnd s Hne) as (_ & _ & _ & _ & _ & Hs).
    rewrite Hj, Ha in Hs. cbn [fst] in Hs. unfold meOf. rewrite Hs.
    rewrite meOf_setMe_cases, decide_True; [done |]. split; [done | by apply Hsock]. }
  assert (Hneq : p2 ≠ p1).
  { intros Heq. apply assign_Seated_free in Ha.
    assert (Hr : p_room p1 = Js.trim room0) by by rewrite <- Heq.
    assert (Hst : p_seat p1 = seat) by by rewrite <- Heq.
    unfold roomOf in Ha. rewrite <- Hr, Hg1, <- Hst in Ha. simpl in Ha. congruence. }
  assert (Hkeep : seatHeldBy s1 (p_room p1) (p_seat p1) p1).
  { eapply step_keeps_occupant; [| exact Hstep | exact Hheld1 | by intros ? [=]].
    by apply reachable_Inv. }
  assert (Horph : orphaned p1 s1).
  { intros c Hcin Hcme. rewrite Hclients in Hcin.
    destruct (decide (c = ws)) as [->|Hcne]; [congruence |].
    destruct HI' as (_ & I2' & _).
    destruct (I2' c p1) as (Hwsc & _); [by rewrite Hclients | done |]. congruence. }
  split; [done |]. split; [done |]. split.
  { destruct HI' as (_ & I2' & _).
    destruct (I2' ws p2) as (_ & r2 & Hg2 & Hs2); [by rewrite Hclients | done |].
    by exists r2. }
  split; [done |]. split; [done |].
  destruct (onClose ws s1) as [s2 out2] eqn:Hcl.
  eapply (step_keeps_occupant s1 (EClose ws) s2 out2); [done | | done |].
  - cbn [step]. rewrite (proj2 (isClient_elem ws s1)); [by rewrite Hcl |].
    by rewrite Hclients.
  - intros w [= <-]. congruence.
Qed.

Lemma rejoin_orphans_previous_seat_witness :
  reachable oneSeated ∧ 1 ∈ clients oneSeated ∧ meOf oneSeated 1 = Some ann ∧
  seatHeldBy (onClose 1 twoSeats).1 "r1" A ann.
Proof.
  assert (Hreach : reachable oneSeated).
  { exists [EConnection 1; EConnection 2; EConnection 3;
            EMessage 1 (MJoin "r1" "A" "Ann") rnd0].
    eexists. vm_compute. reflexivity. }
  assert (Hc : 1 ∈ clients oneSeated) by apply list_elem_of_here.
  assert (Hne : Js.trim "r1" ≠ EmptyString) by (vm_compute; discriminate).
  split; [exact Hreach |]. split; [exact Hc |]. split; [reflexivity |].
  exact (proj2 (proj2 (proj2 (proj2 (proj2
    (rejoin_orphans_previous_seat 1 "r1" "B" "Ann" (mkRandom [] "zzzzz") oneSeated ann B
       Hreach Hc eq_refl Hne eq_refl)))))).
Defined.

(** *** What a turn of the event loop writes *)

Lemma Some_pair_eq {X Y} (x : X * Y) a b : Some x = Some (a, b) → a = x.1 ∧ b = x.2.
Proof. by intros [= ->]. Qed.

Lemma elem_of_send_open s ws msg drop a :
  a ∈ send s ws msg drop →
  a = Send ws msg ∧ readyStateOf s ws = OPEN ∧
  (drop = true → (bufferedAmountOf s ws ≤ DROP_THRESHOLD)%Z).
Proof.
  unfold send. case_bool_decide as Ho; simpl; [|by intros ?%elem_of_nil].
  destruct drop; simpl.
  - destruct (Z.ltb_spec DROP_THRESHOLD (bufferedAmountOf s ws)); [by intros ?%elem_of_nil |].
    intros ->%list_elem_of_singleton. done.
  - intros ->%list_elem_of_singleton. done.
Qed.

Lemma elem_of_broadcastRoom_open s roomId a :
  a ∈ broadcastRoom s roomId →
  ∃ ws r, Map_get roomId (rooms s) = Some r ∧ ws ∈ members r ∧
          readyStateOf s ws = OPEN ∧ a = Send ws (Roster roomId (rosterOf r)).
Proof.
  unfold broadcastRoom. destruct (Map_get roomId (rooms s)) as [r|]; [|by intros ?%elem_of_nil].
  rewrite broadcast_sends. intros (ws & -> & Hin)%list_elem_of_fmap.
  apply list_elem_of_filter in Hin as [Ho Hin]. by exists ws, r.
Qed.

Lemma elem_of_sweep_out l acc a :
  a ∈ (foldl sweepSocket acc l).2 →
  a ∈ acc.2 ∨ ∃ w, w ∈ l ∧ (a = Ping w ∨ a = Terminate w).
Proof.
  revert acc. induction l as [|c l IH]; intros acc; cbn [foldl]; [by left |].
  intros [Hin|(w & Hw & Ha)]%IH.
  - destruct (sweepSocket_spec acc c) as [Heq _]. rewrite Heq in Hin.
    apply elem_of_app in Hin as [Hin|Hin]; [by left |]. right. exists c.
    split; [apply list_elem_of_here |].
    apply elem_of_sweepActions in Hin as (k & _ & [(_ & _ & ->)|(_ & ->)]); auto.
  - right. exists w. split; [by apply list_elem_of_further | done].
Qed.

(** the kind of every action of a turn, by the event that caused it *)
Lemma step_out s e s' out a :
  step s e = Some (s', out) → a ∈ out →
  match a with
  | Send w m =>
      readyStateOf s' w = OPEN ∧
      match m with
      | Hello => e = EConnection w
      | Created id => ∃ rnd, e = EMessage w MCreate rnd ∧ Map_has id (rooms s') = true
      | Joined _ _ _ _ | JoinedSpectator _ _ _ | Error _ =>
          ∃ room0 seat0 name0 rnd, e = EMessage w (MJoin room0 seat0 name0) rnd
      | Roster k _ =>
          (∃ ws room0 seat0 name0 rnd, e = EMessage ws (MJoin room0 seat0 name0) rnd) ∨
          (∃ ws, e = EClose ws)
      | Zones pl =>
          e = ETimeout w ∧ latestZones s !! w = Some pl ∧ out = [a] ∧
          latestZones s' !! w = None ∧ (bufferedAmountOf s w ≤ DROP_THRESHOLD)%Z
      end
  | Ping w | Terminate w => e = EHeartbeat ∧ w ∈ clients s
  end.
Proof.
  destruct e as [ws|ws msg rnd|ws|ws|ws n|to| |]; cbn [step].
  - destruct (sockets s !! ws); [done |]. intros [-> ->]%Some_pair_eq. unfold onConnection.
    cbn [fst snd]. intros (-> & Ho & _)%elem_of_send_open. done.
  - destruct (isClient ws s); [|done]. destruct msg as [| |room0 seat0 name0|z sq|ty]; cbn [onMessage].
    + intros [= <- <-]. by intros ?%elem_of_nil.
    + unfold handleCreate. destruct (createRoom rnd s) as [[id s1]|] eqn:Hc; [|done].
      intros [= <- <-]. intros (-> & Ho & _)%elem_of_send_open. split; [done |].
      exists rnd. split; [done |]. unfold createRoom in Hc.
      destruct (generateUniqueRoomId (rooms s) (randomBytes16 rnd)) as [i|]; [|done].
      injection Hc as <- <-. destruct (Map_has i (rooms s)) eqn:Hh; [done |].
      simpl. unfold Map_has. by rewrite Map_get_set_eq.
    + intros [-> ->]%Some_pair_eq. unfold handleJoin. cbv zeta.
      case_decide as Hne; cbn [fst snd].
      { intros (-> & Ho & _)%elem_of_send_open. split; [done |]. by exists room0, seat0, name0, rnd. }
      destruct (decideSeat _ _) as [seat|].
      * destruct (getSeat _ seat); cbn [fst snd].
        { intros (-> & Ho & _)%elem_of_send_open. split; [done |].
          by exists room0, seat0, name0, rnd. }
        intros [(-> & Ho & _)%elem_of_send_open|Hb]%elem_of_app.
        { split; [done |]. by exists room0, seat0, name0, rnd. }
        apply elem_of_broadcastRoom_open in Hb as (w & rm & _ & _ & Ho & ->).
        split; [done |]. left. by exists ws, room0, seat0, name0, rnd.
      * cbn [fst snd].
        intros [(-> & Ho & _)%elem_of_send_open|Hb]%elem_of_app.
        { split; [done |]. by exists room0, seat0, name0, rnd. }
        apply elem_of_broadcastRoom_open in Hb as (w & rm & _ & _ & Ho & ->).
        split; [done |]. left. by exists ws, room0, seat0, name0, rnd.
    + destruct (meOf s ws) as [p|]; [|intros [= <- <-]; by intros ?%elem_of_nil].
      unfold handleZones. destruct (Map_get (p_room p) (rooms s));
        intros [= <- <-]; by intros ?%elem_of_nil.
    + intros [= <- <-]. by intros ?%elem_of_nil.
  - destruct (isClient ws s); [|done]. intros [= <- <-]. by intros ?%elem_of_nil.
  - destruct (isClient ws s); [|done]. intros [-> ->]%Some_pair_eq.
    unfold onClose, closeHandler. destruct (meOf s ws) as [p|].
    + destruct (Map_get (p_room p) _); cbn [fst snd]; [|by intros ?%elem_of_nil].
      intros (w & rm & _ & _ & Ho & ->)%elem_of_broadcastRoom_open.
      split; [done |]. right. by exists ws.
    + destruct (leaveSpectators ws _) as [[id|] rs']; cbn [fst snd]; [|by intros ?%elem_of_nil].
      intros (w & rm & _ & _ & Ho & ->)%elem_of_broadcastRoom_open.
      split; [done |]. right. by exists ws.
  - destruct (isClient ws s); [|done]. intros [= <- <-]. by intros ?%elem_of_nil.
  - destruct (timerPending to s); [|done]. intros [-> ->]%Some_pair_eq.
    unfold flush. cbn [latestZones setTicking setTimers].
    destruct (latestZones s !! to) as [pl|] eqn:Hl; cbn [fst snd]; [|by intros ?%elem_of_nil].
    intros Hin. pose proof Hin as (-> & Ho & Hb)%elem_of_send_open.
    split; [done |]. split; [done |]. split; [done |]. split.
    + revert Hin. rewrite send_droppable. case_decide; [done | by intros ?%elem_of_nil].
    + split; [simpl; by rewrite lookup_delete_eq |]. by apply Hb.
  - intros [-> ->]%Some_pair_eq. unfold heartbeat.
    intros [?%elem_of_nil|(w & Hw & [-> | ->])]%elem_of_sweep_out; done.
  - intros [= <- <-]. by intros ?%elem_of_nil.
Qed.

(** X8. A zones message leaves the server only when the flush timer of its
    destination fires: it is then the only message of that turn, it carries
    the payload held in the destination's slot, the slot is empty
    afterwards, and the destination had no more than 256 KiB buffered.  No
    message handler, close handler or sweep ever writes a zones message. *)
Theorem zones_sent_only_by_flush s e s' out w pl :
  step s e = Some (s', out) → Send w (Zones pl) ∈ out →
  e = ETimeout w ∧ latestZones s !! w = Some pl ∧ out = [Send w (Zones pl)] ∧
  latestZones s' !! w = None ∧ (bufferedAmountOf s w ≤ 256 * 1024)%Z.
Proof.
  intros Hstep Hin. destruct (step_out s e s' out _ Hstep Hin) as (_ & H). exact H.
Qed.

Lemma zones_sent_only_by_flush_witness :
  latestZones pendingFlush !! 2 = Some (mkZones A "z1" None) ∧
  (flush 2 (setTimers (dropTimer 2) pendingFlush)).2 = [Send 2 (Zones (mkZones A "z1" None))].
Proof.
  pose proof (zones_sent_only_by_flush pendingFlush (ETimeout 2)
                (flush 2 (setTimers (dropTimer 2) pendingFlush)).1
                (flush 2 (setTimers (dropTimer 2) pendingFlush)).2
                2 (mkZones A "z1" None)) as H.
  destruct H as (_ & Hl & Hout & _).
  - vm_compute. reflexivity.
  - vm_compute. apply list_elem_of_here.
  - split; [exact Hl | exact Hout].
Defined.

(** X9. Nothing is ever written to a socket that is not open: every
    message of a turn of the event loop goes to a socket that is open when
    the turn ends, and the close of a connection writes nothing to the
    connection that closed. *)
Theorem sends_only_to_open_sockets s e s' out w m :
  step s e = Some (s', out) → Send w m ∈ out →
  readyStateOf s' w = OPEN ∧ e ≠ EClose w.
Proof.
  intros Hstep Hin. destruct (step_out s e s' out _ Hstep Hin) as (Ho & _).
  split; [done |]. intros ->. cbn [step] in Hstep.
  destruct (isClient w s); [|done]. apply Some_pair_eq in Hstep as [-> _].
  assert (Hc : readyStateOf (closeSocket w s) w = CLOSED).
  { unfold readyStateOf, closeSocket. simpl.
    destruct (sockets s !! w) as [k|] eqn:Hk; [by rewrite lookup_insert_eq | by rewrite Hk]. }
  assert (Hs : sockets (onClose w s).1 = sockets (closeSocket w s)).
  { unfold onClose, closeHandler. destruct (meOf s w) as [p|].
    - by destruct (Map_get (p_room p) _).
    - by destruct (leaveSpectators w _) as [[id|] rs']. }
  unfold readyStateOf in Ho, Hc. rewrite Hs in Ho. congruence.
Qed.

Lemma sends_only_to_open_sockets_witness :
  readyStateOf (onClose 3 fullRoom).1 1 = OPEN ∧ EClose 3 ≠ EClose 1.
Proof.
  apply (sends_only_to_open_sockets fullRoom (EClose 3) _ (onClose 3 fullRoom).2 1
           (Roster "r1" (rosterOf (roomOf fullRoom "r1")))).
  - vm_compute. reflexivity.
  - vm_compute. apply list_elem_of_here.
Defined.

(** X10. A reply goes to the connection that asked: the hello, created,
    joined and error messages of a turn are addressed to the socket whose
    connection or message event the turn handles, a created message names a
    room that is then in the registry, and pings and terminations come from
    the heartbeat sweep alone and only for connected sockets. *)
Theorem replies_go_to_requester s e s' out a :
  step s e = Some (s', out) → a ∈ out →
  match a with
  | Send w Hello => e = EConnection w
  | Send w (Created id) =>
      (∃ rnd, e = EMessage w MCreate rnd) ∧ Map_has id (rooms s') = true
  | Send w (Joined _ _ _ _) | Send w (JoinedSpectator _ _ _) | Send w (Error _) =>
      ∃ room0 seat0 name0 rnd, e = EMessage w (MJoin room0 seat0 name0) rnd
  | Send w (Roster _ _) =>
      (∃ ws room0 seat0 name0 rnd, e = EMessage ws (MJoin room0 seat0 name0) rnd) ∨
      (∃ ws, e = EClose ws)
  | Send w (Zones _) => e = ETimeout w
  | Ping w | Terminate w => e = EHeartbeat ∧ w ∈ clients s
  end.
Proof.
  intros Hstep Hin. pose proof (step_out s e s' out a Hstep Hin) as H.
  destruct a as [w m|w|w]; [|done..].
  destruct H as [_ H]. destruct m; try done.
  - destruct H as (rnd & -> & Hh). split; [by exists rnd | done].
  - by destruct H as (-> & _).
Qed.

Lemma replies_go_to_requester_witness :
  (∃ rnd, EMessage 3 MCreate (mkRandom [draw1] EmptyString) = EMessage 3 MCreate rnd) ∧
  Map_has (roomIdOf draw1) (rooms (setRooms (Map_set (roomIdOf draw1) emptyRoom) fullRoom))
  = true.
Proof.
  apply (replies_go_to_requester fullRoom
           (EMessage 3 MCreate (mkRandom [draw1] EmptyString))
           (setRooms (Map_set (roomIdOf draw1) emptyRoom) fullRoom)
           [Send 3 (Created (roomIdOf draw1))]
           (Send 3 (Created (roomIdOf draw1)))).
  - vm_compute. reflexivity.
  - apply list_elem_of_here.
Defined.

(** ** The scheduler over a run *)

Lemma dropTimer_subseteq to ts t : t ∈ dropTimer to ts → t ∈ ts.
Proof.
  induction ts as [|u ts IH]; simpl; [done |].
  destruct (decide (target u = to)).
  - by apply list_elem_of_further.
  - intros [->|Hin]%elem_of_cons; [apply list_elem_of_here |].
    by apply list_elem_of_further, IH.
Qed.

Lemma pushAll_timers payload targets s t :
  t ∈ timers (pushAll payload targets s) →
  t ∈ timers s ∨ (delay t = FLUSH_MS ∧ target t ∈ targets).
Proof.
  unfold pushAll. revert s. induction targets as [|d targets IH]; intros s; simpl; [by left |].
  intros [Hin|[Hd Ht]]%IH.
  - rewrite push_timers in Hin. case_decide; [by left |].
    apply elem_of_app in Hin as [Hin|Hin]; [by left |].
    apply list_elem_of_singleton in Hin as ->.
    right. split; [done |]. apply list_elem_of_here.
  - right. split; [done |]. by apply list_elem_of_further.
Qed.

Lemma step_scheduler s e s' out :
  step s e = Some (s', out) →
  schedulerOf s' = schedulerOf s ∨
  (∃ ws z sq rnd p room,
     e = EMessage ws (MZones z sq) rnd ∧ ws ∈ clients s ∧ meOf s ws = Some p ∧
     Map_get (p_room p) (rooms s) = Some room ∧
     s' = pushAll (mkZones (p_seat p) z sq) (relayTargets room p) s) ∨
  (∃ to, e = ETimeout to ∧ to ∈ map target (timers s) ∧
         latestZones s' = delete to (latestZones s) ∧
         ticking s' = ticking s ∖ {[to]} ∧
         timers s' = dropTimer to (timers s)).
Proof.
  destruct e as [ws|ws msg rnd|ws|ws|ws n|to| |]; cbn [step].
  - destruct (sockets s !! ws); [done |]. intros [-> _]%Some_pair_eq. by left.
  - destruct (isClient ws s) eqn:Hc; [|done]. apply isClient_elem in Hc.
    destruct msg as [| |room0 seat0 name0|z sq|ty]; cbn [onMessage].
    + intros [= <- _]. by left.
    + unfold handleCreate. destruct (createRoom rnd s) as [[id s1]|] eqn:Hcr; [|done].
      intros [= <- _]. apply createRoom_Some in Hcr as (_ & _ & ->). by left.
    + intros [-> _]%Some_pair_eq. left.
      destruct (decide (Js.trim room0 = EmptyString)) as [He|Hne].
      * by rewrite handleJoin_empty.
      * destruct (handleJoin_state ws room0 seat0 name0 rnd s Hne) as (_ & _ & Hl & Ht & Htm & _).
        unfold schedulerOf. by rewrite Hl, Ht, Htm.
    + destruct (meOf s ws) as [p|] eqn:Hme; [|intros [= <- _]; by left].
      intros [-> _]%Some_pair_eq. unfold handleZones.
      destruct (Map_get (p_room p) (rooms s)) as [room|] eqn:Hg; [|by left].
      right. left. by exists ws, z, sq, rnd, p, room.
    + intros [= <- _]. by left.
  - destruct (isClient ws s); [|done]. intros [= <- _]. left.
    unfold onPong. by destruct (sockets s !! ws).
  - destruct (isClient ws s); [|done]. intros [-> _]%Some_pair_eq. left.
    destruct (closeSocket_shape ws s) as (_ & _ & Hl & Ht & Htm & _).
    unfold onClose, closeHandler. destruct (meOf s ws) as [p|].
    + destruct (Map_get (p_room p) _); unfold schedulerOf; simpl; by rewrite ?Hl, ?Ht, ?Htm.
    + destruct (leaveSpectators ws _) as [[id|] rs']; unfold schedulerOf; simpl;
        by rewrite ?Hl, ?Ht, ?Htm.
  - destruct (isClient ws s); [|done]. intros [= <- _]. left.
    unfold setBuffered. by destruct (sockets s !! ws).
  - destruct (timerPending to s) eqn:Hp; [|done]. intros [-> _]%Some_pair_eq.
    right. right. exists to. split; [done |].
    split; [unfold timerPending in Hp; by apply bool_decide_eq_true in Hp |].
    unfold flush. cbn [latestZones setTicking setTimers].
    destruct (latestZones s !! to) as [pl|] eqn:Hl; cbn [fst]; [done |].
    simpl. by rewrite delete_id.
  - intros [-> _]%Some_pair_eq. left.
    destruct (heartbeat_keepsMe s) as (_ & _ & Hl & Ht & Htm & _).
    unfold schedulerOf. by rewrite Hl, Ht, Htm.
  - intros [= <- _]. by left.
Qed.

Lemma step_timersOk s e s' out : step s e = Some (s', out) → timersOk s → timersOk s'.
Proof.
  intros Hstep Hok t Hin.
  destruct (step_scheduler s e s' out Hstep)
    as [Heq|[(ws & z & sq & rnd & p & room & _ & _ & _ & _ & ->)|(to & _ & _ & _ & _ & Htm)]].
  - injection Heq as _ _ Htm. rewrite Htm in Hin. by apply Hok.
  - apply pushAll_timers in Hin as [Hin|[Hd _]]; [by apply Hok | done].
  - rewrite Htm in Hin. by apply Hok, (dropTimer_subseteq to).
Qed.

Lemma run_timersOk es s s' out : run s es = Some (s', out) → timersOk s → timersOk s'.
Proof.
  revert s out. induction es as [|e es IH]; intros s out; simpl.
  - by intros [= <- _].
  - destruct (step s e) as [[s1 o1]|] eqn:Hstep; [|done].
    destruct (run s1 es) as [[s2 o2]|] eqn:Hrun; [|done].
    intros [= <- _] Hok. eapply IH; [done |]. by eapply step_timersOk.
Qed.

Lemma reachable_timersOk s : reachable s → timersOk s.
Proof.
  intros (es & out & Hrun). eapply run_timersOk; [done |].
  by intros t ?%elem_of_nil.
Qed.

Lemma relayed_reachable : reachable relayed.
Proof. exists relayedTrace. eexists. vm_compute. reflexivity. Qed.

Lemma slot_flushable s d :
  Inv s → d ∈ ticking s →
  ∃ s' out, step s (ETimeout d) = Some (s', out) ∧
            latestZones s' !! d = None ∧ (d ∉ ticking s') ∧ timerPending d s' = false ∧
            out = match latestZones s !! d with
                  | Some pl => send s d (Zones pl) true
                  | None => []
                  end.
Proof.
  intros (_ & _ & _ & _ & [Hnd Htick] & _) Hd.
  assert (Hp : timerPending d s = true).
  { unfold timerPending. apply bool_decide_eq_true. by apply Htick. }
  destruct (flush d (setTimers (dropTimer d) s)) as [s' out] eqn:Hf.
  assert (Hstep : step s (ETimeout d) = Some (s', out)).
  { cbn [step]. by rewrite Hp, Hf. }
  exists s', out. split; [done |].
  destruct (step_scheduler s (ETimeout d) s' out Hstep)
    as [Heq|[(ws & z & sq & rnd & p & room & [=] & _)|(to & [= <-] & _ & Hl & Ht & Htm)]].
  - exfalso. injection Heq as _ Ht _. unfold flush in Hf. simpl in Hf.
    assert (Ht' : ticking s' = ticking s ∖ {[d]}).
    { destruct (latestZones s !! d); by injection Hf as <- _. }
    rewrite Ht' in Ht. set_solver.
  - split; [by rewrite Hl, lookup_delete_eq |]. split; [rewrite Ht; set_solver |].
    split.
    + unfold timerPending. apply bool_decide_eq_false. rewrite Htm.
      intros Hin. apply dropTimer_targets in Hin as [_ Hne]; done.
    + unfold flush in Hf. cbn [latestZones setTicking setTimers] in Hf.
      destruct (latestZones s !! d); by injection Hf as _ <-.
Qed.

(** X11. The coalescing scheduler stays bounded over every run: there is at
    most one pending timer for a destination, every timer was set for 33
    ms, a destination is flagged as ticking exactly when its timer is
    pending, and a stored payload always has its flush scheduled, so the
    timer of its destination can fire and leaves the slot empty. *)
Theorem scheduler_invariant s :
  reachable s →
  NoDup (map target (timers s)) ∧
  (∀ t, t ∈ timers s → delay t = 33%Z) ∧
  (∀ d, d ∈ ticking s ↔ d ∈ map target (timers s)) ∧
  (∀ d, is_Some (latestZones s !! d) → d ∈ ticking s) ∧
  (∀ d, is_Some (latestZones s !! d) →
        ∃ s' out, step s (ETimeout d) = Some (s', out) ∧
                  latestZones s' !! d = None ∧ (d ∉ ticking s') ∧
                  timerPending d s' = false).
Proof.
  intros Hreach. pose proof (reachable_Inv s Hreach) as HI.
  pose proof HI as (_ & _ & _ & _ & [Hnd Htick] & Hslots).
  split; [done |]. split; [apply (reachable_timersOk s Hreach) |].
  split; [done |]. split; [done |].
  intros d Hd. destruct (slot_flushable s d HI (Hslots d Hd)) as (s' & out & H1 & H2 & H3 & H4 & _).
  by exists s', out.
Qed.

Lemma scheduler_invariant_witness :
  reachable relayed ∧ NoDup (map target (timers relayed)) ∧
  ∀ t, t ∈ timers relayed → delay t = 33%Z.
Proof.
  split; [exact relayed_reachable |].
  destruct (scheduler_invariant relayed relayed_reachable) as (Hnd & Hd & _).
  split; [exact Hnd | exact Hd].
Defined.

(** X12. The scheduler (slots, ticking flags and timers) is changed by two
    kinds of turn only: a zones message of a connection that has a player
    record, which pushes the payload to its relay targets, and the firing of
    a flush timer, which removes that timer, clears the flag and empties the
    slot of its destination.  Connections, joins, creates, pongs, closes,
    the heartbeat and the reaper leave it as it is. *)
Theorem scheduler_changes_only_by_zones_and_timers s e s' out :
  step s e = Some (s', out) →
  schedulerOf s' = schedulerOf s ∨
  (∃ ws z sq rnd p room,
     e = EMessage ws (MZones z sq) rnd ∧ ws ∈ clients s ∧ meOf s ws = Some p ∧
     Map_get (p_room p) (rooms s) = Some room ∧
     s' = pushAll (mkZones (p_seat p) z sq) (relayTargets room p) s) ∨
  (∃ to, e = ETimeout to ∧ to ∈ map target (timers s) ∧
         latestZones s' = delete to (latestZones s) ∧
         ticking s' = ticking s ∖ {[to]} ∧
         timers s' = dropTimer to (timers s)).
Proof. apply step_scheduler. Qed.

Lemma scheduler_changes_only_by_zones_and_timers_witness :
  schedulerOf (onClose 2 relayed).1 = schedulerOf relayed.
Proof.
  destruct (scheduler_changes_only_by_zones_and_timers relayed (EClose 2)
              (onClose 2 relayed).1 (onClose 2 relayed).2)
    as [H|[(? & ? & ? & ? & ? & ? & [=] & _)|(? & [=] & _)]].
  - vm_compute. reflexivity.
  - exact H.
Defined.

(** X13. Closing a connection does not cancel its pending flush: the
    scheduler is the same after the close handler, the timer of the closed
    socket still fires, and when it does nothing is written and the slot
    and the flag of the socket are cleared. *)
Theorem close_leaves_flush_pending s ws :
  reachable s → ws ∈ clients s →
  let s1 := (onClose ws s).1 in
  schedulerOf s1 = schedulerOf s ∧
  (ws ∈ ticking s →
   ∃ s2, step s1 (ETimeout ws) = Some (s2, []) ∧
         latestZones s2 !! ws = None ∧ (ws ∉ ticking s2) ∧ timerPending ws s2 = false).
Proof.
  intros Hreach Hc s1.
  assert (Hstep : step s (EClose ws) = Some (onClose ws s)).
  { cbn [step]. by rewrite (proj2 (isClient_elem ws s) Hc). }
  assert (Hsched : schedulerOf s1 = schedulerOf s).
  { destruct (step_scheduler s (EClose ws) s1 (onClose ws s).2)
      as [H|[(? & ? & ? & ? & ? & ? & [=] & _)|(? & [=] & _)]]; [|done].
    rewrite Hstep. by destruct (onClose ws s). }
  split; [done |]. intros Ht.
  assert (HI1 : Inv s1).
  { apply onClose_Inv; [done | by apply reachable_Inv]. }
  assert (Ht1 : ws ∈ ticking s1).
  { injection Hsched as _ Hti _. by rewrite Hti. }
  destruct (slot_flushable s1 ws HI1 Ht1) as (s2 & out & Hs2 & Hl & Hnt & Hp & Hout).
  exists s2. split; [|done]. rewrite Hs2. do 2 f_equal. rewrite Hout.
  destruct (latestZones s1 !! ws); [|done]. apply send_not_open.
  assert (Hcl : readyStateOf s1 ws = CLOSED); [|by rewrite Hcl].
  destruct (closeSocket_shape ws s) as (_ & _ & _ & _ & _ & _ & _ & Hrs).
  assert (Hs : sockets s1 = sockets (closeSocket ws s)).
  { unfold s1, onClose, closeHandler. destruct (meOf s ws) as [p|].
    - by destruct (Map_get (p_room p) _).
    - by destruct (leaveSpectators ws _) as [[id|] rs']. }
  specialize (Hrs ws). rewrite decide_True in Hrs by done.
  unfold readyStateOf in *. by rewrite Hs.
Qed.

Lemma close_leaves_flush_pending_witness :
  reachable relayed ∧ 2 ∈ clients relayed ∧ 2 ∈ ticking relayed ∧
  ∃ s2, step (onClose 2 relayed).1 (ETimeout 2) = Some (s2, []).
Proof.
  assert (Hc : 2 ∈ clients relayed) by (apply list_elem_of_further, list_elem_of_here).
  assert (Ht : 2 ∈ ticking relayed) by (vm_compute; reflexivity).
  split; [exact relayed_reachable |]. split; [exact Hc |]. split; [exact Ht |].
  destruct (proj2 (close_leaves_flush_pending relayed 2 relayed_reachable Hc) Ht)
    as (s2 & Hs2 & _).
  exists s2. exact Hs2.
Defined.

(** ** Sockets over a turn of the event loop *)

Lemma setMe_lookup ws p m c k :
  m !! c = Some k →
  ∃ k', setMe ws p m !! c = Some k' ∧ readyState k' = readyState k ∧
        bufferedAmount k' = bufferedAmount k ∧ isAlive k' = isAlive k.
Proof.
  intros Hk. unfold setMe. destruct (m !! ws) as [k0|] eqn:H0; [|by exists k].
  destruct (decide (c = ws)) as [->|Hne].
  - rewrite lookup_insert_eq. eexists. split; [done |]. simpl.
    assert (k0 = k) as -> by congruence. done.
  - rewrite lookup_insert_ne by done. by exists k.
Qed.

Lemma closeHandler_sockets ws mine s : sockets (closeHandler ws mine s).1 = sockets s.
Proof.
  unfold closeHandler. destruct mine as [p|].
  - by destruct (Map_get (p_room p) _).
  - by destruct (leaveSpectators ws _) as [[id|] rs'].
Qed.

(** a socket the server has seen stays known, and only the sweep clears
    its liveness flag *)
Lemma step_socket s e s' out c k :
  step s e = Some (s', out) → sockets s !! c = Some k →
  ∃ k', sockets s' !! c = Some k' ∧
        (e ≠ EHeartbeat → isAlive k = true → isAlive k' = true) ∧
        (e = EPong c → isAlive k' = true).
Proof.
  intros Hstep Hk.
  destruct e as [ws|ws msg rnd|ws|ws|ws n|to| |]; cbn [step] in Hstep.
  - destruct (sockets s !! ws) eqn:Hws; [done |]. apply Some_pair_eq in Hstep as [-> _].
    exists k. simpl. rewrite lookup_insert_ne by congruence. done.
  - destruct (isClient ws s); [|done].
    destruct msg as [| |room0 seat0 name0|z sq|ty]; cbn [onMessage] in Hstep.
    + injection Hstep as <- _. by exists k.
    + unfold handleCreate in Hstep. destruct (createRoom rnd s) as [[id s1]|] eqn:Hcr; [|done].
      injection Hstep as <- _. apply createRoom_Some in Hcr as (_ & _ & ->). by exists k.
    + apply Some_pair_eq in Hstep as [-> _].
      destruct (decide (Js.trim room0 = EmptyString)) as [He|Hne].
      { rewrite handleJoin_empty by done. by exists k. }
      destruct (handleJoin_state ws room0 seat0 name0 rnd s Hne) as (_ & _ & _ & _ & _ & ->).
      destruct (assign _ _) as [seat| |seat]; [|by exists k..].
      destruct (setMe_lookup ws (playerOf ws (Js.trim room0) seat name0 rnd) _ c k Hk)
        as (k' & Hk' & _ & _ & Ha).
      exists k'. rewrite Ha. done.
    + destruct (meOf s ws) as [p|]; [|injection Hstep as <- _; by exists k].
      apply Some_pair_eq in Hstep as [-> _].
      destruct (handleZones_frame p z sq s) as (_ & -> & _). by exists k.
    + injection Hstep as <- _. by exists k.
  - destruct (isClient ws s); [|done]. injection Hstep as <- _.
    unfold onPong. destruct (sockets s !! ws) as [k0|] eqn:Hws; [|by exists k; rewrite Hk; repeat split; [|intros [= ->]; congruence]].
    simpl. destruct (decide (c = ws)) as [->|Hne].
    + rewrite lookup_insert_eq. eexists. by split.
    + rewrite lookup_insert_ne by done. exists k. split; [done |]. split; [done |].
      intros [= ->]. done.
  - destruct (isClient ws s); [|done]. apply Some_pair_eq in Hstep as [-> _].
    unfold onClose. rewrite closeHandler_sockets. unfold closeSocket. simpl.
    destruct (sockets s !! ws) as [k0|] eqn:Hws; [|by exists k].
    destruct (decide (c = ws)) as [->|Hne].
    + rewrite lookup_insert_eq. eexists. split; [done |]. simpl.
      assert (k0 = k) as -> by congruence. done.
    + rewrite lookup_insert_ne by done. by exists k.
  - destruct (isClient ws s); [|done]. injection Hstep as <- _.
    unfold setBuffered. destruct (sockets s !! ws) as [k0|] eqn:Hws; [|by exists k].
    simpl. destruct (decide (c = ws)) as [->|Hne].
    + rewrite lookup_insert_eq. eexists. split; [done |]. simpl.
      assert (k0 = k) as -> by congruence. done.
    + rewrite lookup_insert_ne by done. by exists k.
  - destruct (timerPending to s); [|done]. apply Some_pair_eq in Hstep as [-> _].
    destruct (flush_shape to (setTimers (dropTimer to) s)) as (_ & -> & _). by exists k.
  - apply Some_pair_eq in Hstep as [-> _].
    destruct (heartbeat_keepsMe s) as (_ & _ & _ & _ & _ & _ & Hs).
    destruct (Hs c) as [k' Hk']; [by exists k |]. exists k'. done.
  - injection Hstep as <- _. by exists k.
Qed.

Lemma step_known s e s' out c : step s e = Some (s', out) → known s c → known s' c.
Proof.
  intros Hstep [k Hk]. destruct (step_socket s e s' out c k Hstep Hk) as (k' & Hk' & _).
  by exists k'.
Qed.

(** X14. A socket is terminated only by a heartbeat sweep that finds its
    liveness flag cleared, and the flag is cleared by the sweep alone: no
    other turn of the event loop turns a confirmed socket into an
    unconfirmed one, and a pong of the socket, like its connection,
    confirms it. *)
Theorem terminated_only_when_unconfirmed s e s' out ws :
  reachable s → step s e = Some (s', out) →
  (Terminate ws ∈ out →
   e = EHeartbeat ∧ ws ∈ clients s ∧ ∃ k, sockets s !! ws = Some k ∧ isAlive k = false) ∧
  (∀ k, sockets s !! ws = Some k → isAlive k = true → e ≠ EHeartbeat →
        ∃ k', sockets s' !! ws = Some k' ∧ isAlive k' = true) ∧
  (e = EPong ws → ∃ k', sockets s' !! ws = Some k' ∧ isAlive k' = true) ∧
  (e = EConnection ws → ∃ k', sockets s' !! ws = Some k' ∧ isAlive k' = true).
Proof.
  intros Hreach Hstep. pose proof (reachable_Inv s Hreach) as (_ & _ & _ & [Hnd Hsock] & _).
  split; [|split; [|split]].
  - intros Hin. destruct (step_out s e s' out _ Hstep Hin) as [-> Hc].
    split; [done |]. split; [done |].
    cbn [step] in Hstep. apply Some_pair_eq in Hstep as [_ ->].
    destruct (heartbeat_spec s Hnd) as [Hout _]. rewrite Hout in Hin.
    apply elem_of_sweep in Hin as (c & _ & Hin).
    apply elem_of_sweepActions in Hin as (k & Hk & [(_ & _ & [=])|(Ha & [= <-])]).
    by exists k.
  - intros k Hk Ha He. destruct (step_socket s e s' out ws k Hstep Hk) as (k' & Hk' & H1 & _).
    exists k'. split; [done |]. by apply H1.
  - intros ->. cbn [step] in Hstep. destruct (isClient ws s) eqn:Hc; [|done].
    apply isClient_elem in Hc. destruct (Hsock ws Hc) as [k Hk].
    destruct (step_socket s (EPong ws) s' out ws k) as (k' & Hk' & _ & H2).
    { cbn [step]. by rewrite (proj2 (isClient_elem ws s) Hc). }
    { done. }
    exists k'. split; [done |]. by apply H2.
  - intros ->. cbn [step] in Hstep. destruct (sockets s !! ws); [done |].
    apply Some_pair_eq in Hstep as [-> _]. simpl. rewrite lookup_insert_eq. by eexists.
Qed.

Lemma terminated_only_when_unconfirmed_witness :
  reachable fullRoom ∧
  ∃ k', sockets (onPong 1 fullRoom) !! 1 = Some k' ∧ isAlive k' = true.
Proof.
  split; [exact fullRoom_reachable |].
  exact (proj1 (proj2 (proj2 (terminated_only_when_unconfirmed fullRoom (EPong 1)
           (onPong 1 fullRoom) [] 1 fullRoom_reachable eq_refl))) eq_refl).
Defined.

(** ** Spectators *)

Lemma leaveSpectators_none ws rs :
  (∀ kv : string * Room, kv ∈ rs → ws ∉ spectatorList kv.2) → leaveSpectators ws rs = (None, rs).
Proof.
  induction rs as [|[id r] rs IH]; intros Hno; simpl; [done |].
  unfold Set_has. rewrite bool_decide_eq_false_2.
  - rewrite IH; [done |]. intros kv Hkv. by apply Hno, list_elem_of_further.
  - apply (Hno (id, r)), list_elem_of_here.
Qed.

Lemma leaveSpectators_split ws pre k r post :
  (∀ kv : string * Room, kv ∈ pre → ws ∉ spectatorList kv.2) → ws ∈ spectatorList r →
  leaveSpectators ws (pre ++ (k, r) :: post)
  = (Some k, pre ++ (k, spectatorsWithout ws r) :: post).
Proof.
  intros Hno Hin. induction pre as [|[id r0] pre IH]; simpl.
  - unfold Set_has. by rewrite bool_decide_eq_true_2.
  - unfold Set_has. rewrite bool_decide_eq_false_2.
    + rewrite IH; [done |]. intros kv Hkv. by apply Hno, list_elem_of_further.
    + apply (Hno (id, r0)), list_elem_of_here.
Qed.

Lemma leaveSpectators_lookup ws rs k r :
  Map_get k rs = Some r →
  Map_get k (leaveSpectators ws rs).2 = Some r ∨
  (ws ∈ spectatorList r ∧ Map_get k (leaveSpectators ws rs).2 = Some (spectatorsWithout ws r)).
Proof.
  induction rs as [|[id r0] rs IH]; simpl; [done |].
  unfold Set_has. case_bool_decide as Hin; simpl.
  - destruct (decide (k = id)) as [->|Hne]; [|by left].
    intros [= ->]. right. done.
  - destruct (leaveSpectators ws rs) as [found rest'] eqn:Hl. simpl.
    destruct (decide (k = id)) as [->|Hne]; [by left |]. apply IH.
Qed.

Lemma spectatorsWithout_seat ws r seat : getSeat (spectatorsWithout ws r) seat = getSeat r seat.
Proof. unfold spectatorsWithout. by destruct seat. Qed.

Lemma spectatorsWithout_list ws r :
  spectatorList (spectatorsWithout ws r) = Set_delete ws (spectatorList r).
Proof.
  unfold spectatorsWithout, spectatorList at 1. simpl.
  by destruct (Set_delete ws (spectatorList r)).
Qed.

Lemma Map_get_middle {V} (pre : list (string * V)) k v post :
  k ∉ Map_keys pre → Map_get k (pre ++ (k, v) :: post) = Some v.
Proof.
  induction pre as [|[k' v'] pre IH]; simpl; intros Hk.
  - by rewrite decide_True.
  - rewrite decide_False.
    + apply IH. intros Hin. apply Hk. by apply list_elem_of_further.
    + intros ->. apply Hk. apply list_elem_of_here.
Qed.

(** X15. The close of a connection without a player record takes it out of
    the first room, in the order of the registry, that has it among its
    spectators, and out of that room only: the rooms before and after are
    as they were (a socket watching two rooms stays a spectator of the
    second), the seats of the room are untouched, a spectator set left
    empty is removed from the room, and the roster is broadcast to the open
    members that remain.  If no room has the socket among its spectators,
    the registry is unchanged and nothing is sent. *)
Theorem spectator_close_leaves_first_room_only s ws :
  reachable s → meOf s ws = None →
  let res := onClose ws s in
  ((∀ kv : string * Room, kv ∈ rooms s → ws ∉ spectatorList kv.2) →
     rooms res.1 = rooms s ∧ res.2 = []) ∧
  (∀ pre k r post,
     rooms s = pre ++ (k, r) :: post →
     (∀ kv : string * Room, kv ∈ pre → ws ∉ spectatorList kv.2) → ws ∈ spectatorList r →
     rooms res.1 = pre ++ (k, spectatorsWithout ws r) :: post ∧
     res.2 = map (λ w, Send w (Roster k (rosterOf r)))
               (filter (λ w, readyStateOf res.1 w = OPEN)
                  (members (spectatorsWithout ws r))) ∧
     (∀ seat, getSeat (spectatorsWithout ws r) seat = getSeat r seat) ∧
     (∀ w, w ∈ spectatorList (spectatorsWithout ws r) ↔ w ≠ ws ∧ w ∈ spectatorList r) ∧
     (spectators (spectatorsWithout ws r) = None ↔ ∀ w, w ∈ spectatorList r → w = ws)).
Proof.
  intros Hreach Hme res. pose proof (reachable_Inv s Hreach) as (_ & _ & Hnd & _).
  destruct (closeSocket_shape ws s) as (Hr & _).
  assert (Hres : res = closeHandler ws None (closeSocket ws s)).
  { unfold res, onClose. by rewrite Hme. }
  split.
  - intros Hno. rewrite Hres. unfold closeHandler. rewrite Hr.
    by rewrite (leaveSpectators_none ws (rooms s) Hno).
  - intros pre k r post Hrooms Hno Hin.
    assert (Hk : k ∉ Map_keys pre).
    { unfold keysUnique, Map_keys in Hnd. rewrite Hrooms, fmap_app in Hnd.
      apply NoDup_app in Hnd as (_ & Hd & _). intros Hk. apply (Hd k Hk).
      simpl. apply list_elem_of_here. }
    assert (Hres' : res = (setRooms (λ _, pre ++ (k, spectatorsWithout ws r) :: post)
                             (closeSocket ws s),
                           broadcastRoom
                             (setRooms (λ _, pre ++ (k, spectatorsWithout ws r) :: post)
                                (closeSocket ws s)) k)).
    { rewrite Hres. unfold closeHandler. rewrite Hr, Hrooms.
      by rewrite (leaveSpectators_split ws pre k r post Hno Hin). }
    split; [by rewrite Hres' |]. split.
    { rewrite Hres'. cbn [fst snd].
      rewrite (broadcastRoom_Some _ k (spectatorsWithout ws r)); [done |].
      simpl. by apply Map_get_middle. }
    split; [intros seat; apply spectatorsWithout_seat |]. split.
    { intros w. rewrite spectatorsWithout_list. apply elem_of_Set_delete. }
    unfold spectatorsWithout. simpl.
    destruct (Set_delete ws (spectatorList r)) as [|w0 l] eqn:Hd; split.
    + intros _ w Hw. destruct (decide (w = ws)) as [|Hne]; [done |].
      assert (Hw' : w ∈ Set_delete ws (spectatorList r)) by by apply elem_of_Set_delete.
      rewrite Hd in Hw'. by apply elem_of_nil in Hw'.
    + done.
    + done.
    + intros Hall. assert (Hw0 : w0 ∈ Set_delete ws (spectatorList r)).
      { rewrite Hd. apply list_elem_of_here. }
      apply elem_of_Set_delete in Hw0 as [Hne Hw0]. by destruct Hne; apply Hall.
Qed.

Lemma twoRooms_reachable : reachable twoRooms.
Proof. exists twoRoomsTrace. eexists. vm_compute. reflexivity. Qed.

Lemma spectator_close_leaves_first_room_only_witness :
  reachable twoRooms ∧ meOf twoRooms 3 = None ∧
  Map_get "r1" (rooms (onClose 3 twoRooms).1)
  = Some (spectatorsWithout 3 (roomOf twoRooms "r1")) ∧
  Map_get "r2" (rooms (onClose 3 twoRooms).1) = Some (roomOf twoRooms "r2").
Proof.
  assert (Hme : meOf twoRooms 3 = None) by reflexivity.
  split; [exact twoRooms_reachable |]. split; [exact Hme |].
  destruct (proj2 (spectator_close_leaves_first_room_only twoRooms 3 twoRooms_reachable Hme)
              [] "r1" (roomOf twoRooms "r1") [("r2", roomOf twoRooms "r2")])
    as (Hrooms & _).
  - vm_compute. reflexivity.
  - by intros kv ?%elem_of_nil.
  - vm_compute. apply list_elem_of_here.
  - rewrite Hrooms. split; reflexivity.
Defined.

Lemma joinedRoom_spectator ws roomId requested name0 rnd room w :
  w ∈ spectatorList room → w ∈ spectatorList (joinedRoom ws roomId requested name0 rnd room).
Proof.
  intros Hw. unfold joinedRoom. destruct (assign requested room) as [st| |st]; [| |done].
  - by destruct st.
  - unfold spectatorList at 1. simpl. apply elem_of_Set_add. by right.
Qed.

Lemma step_keeps_spectator s e s' out k r w :
  Inv s → step s e = Some (s', out) →
  Map_get k (rooms s) = Some r → w ∈ spectatorList r →
  (e = EClose w → meOf s w ≠ None) →
  ∃ r', Map_get k (rooms s') = Some r' ∧ w ∈ spectatorList r'.
Proof.
  intros HI Hstep Hg Hw Hclose. pose proof HI as (_ & _ & Hnd & _).
  destruct e as [ws|ws msg rnd|ws|ws|ws n|to| |]; cbn [step] in Hstep.
  - destruct (sockets s !! ws); [done |]. apply Some_pair_eq in Hstep as [-> _]. by exists r.
  - destruct (isClient ws s); [|done].
    destruct msg as [| |room0 seat0 name0|z sq|ty]; cbn [onMessage] in Hstep.
    + injection Hstep as <- _. by exists r.
    + unfold handleCreate in Hstep. destruct (createRoom rnd s) as [[id s1]|] eqn:Hcr; [|done].
      injection Hstep as <- _. apply createRoom_Some in Hcr as (_ & Hfresh & ->).
      exists r. split; [|done]. simpl. rewrite Map_get_set_ne; [done |].
      intros ->. unfold Map_has in Hfresh. by rewrite Hg in Hfresh.
    + apply Some_pair_eq in Hstep as [-> _].
      destruct (decide (Js.trim room0 = EmptyString)) as [He|Hne].
      { rewrite handleJoin_empty by done. by exists r. }
      destruct (handleJoin_state ws room0 seat0 name0 rnd s Hne) as (-> & _).
      destruct (decide (Js.trim room0 = k)) as [->|Hk].
      * rewrite Map_get_set_eq. eexists. split; [done |].
        apply joinedRoom_spectator. unfold roomOf. by rewrite Hg.
      * rewrite Map_get_set_ne by done. by exists r.
    + destruct (meOf s ws) as [p|]; [|injection Hstep as <- _; by exists r].
      apply Some_pair_eq in Hstep as [-> _].
      destruct (handleZones_frame p z sq s) as (-> & _). by exists r.
    + injection Hstep as <- _. by exists r.
  - destruct (isClient ws s); [|done]. injection Hstep as <- _.
    exists r. split; [|done]. unfold onPong. by destruct (sockets s !! ws).
  - destruct (isClient ws s); [|done]. apply Some_pair_eq in Hstep as [-> _].
    destruct (closeSocket_shape ws s) as (Hr & _).
    unfold onClose, closeHandler. destruct (meOf s ws) as [p|] eqn:Hme.
    + rewrite Hr. destruct (Map_get (p_room p) (rooms s)) as [room|] eqn:Hroom;
        cbn [fst]; [|rewrite Hr; by exists r].
      simpl. destruct (decide (p_room p = k)) as [Hk|Hk].
      * rewrite Hk. rewrite Map_get_set_eq. eexists. split; [done |].
        unfold spectatorList. rewrite vacate_spectators.
        rewrite Hk in Hroom. by assert (room = r) as -> by congruence.
      * rewrite Map_get_set_ne by done. by exists r.
    + assert (Hne : w ≠ ws) by (intros ->; by apply Hclose).
      rewrite Hr. pose proof (leaveSpectators_lookup ws (rooms s) k r Hg) as Hl.
      destruct (leaveSpectators ws (rooms s)) as [[id|] rs'] eqn:Hls; cbn [fst];
        [|rewrite Hr; by exists r].
      simpl in *. destruct Hl as [Hl|[_ Hl]]; [by exists r |].
      eexists. split; [done |]. rewrite spectatorsWithout_list.
      by apply elem_of_Set_delete.
  - destruct (isClient ws s); [|done]. injection Hstep as <- _.
    exists r. split; [|done]. unfold setBuffered. by destruct (sockets s !! ws).
  - destruct (timerPending to s); [|done]. apply Some_pair_eq in Hstep as [-> _].
    destruct (flush_shape to (setTimers (dropTimer to) s)) as (-> & _). by exists r.
  - apply Some_pair_eq in Hstep as [-> _].
    destruct (heartbeat_keepsMe s) as (-> & _). by exists r.
  - injection Hstep as <- _. exists r. split; [|done].
    rewrite reap_lookup, Hg by done.
    assert (Hlive : isLive r = true); [|by rewrite Hlive].
    unfold isLive. apply orb_true_iff. right. apply hasSpectators_true.
    intros Hnil. rewrite Hnil in Hw. by apply elem_of_nil in Hw.
Qed.

(** X16. A connection that holds a seat is never taken out of a spectator
    set: the close handler of a connection with a player record does not
    visit the spectator sets, so a socket that joined a seat and also
    joined as a spectator stays among the spectators of that room for every
    continuation of the run, also after it has closed, and the room is
    never reaped. *)
Theorem seated_spectator_never_leaves s ws p k r es s' out :
  reachable s → ws ∈ clients s → meOf s ws = Some p →
  Map_get k (rooms s) = Some r → ws ∈ spectatorList r →
  run s es = Some (s', out) →
  ∃ r', Map_get k (rooms s') = Some r' ∧ ws ∈ spectatorList r' ∧ isLive r' = true.
Proof.
  intros Hreach Hc Hme Hg Hw Hrun.
  pose proof (reachable_Inv s Hreach) as HI.
  assert (Hk : known s ws) by (destruct HI as (_ & _ & _ & [_ Hs] & _); by apply Hs).
  assert (Hm : ws ∈ clients s → meOf s ws ≠ None) by (intros _; by rewrite Hme).
  clear Hreach Hc Hme p.
  assert (H : ∃ r', Map_get k (rooms s') = Some r' ∧ ws ∈ spectatorList r').
  { revert s out r HI Hk Hm Hg Hw Hrun.
    induction es as [|e es IH]; intros s out r HI Hk Hm Hg Hw; simpl.
    - intros [= <- _]. by exists r.
    - destruct (step s e) as [[s1 o1]|] eqn:Hstep; [|done].
      destruct (run s1 es) as [[s2 o2]|] eqn:Hrun; [|done]. intros [= <- _].
      destruct (step_keeps_spectator s e s1 o1 k r ws HI Hstep Hg Hw) as (r1 & Hg1 & Hw1).
      { intros ->. apply Hm. cbn [step] in Hstep.
        destruct (isClient ws s) eqn:Hc; [by apply isClient_elem | done]. }
      eapply (IH s1 o2 r1); [by eapply step_Inv | by eapply step_known | | done | done | done].
      intros Hc1.
      destruct (step_me s e s1 o1 ws HI Hstep Hc1)
        as [[Hc0 ->]|[[-> _]|(? & ? & ? & ? & ? & _ & _ & _ & _ & ->)]]; [by apply Hm | | done].
      exfalso. cbn [step] in Hstep. destruct Hk as [k0 Hk0]. by rewrite Hk0 in Hstep. }
  destruct H as (r' & Hg' & Hw'). exists r'. split; [done |]. split; [done |].
  unfold isLive. apply orb_true_iff. right. apply hasSpectators_true.
  intros Hnil. rewrite Hnil in Hw'. by apply elem_of_nil in Hw'.
Qed.

Lemma seatedSpectator_reachable : reachable seatedSpectator.
Proof. exists seatedSpectatorTrace. eexists. vm_compute. reflexivity. Qed.

Lemma seated_spectator_never_leaves_witness :
  reachable seatedSpectator ∧ 1 ∈ clients seatedSpectator ∧
  meOf seatedSpectator 1 = Some ann ∧
  ∃ s' out r', run seatedSpectator [EClose 1; EReap] = Some (s', out) ∧
               Map_get "r1" (rooms s') = Some r' ∧ 1 ∈ spectatorList r'.
Proof.
  assert (Hc : 1 ∈ clients seatedSpectator) by apply list_elem_of_here.
  assert (Hme : meOf seatedSpectator 1 = Some ann) by reflexivity.
  assert (Hw : 1 ∈ spectatorList (roomOf seatedSpectator "r1"))
    by (vm_compute; apply list_elem_of_here).
  split; [exact seatedSpectator_reachable |]. split; [exact Hc |]. split; [exact Hme |].
  destruct (run seatedSpectator [EClose 1; EReap]) as [[s' out]|] eqn:Hrun;
    [|vm_compute in Hrun; discriminate Hrun].
  destruct (seated_spectator_never_leaves seatedSpectator 1 ann "r1"
              (roomOf seatedSpectator "r1") _ s' out
              seatedSpectator_reachable Hc Hme eq_refl Hw Hrun) as (r' & Hg' & Hw' & _).
  exists s', out, r'. split; [reflexivity |]. split; [exact Hg' | exact Hw'].
Defined.

(** ** Well-formedness of the registry *)

Lemma trimEnd_idemp s : Js.trimEnd (Js.trimEnd s) = Js.trimEnd s.
Proof.
  induction s as [|c s IH]; [done |]. cbn [Js.trimEnd].
  destruct (Js.trimEnd s) as [|d t] eqn:Ht.
  - destruct (Js.isSpace c) eqn:Hc; [done |]. cbn [Js.trimEnd]. by rewrite Hc.
  - cbn [Js.trimEnd]. cbn [Js.trimEnd] in IH. by rewrite IH.
Qed.

Lemma trimStart_head s :
  Js.trimStart s = EmptyString ∨
  ∃ c t, Js.trimStart s = String c t ∧ Js.isSpace c = false.
Proof.
  induction s as [|c s IH]; [by left |]. simpl.
  destruct (Js.isSpace c) eqn:Hc; [done |]. right. by exists c, s.
Qed.

Lemma trimEnd_head c t :
  Js.isSpace c = false → ∃ t', Js.trimEnd (String c t) = String c t'.
Proof.
  intros Hc. cbn [Js.trimEnd]. destruct (Js.trimEnd t); [|by eexists].
  rewrite Hc. by eexists.
Qed.

Lemma trim_idemp s : Js.trim (Js.trim s) = Js.trim s.
Proof.
  unfold Js.trim. destruct (trimStart_head s) as [->|(c & t & -> & Hc)]; [done |].
  destruct (trimEnd_head c t Hc) as [t' Ht]. rewrite Ht.
  assert (Hs : Js.trimStart (String c t') = String c t') by (simpl; by rewrite Hc).
  rewrite Hs, <- Ht. apply trimEnd_idemp.
Qed.

Lemma trimEnd_noSpace s :
  Js.allChars (λ c, negb (Js.isSpace c)) s = true → Js.trimEnd s = s.
Proof.
  induction s as [|c s IH]; [done |]. cbn [Js.allChars Js.trimEnd].
  intros [Hc Hs]%andb_true_iff. rewrite (IH Hs).
  destruct s; [|done]. apply negb_true_iff in Hc. by rewrite Hc.
Qed.

Lemma trim_noSpace s :
  Js.allChars (λ c, negb (Js.isSpace c)) s = true → Js.trim s = s.
Proof.
  intros Hs. unfold Js.trim.
  assert (Ht : Js.trimStart s = s).
  { destruct s as [|c s]; [done |]. simpl in *.
    apply andb_true_iff in Hs as [Hc _]. apply negb_true_iff in Hc. by rewrite Hc. }
  rewrite Ht. by apply trimEnd_noSpace.
Qed.

Lemma allChars_impl (P Q : ascii → bool) s :
  (∀ c, P c = true → Q c = true) → Js.allChars P s = true → Js.allChars Q s = true.
Proof.
  intros HPQ. induction s as [|c s IH]; [done |]. simpl.
  intros [Hc Hs]%andb_true_iff. by rewrite (HPQ c Hc), IH.
Qed.

Lemma isLowerHex_noSpace c : Js.isLowerHex c = true → negb (Js.isSpace c) = true.
Proof.
  unfold Js.isLowerHex, Js.isSpace. generalize (nat_of_ascii c). intros n H.
  rewrite orb_true_iff, !andb_true_iff, !Nat.leb_le in H.
  apply negb_true_iff, orb_false_iff. split.
  - apply Nat.eqb_neq. lia.
  - apply andb_false_iff. destruct (Nat.leb_spec n 13); [|by right].
    left. apply Nat.leb_gt. lia.
Qed.

Lemma trim_hex s : Js.allChars Js.isLowerHex s = true → Js.trim s = s.
Proof.
  intros H. apply trim_noSpace. revert H. apply allChars_impl, isLowerHex_noSpace.
Qed.

Lemma roomIdOf_trim d : Js.trim (roomIdOf d) = roomIdOf d ∧ roomIdOf d ≠ EmptyString.
Proof.
  destruct (roomIdOf_shape d) as [Hlen Hhex]. split; [by apply trim_hex |].
  intros Heq. by rewrite Heq in Hlen.
Qed.

Lemma playerOk_mono s s' p : (∀ c, known s c → known s' c) → playerOk s p → playerOk s' p.
Proof. intros Hm (Hk & Hrest). split; [by apply Hm | done]. Qed.

Lemma spectatorsOk_mono s s' r :
  (∀ c, known s c → known s' c) → spectatorsOk s r → spectatorsOk s' r.
Proof.
  intros Hm Hok l Hl. destruct (Hok l Hl) as (Hne & Hnd & Hk).
  split; [done |]. split; [done |]. intros w Hw. by apply Hm, Hk.
Qed.

Lemma registryOk_sub s s' :
  (∀ kv, kv ∈ rooms s' → kv ∈ rooms s) → (∀ c, known s c → known s' c) →
  registryOk s → registryOk s'.
Proof.
  intros Hsub Hm Hok k r Hin. destruct (Hok k r (Hsub _ Hin)) as (Hk & Ht & Hp & Hs).
  split; [done |]. split; [done |]. split.
  - intros seat p Hseat. eapply playerOk_mono; [done | by eapply Hp].
  - by eapply spectatorsOk_mono.
Qed.

Lemma registryOk_set s s' k r :
  registryOk s → (∀ c, known s c → known s' c) →
  (∀ kv, kv ∈ rooms s' → kv = (k, r) ∨ kv ∈ rooms s) →
  k ≠ EmptyString → Js.trim k = k →
  (∀ seat p, getSeat r seat = Some p → playerOk s' p) → spectatorsOk s' r →
  registryOk s'.
Proof.
  intros Hok Hm Hin Hk Ht Hp Hs k' r' Hkv.
  destruct (Hin _ Hkv) as [[= -> ->]|Hold]; [done |].
  destruct (Hok k' r' Hold) as (Hk' & Ht' & Hp' & Hs').
  split; [done |]. split; [done |]. split.
  - intros seat p Hseat. eapply playerOk_mono; [done | by eapply Hp'].
  - by eapply spectatorsOk_mono.
Qed.

Lemma leaveSpectators_elem ws rs kv :
  kv ∈ (leaveSpectators ws rs).2 →
  kv ∈ rs ∨ ∃ r, (kv.1, r) ∈ rs ∧ kv.2 = spectatorsWithout ws r.
Proof.
  induction rs as [|[id r] rs IH]; simpl; [by left |].
  destruct (Set_has ws (spectatorList r)); simpl.
  - intros [->|Hin]%elem_of_cons.
    + right. exists r. split; [apply list_elem_of_here | done].
    + left. by apply list_elem_of_further.
  - destruct (leaveSpectators ws rs) as [found rest'] eqn:Hl. simpl in *.
    intros [->|Hin]%elem_of_cons; [left; apply list_elem_of_here |].
    destruct (IH Hin) as [Hold|(r0 & Hr0 & Heq)].
    + left. by apply list_elem_of_further.
    + right. exists r0. split; [by apply list_elem_of_further | done].
Qed.

Lemma joinName_ok name0 :
  joinName name0 ≠ EmptyString ∧ (String.length (joinName name0) ≤ NAME_MAX)%nat.
Proof.
  unfold joinName. split.
  - intros H%string_length_0. rewrite slice0_length in H.
    assert (Hne : Js.orElse (Js.trim name0) "Player" ≠ EmptyString)
      by by apply orElse_nonempty.
    apply Hne, string_length_0. unfold NAME_MAX in H. lia.
  - rewrite slice0_length. lia.
Qed.

Lemma playerOf_ok s ws roomId seat name0 rnd :
  known s ws → playerOk s (playerOf ws roomId seat name0 rnd).
Proof.
  intros Hk. destruct (joinName_ok name0) as [Hne Hlen].
  split; [done |]. split; [done |]. split; [done |]. by exists (mathRandom rnd).
Qed.

Lemma roomOf_ok s k :
  registryOk s →
  (∀ seat p, getSeat (roomOf s k) seat = Some p → playerOk s p) ∧
  spectatorsOk s (roomOf s k).
Proof.
  intros Hok. unfold roomOf. destruct (Map_get k (rooms s)) as [r|] eqn:Hg; simpl.
  - destruct (Hok k r (elem_of_Map_get _ _ _ Hg)) as (_ & _ & Hp & Hs). done.
  - split; [by intros [] p | by intros l].
Qed.

Lemma spectatorsOk_without s ws r : spectatorsOk s r → spectatorsOk s (spectatorsWithout ws r).
Proof.
  intros Hok l. unfold spectatorsWithout. simpl.
  destruct (Set_delete ws (spectatorList r)) as [|w0 l0] eqn:Hd; [done |].
  intros [= <-]. split; [done |].
  unfold spectatorList in Hd. destruct (spectators r) as [l1|] eqn:Hl1; simpl in Hd;
    [|unfold Set_delete in Hd; by rewrite filter_nil in Hd].
  destruct (Hok l1 Hl1) as (_ & Hnd & Hk). rewrite <- Hd. split.
  - by apply Set_delete_NoDup.
  - intros w [_ Hw]%elem_of_Set_delete. by apply Hk.
Qed.

Lemma step_registryOk s e s' out :
  Inv s → registryOk s → step s e = Some (s', out) → registryOk s'.
Proof.
  intros HI Hok Hstep. pose proof (λ c, step_known s e s' out c Hstep) as Hm.
  pose proof HI as (_ & _ & _ & [_ Hsock] & _).
  destruct e as [ws|ws msg rnd|ws|ws|ws n|to| |]; cbn [step] in Hstep.
  - destruct (sockets s !! ws); [done |]. apply Some_pair_eq in Hstep as [-> _].
    by apply (registryOk_sub s).
  - destruct (isClient ws s) eqn:Hc; [|done]. apply isClient_elem in Hc.
    destruct msg as [| |room0 seat0 name0|z sq|ty]; cbn [onMessage] in Hstep.
    + by injection Hstep as <- _.
    + unfold handleCreate in Hstep. destruct (createRoom rnd s) as [[id s1]|] eqn:Hcr; [|done].
      injection Hstep as <- _. apply createRoom_Some in Hcr as (Hgen & _ & ->).
      apply generateUniqueRoomId_Some in Hgen as (used & d & rest & _ & _ & _ & ->).
      destruct (roomIdOf_trim d) as [Ht Hne].
      apply (registryOk_set s _ (roomIdOf d) emptyRoom); try done.
      * intros kv. simpl. apply elem_of_Map_set.
      * by intros [] p.
    + apply Some_pair_eq in Hstep as [-> _].
      destruct (decide (Js.trim room0 = EmptyString)) as [He|Hne].
      { by rewrite handleJoin_empty. }
      pose proof (handleJoin_state ws room0 seat0 name0 rnd s Hne) as (Hr & _).
      destruct (roomOf_ok s (Js.trim room0) Hok) as [Hp Hs].
      eapply (registryOk_set s _ (Js.trim room0)); try done.
      * intros kv. rewrite Hr. apply elem_of_Map_set.
      * apply trim_idemp.
      * intros seat p [Hold|[_ ->]]%joinedRoom_seat.
        -- eapply playerOk_mono; [done | by eapply Hp].
        -- apply playerOf_ok, Hm, Hsock, Hc.
      * unfold joinedRoom. destruct (assign _ _) as [st| |st].
        -- eapply spectatorsOk_mono; [done |]. intros l Hl. apply Hs. by destruct st.
        -- intros l [= <-]. split.
           { intros Hnil. assert (Hin : ws ∈ Set_add ws (spectatorList (roomOf s (Js.trim room0))))
               by (apply elem_of_Set_add; by left).
             rewrite Hnil in Hin. by apply elem_of_nil in Hin. }
           split.
           { apply Set_add_NoDup. unfold spectatorList.
             destruct (spectators (roomOf s (Js.trim room0))) as [l1|] eqn:Hl1; simpl;
               [by destruct (Hs l1 Hl1) as (_ & ? & _) | apply NoDup_nil_2]. }
           intros w [->|Hw]%elem_of_Set_add; [apply Hm, Hsock, Hc |].
           unfold spectatorList in Hw.
           destruct (spectators (roomOf s (Js.trim room0))) as [l1|] eqn:Hl1; simpl in Hw;
             [|by apply elem_of_nil in Hw].
           destruct (Hs l1 Hl1) as (_ & _ & Hk). by apply Hm, Hk.
        -- by eapply spectatorsOk_mono.
    + destruct (meOf s ws) as [p|]; [|by injection Hstep as <- _].
      apply Some_pair_eq in Hstep as [-> _].
      destruct (handleZones_frame p z sq s) as (Hr & _).
      apply (registryOk_sub s); [by rewrite Hr | done | done].
    + by injection Hstep as <- _.
  - destruct (isClient ws s); [|done]. injection Hstep as <- _.
    apply (registryOk_sub s); [|done | done].
    unfold onPong. by destruct (sockets s !! ws).
  - destruct (isClient ws s); [|done]. apply Some_pair_eq in Hstep as [-> _].
    destruct (closeSocket_shape ws s) as (Hr & _).
    unfold onClose, closeHandler in *. destruct (meOf s ws) as [p|] eqn:Hme.
    + rewrite Hr in *. destruct (Map_get (p_room p) (rooms s)) as [room|] eqn:Hroom;
        cbn [fst] in *; [|apply (registryOk_sub s); [by rewrite Hr | done | done]].
      destruct (Hok _ _ (elem_of_Map_get _ _ _ Hroom)) as (Hk & Ht & Hp & Hs).
      eapply (registryOk_set s _ (p_room p) (vacate p room)); try done.
      * intros kv. simpl. rewrite ?Hr. apply elem_of_Map_set.
      * intros seat q Hq%vacate_seat. eapply playerOk_mono; [done | by eapply Hp].
      * eapply spectatorsOk_mono; [done |]. intros l. rewrite vacate_spectators. apply Hs.
    + rewrite Hr in *. pose proof (leaveSpectators_elem ws (rooms s)) as Hel.
      destruct (leaveSpectators ws (rooms s)) as [[id|] rs']; cbn [fst snd] in *;
        [|apply (registryOk_sub s); [by rewrite Hr | done | done]].
      intros k r' Hin. simpl in Hin.
      destruct (Hel _ Hin) as [Hold|(r & Hold & Heq)]; simpl in *.
      * destruct (Hok k r' Hold) as (Hk & Ht & Hp & Hs).
        split; [done |]. split; [done |]. split.
        -- intros seat q Hq. eapply playerOk_mono; [done | by eapply Hp].
        -- by eapply spectatorsOk_mono.
      * destruct (Hok k r Hold) as (Hk & Ht & Hp & Hs). subst r'.
        split; [done |]. split; [done |]. split.
        -- intros seat q. rewrite spectatorsWithout_seat. intros Hq.
           eapply playerOk_mono; [done | by eapply Hp].
        -- eapply spectatorsOk_mono; [done |]. by apply spectatorsOk_without.
  - destruct (isClient ws s); [|done]. injection Hstep as <- _.
    apply (registryOk_sub s); [|done | done].
    unfold setBuffered. by destruct (sockets s !! ws).
  - destruct (timerPending to s); [|done]. apply Some_pair_eq in Hstep as [-> _].
    destruct (flush_shape to (setTimers (dropTimer to) s)) as (Hr & _).
    apply (registryOk_sub s); [by rewrite Hr | done | done].
  - apply Some_pair_eq in Hstep as [-> _].
    destruct (heartbeat_keepsMe s) as (Hr & _).
    apply (registryOk_sub s); [by rewrite Hr | done | done].
  - injection Hstep as <- _. apply (registryOk_sub s); [|done | done].
    intros kv. unfold reap. simpl. by intros [_ ?]%list_elem_of_filter.
Qed.

Lemma run_registryOk es s s' out :
  run s es = Some (s', out) → Inv s → registryOk s → registryOk s'.
Proof.
  revert s out. induction es as [|e es IH]; intros s out; simpl.
  - by intros [= <- _].
  - destruct (step s e) as [[s1 o1]|] eqn:Hstep; [|done].
    destruct (run s1 es) as [[s2 o2]|] eqn:Hrun; [|done].
    intros [= <- _] HI Hok. eapply IH; [done | by eapply step_Inv | by eapply step_registryOk].
Qed.

Lemma reachable_registryOk s : reachable s → registryOk s.
Proof.
  intros (es & out & Hrun). eapply run_registryOk; [done | apply initial_Inv |].
  by intros k r ?%elem_of_nil.
Qed.



(** X18. A room of the registry is reached by a join that names its id: the
    id is what the join handler makes of it, so the join acts on that very
    room, adds no room to the registry and leaves every other room as it
    is. *)
Theorem registered_room_is_joinable s ws k r seat0 name0 rnd :
  reachable s → Map_get k (rooms s) = Some r →
  let res := handleJoin ws k seat0 name0 rnd s in
  Js.trim k = k ∧
  Map_get k (rooms res.1) = Some (joinedRoom ws k (Js.toUpperCase seat0) name0 rnd r) ∧
  Map_keys (rooms res.1) = Map_keys (rooms s) ∧
  (∀ k', k' ≠ k → Map_get k' (rooms res.1) = Map_get k' (rooms s)).
Proof.
  intros Hreach Hg res.
  destruct (reachable_registryOk s Hreach k r (elem_of_Map_get _ _ _ Hg)) as (Hk & Ht & _).
  assert (Hne : Js.trim k ≠ EmptyString) by by rewrite Ht.
  destruct (handleJoin_state ws k seat0 name0 rnd s Hne) as (Hr & _).
  fold res in Hr. rewrite Ht in Hr. unfold roomOf in Hr. rewrite Hg in Hr. simpl in Hr.
  split; [done |]. rewrite Hr. split; [apply Map_get_set_eq |]. split.
  - rewrite Map_keys_set. unfold Map_has. by rewrite Hg.
  - intros k' Hk'. by apply Map_get_set_ne.
Qed.

Lemma registered_room_is_joinable_witness :
  reachable created ∧
  Map_get (roomIdOf draw1) (rooms created) = Some emptyRoom ∧
  Map_keys (rooms (handleJoin 1 (roomIdOf draw1) "AUTO" "Ann" rnd0 created).1)
  = Map_keys (rooms created).
Proof.
  assert (Hg : Map_get (roomIdOf draw1) (rooms created) = Some emptyRoom) by reflexivity.
  split; [exact created_reachable |]. split; [exact Hg |].
  exact (proj1 (proj2 (proj2 (registered_room_is_joinable created 1 (roomIdOf draw1)
           emptyRoom "AUTO" "Ann" rnd0 created_reachable Hg)))).
Defined.

(** ** The client hook *)

Lemma padStart_toString16 x :
  Client.padStart 2 "0"%char (Client.toString16 x) = Js.hexByte x.
Proof. destruct x; reflexivity. Qed.

Lemma generateRoomId_toHex a : Client.generateRoomId a = Js.toHex a.
Proof.
  unfold Client.generateRoomId. induction a as [|x a IH]; [done |].
  rewrite toHex_cons, <- IH. cbn [map String.concat]. rewrite padStart_toString16.
  destruct a as [|y a]; reflexivity.
Qed.

(** X19. The room id a client generates has the form of the ids the server
    creates: [generateRoomId] renders its random bytes as the server
    renders those of [randomBytes], two lowercase hex digits for each byte
    (32 characters for the 16 bytes it draws by default), so the id is not
    empty and the join handler, which trims the room id, keeps it as it
    is. *)
Theorem generateRoomId_matches_server (a : list byte) :
  Client.generateRoomId a = Js.toHex a ∧
  String.length (Client.generateRoomId a) = (2 * length a)%nat ∧
  Js.allChars Js.isLowerHex (Client.generateRoomId a) = true ∧
  Js.trim (Client.generateRoomId a) = Client.generateRoomId a ∧
  (a ≠ [] → Client.generateRoomId a ≠ EmptyString) ∧
  (∀ d : Vector.t byte 16,
     Client.generateRoomId (Vector.to_list d) = roomIdOf d ∧
     String.length (Client.generateRoomId (Vector.to_list d)) = 32%nat).
Proof.
  rewrite generateRoomId_toHex. split; [done |]. split; [apply toHex_length |].
  split; [apply toHex_lower |]. split; [apply trim_hex, toHex_lower |]. split.
  - intros Hne Heq. apply Hne. pose proof (toHex_length a) as Hlen.
    rewrite Heq in Hlen. simpl in Hlen. destruct a; [done | simpl in Hlen; lia].
  - intros d. rewrite generateRoomId_toHex. split; [done |].
    by destruct (roomIdOf_shape d).
Qed.

Lemma inbox_app ws o1 o2 : inbox ws (o1 ++ o2) = inbox ws o1 ++ inbox ws o2.
Proof. unfold inbox. apply omap_app. Qed.

Lemma inbox_broadcast ws msg (l : list WebSocket) :
  inbox ws (map (λ w, Send w msg) l) = replicate (length (filter (λ w, w = ws) l)) msg.
Proof.
  induction l as [|w l IH]; [done |]. rewrite filter_cons.
  change (inbox ws (map (λ w, Send w msg) (w :: l)))
    with (match (if decide (w = ws) then Some msg else None) with
          | Some m => m :: inbox ws (map (λ w, Send w msg) l)
          | None => inbox ws (map (λ w, Send w msg) l)
          end).
  rewrite IH. by destruct (decide (w = ws)).
Qed.

Lemma inbox_send ws m : inbox ws [Send ws m] = [m].
Proof. unfold inbox. simpl. by rewrite decide_True. Qed.

Lemma filter_eq_length (ws : WebSocket) l :
  ws ∈ l → ∃ n, length (filter (λ w, w = ws) l) = S n.
Proof.
  induction l as [|w l IH]; [by intros ?%elem_of_nil |].
  rewrite filter_cons. destruct (decide (w = ws)) as [->|Hne]; simpl.
  - intros _. by eexists.
  - intros [->|Hin]%elem_of_cons; [done | by apply IH].
Qed.

Lemma receive_rosters truthy cws k roster n c :
  Client.wsRef c = Some cws →
  Client.receive truthy cws (replicate (S n) (Roster k roster)) c
  = Client.mkState (Client.status c) roster (Client.myId c) (Client.myName c)
      (Client.role c) (Client.mySeat c) (Client.opponentZones c) (Client.wsRef c).
Proof.
  unfold Client.receive. revert c. induction n as [|n IH]; intros c Hc.
  - simpl. unfold Client.onmessage. by rewrite decide_True.
  - change (replicate (S (S n)) (Roster k roster))
      with (Roster k roster :: replicate (S n) (Roster k roster)).
    cbn [foldl]. rewrite IH.
    + unfold Client.onmessage. by rewrite decide_True.
    + unfold Client.onmessage. by rewrite decide_True.
Qed.

Lemma receive_app truthy cws l1 l2 c :
  Client.receive truthy cws (l1 ++ l2) c
  = Client.receive truthy cws l2 (Client.receive truthy cws l1 c).
Proof. unfold Client.receive. apply foldl_app. Qed.

Lemma receive_one truthy cws m c :
  Client.wsRef c = Some cws →
  Client.receive truthy cws [m] c
  = match m with
    | Hello | Created _ => c
    | Error _ =>
        Client.mkState (Client.status c) (Client.players c) (Client.myId c)
          (Client.myName c) Client.RoleSpectator None (Client.opponentZones c)
          (Client.wsRef c)
    | Joined _ id seat name =>
        Client.mkState (Client.status c) (Client.players c) (Js.orElse id EmptyString)
          (Client.named name c) Client.RolePlayer (Some seat) (Client.opponentZones c)
          (Client.wsRef c)
    | JoinedSpectator _ id name =>
        Client.mkState (Client.status c) (Client.players c) (Js.orElse id EmptyString)
          (Client.named name c) Client.RoleSpectator None (Client.opponentZones c)
          (Client.wsRef c)
    | Roster _ roster =>
        Client.mkState (Client.status c) roster (Client.myId c) (Client.myName c)
          (Client.role c) (Client.mySeat c) (Client.opponentZones c) (Client.wsRef c)
    | Zones payload =>
        Client.mkState (Client.status c) (Client.players c) (Client.myId c)
          (Client.myName c) (Client.role c) (Client.mySeat c)
          (if truthy (zones payload) then Some (zones payload) else None)
          (Client.wsRef c)
    end.
Proof.
  intros Hc. unfold Client.receive. simpl. unfold Client.onmessage.
  rewrite decide_True by done. by destruct m.
Qed.

Lemma isFull_roster (r : Room) :
  (2 <=? length (rosterOf r))%nat = true ↔ is_Some (seatA r) ∧ is_Some (seatB r).
Proof.
  unfold rosterOf, occupants. simpl. destruct (seatA r), (seatB r); simpl; split;
    try done; try (by intros [[? ?] [? ?]]); intros _; split; by eexists.
Qed.

Lemma orElse_empty a : Js.orElse a EmptyString = a.
Proof. by destruct a. Qed.

Lemma named_joinName name0 c : Client.named (joinName name0) c = joinName name0.
Proof.
  destruct (joinName_ok name0) as [Hne _]. unfold Client.named.
  by destruct (joinName name0).
Qed.

(** X20. Client and server agree on the outcome of the join a client sends
    when its socket opens.  The server handles the AUTO request of an open,
    connected socket that has not joined before; once the client has
    handled the messages of that turn addressed to it, it shows the role of
    a player exactly when the server has recorded a player for the
    connection, with the seat, id and name of that record; it shows the role
    of a spectator exactly when the server has put the socket among the
    spectators of the room; its list of players is the roster of the room,
    [isFull] holds exactly when both seats are taken, and [sendZoneState]
    sends a zones message exactly when the server would relay it. *)
Theorem client_agrees_with_server_on_join truthy s ws cws room playerName rnd c z :
  ws ∈ clients s → readyStateOf s ws = OPEN → meOf s ws = None →
  Client.wsRef c = Some cws → Js.trim room ≠ EmptyString →
  let c1 := (Client.onopen room playerName c).1 in
  let m := (Client.onopen room playerName c).2 in
  ∃ s' out,
    step s (EMessage ws m rnd) = Some (s', out) ∧
    let c2 := Client.receive truthy cws (inbox ws out) c1 in
    let r' := roomOf s' (Js.trim room) in
    Client.players c2 = rosterOf r' ∧
    (Client.isFull c2 = true ↔ is_Some (seatA r') ∧ is_Some (seatB r')) ∧
    Client.myName c2 = joinName playerName ∧
    match assign "AUTO" (roomOf s (Js.trim room)) with
    | Seated st =>
        Client.role c2 = Client.RolePlayer ∧ Client.mySeat c2 = Some st ∧
        ∃ p, meOf s' ws = Some p ∧ getSeat r' st = Some p ∧ p_seat p = st ∧
             Client.myId c2 = p_id p ∧ Client.myName c2 = p_name p
    | Spectating =>
        Client.role c2 = Client.RoleSpectator ∧ Client.mySeat c2 = None ∧
        meOf s' ws = None ∧ ws ∈ spectatorList r' ∧
        is_Some (seatA r') ∧ is_Some (seatB r')
    | Occupied _ => False
    end ∧
    (is_Some (Client.sendZoneState OPEN z c2) ↔ is_Some (meOf s' ws)).
Proof.
  intros Hc Hopen Hme Hws Hne c1 m.
  pose proof (handleJoin_assign ws room "AUTO" playerName rnd s Hne) as Hj.
  pose proof (handleJoin_room ws room "AUTO" playerName rnd s Hne) as Hroom.
  pose proof (handleJoin_readyState ws room "AUTO" playerName rnd s ws) as Hrs.
  cbv zeta in Hj, Hroom. change (Js.toUpperCase "AUTO") with "AUTO" in Hj, Hroom.
  exists (handleJoin ws room "AUTO" playerName rnd s).1,
         (handleJoin ws room "AUTO" playerName rnd s).2.
  split.
  { unfold m. cbn [Client.onopen snd step onMessage].
    rewrite (proj2 (isClient_elem ws s) Hc). by destruct (handleJoin _ _ _ _ _ _). }
  assert (Hws1 : Client.wsRef c1 = Some cws) by done.
  rewrite Hopen in Hrs. cbv zeta. rewrite Hroom.
  set (room0 := roomOf s (Js.trim room)) in *.
  pose proof (assign_auto room0) as Hauto.
  destruct (assign "AUTO" room0) as [st| |st] eqn:Ha.
  - set (p := playerOf ws (Js.trim room) st playerName rnd) in *.
    rewrite Hj in Hrs |- *. cbn [fst snd] in Hrs |- *.
    set (s2 := setRooms _ (setSockets _ _)) in *.
    assert (Hg : Map_get (Js.trim room) (rooms s2) = Some (setSeat room0 st (Some p))).
    { unfold s2. simpl. apply Map_get_set_eq. }
    assert (Hin : ws ∈ filter (λ w, readyStateOf s2 w = OPEN) (members (setSeat room0 st (Some p)))).
    { apply list_elem_of_filter. split; [done |]. unfold members. apply elem_of_app. left.
      apply (list_elem_of_fmap_2 p_ws _ p). apply elem_of_occupants. exists st.
      apply getSeat_setSeat. }
    destruct (filter_eq_length ws _ Hin) as [n Hn].
    rewrite send_open by done. rewrite (broadcastRoom_Some _ _ _ Hg).
    rewrite inbox_app, inbox_broadcast, Hn.
    rewrite inbox_send, receive_app, (receive_one _ _ _ _ Hws1).
    rewrite receive_rosters by done. cbn.
    rewrite orElse_empty, named_joinName.
    assert (Hme2 : meOf s2 ws = Some p).
    { unfold s2. apply meOf_setMe. simpl. by apply readyStateOf_open_socket. }
    split; [done |]. split; [apply isFull_roster |]. split; [done |]. split.
    + split; [done |]. split; [done |]. exists p. rewrite getSeat_setSeat. done.
    + unfold Client.sendZoneState. cbn. rewrite Hws, decide_True by done.
      rewrite Hme2. split; intros _; by eexists.
  - rewrite Hj in Hrs |- *. cbn [fst snd] in Hrs |- *.
    set (r' := setSpectators room0 _) in *.
    set (s2 := setRooms _ (setRooms _ s)) in *.
    assert (Hg : Map_get (Js.trim room) (rooms s2) = Some r').
    { unfold s2. simpl. apply Map_get_set_eq. }
    assert (Hsp : ws ∈ spectatorList r').
    { unfold r', spectatorList. simpl. apply elem_of_Set_add. by left. }
    assert (Hin : ws ∈ filter (λ w, readyStateOf s2 w = OPEN) (members r')).
    { apply list_elem_of_filter. split; [done |]. unfold members. apply elem_of_app. by right. }
    destruct (filter_eq_length ws _ Hin) as [n Hn].
    rewrite send_open by done. rewrite (broadcastRoom_Some _ _ _ Hg).
    rewrite inbox_app, inbox_broadcast, Hn.
    rewrite inbox_send, receive_app, (receive_one _ _ _ _ Hws1).
    rewrite receive_rosters by done. cbn.
    rewrite named_joinName.
    assert (Hme2 : meOf s2 ws = None) by done.
    assert (Hfull : is_Some (seatA r') ∧ is_Some (seatB r')).
    { unfold r'. simpl. unfold isFree in Hauto. simpl in Hauto.
      destruct (seatA room0), (seatB room0); done. }
    split; [done |]. split; [apply isFull_roster |]. split; [done |]. split.
    + done.
    + unfold Client.sendZoneState. cbn. rewrite Hws, decide_False by (intros [_ [=]]).
      rewrite Hme2. split; intros [? [=]].
  - unfold isFree in Hauto. destruct (getSeat room0 A), (getSeat room0 B); done.
Qed.

Lemma client_agrees_with_server_on_join_witness :
  1 ∈ clients lobby ∧ readyStateOf lobby 1 = OPEN ∧ meOf lobby 1 = None ∧
  Client.wsRef annClient = Some 7 ∧ Js.trim "r1" ≠ EmptyString ∧
  ∃ s' out,
    step lobby (EMessage 1 (Client.onopen "r1" "Ann" annClient).2 rnd0) = Some (s', out) ∧
    Client.role (Client.receive (λ _, true) 7 (inbox 1 out)
                   (Client.onopen "r1" "Ann" annClient).1) = Client.RolePlayer.
Proof.
  assert (Hc : 1 ∈ clients lobby) by apply list_elem_of_here.
  assert (Hne : Js.trim "r1" ≠ EmptyString) by (vm_compute; discriminate).
  split; [exact Hc |]. split; [reflexivity |]. split; [reflexivity |].
  split; [reflexivity |]. split; [exact Hne |].
  destruct (client_agrees_with_server_on_join (λ _, true) lobby 1 7 "r1" "Ann" rnd0
              annClient "z" Hc eq_refl eq_refl eq_refl Hne)
    as (s' & out & Hstep & _ & _ & _ & Hcase & _).
  exists s', out. split; [exact Hstep |].
  change (assign "AUTO" (roomOf lobby (Js.trim "r1"))) with (Seated A) in Hcase.
  exact (proj1 Hcase).
Defined.

(** X21. A zones update travels from one client to its peers.  When a
    client in the role of a player calls [sendZoneState] on an open socket
    and the server has a player record for that connection, the server
    stores the payload for the opposite seat and for every spectator of the
    room; when the flush timer of such a destination fires on an open,
    uncongested socket, exactly one zones message is written to it,
    carrying the sender's seat and the zones as sent, and the client at the
    other end shows those zones as the opponent's (or none, if the value is
    falsy). *)
Theorem zones_reach_peer truthy s ws p room z rnd d cA cws c :
  reachable s → ws ∈ clients s → meOf s ws = Some p →
  Map_get (p_room p) (rooms s) = Some room → d ∈ relayTargets room p →
  readyStateOf s d = OPEN → (bufferedAmountOf s d ≤ DROP_THRESHOLD)%Z →
  is_Some (Client.wsRef cA) → Client.role cA = Client.RolePlayer →
  Client.wsRef c = Some cws →
  ∃ m s' out,
    Client.sendZoneState OPEN z cA = Some m ∧
    run s [EMessage ws m rnd; ETimeout d] = Some (s', out) ∧
    out = [Send d (Zones (mkZones (p_seat p) z None))] ∧
    latestZones s' !! d = None ∧
    Client.opponentZones (Client.receive truthy cws (inbox d out) c)
    = (if truthy z then Some z else None).
Proof.
  intros Hreach Hc Hme Hg Hd Hopen Hbuf [a Ha] Hrole Hws.
  set (payload := mkZones (p_seat p) z None).
  set (s1 := pushAll payload (relayTargets room p) s).
  assert (Hstep1 : step s (EMessage ws (MZones z None) rnd) = Some (s1, [])).
  { apply step_zones; [by apply isClient_elem | done | done]. }
  assert (Hp : timerPending d s1 = true).
  { apply pushAll_pending; [by apply reachable_scheduledPending | done]. }
  assert (Hl : latestZones (setTimers (dropTimer d) s1) !! d = Some payload).
  { simpl. unfold s1. rewrite pushAll_lookup. by rewrite decide_True. }
  destruct (pushAll_frame payload (relayTargets room p) s) as (_ & Hsock & _).
  assert (Hsend : send (setTimers (dropTimer d) s1) d (Zones payload) true
                  = [Send d (Zones payload)]).
  { rewrite send_droppable. rewrite decide_True; [done |].
    unfold readyStateOf, bufferedAmountOf in *. simpl. fold s1 in Hsock.
    by rewrite Hsock. }
  exists (MZones z None). eexists. exists [Send d (Zones payload)].
  split; [unfold Client.sendZoneState; rewrite Ha, decide_True; done |].
  split.
  { cbn [run]. rewrite Hstep1. cbn [step]. rewrite Hp.
    rewrite (flush_Some _ _ payload Hl), Hsend. reflexivity. }
  split; [done |]. split; [simpl; by rewrite lookup_delete_eq |].
  rewrite inbox_send, (receive_one _ _ _ _ Hws). done.
Qed.

Lemma zones_reach_peer_witness :
  reachable fullRoom ∧ 1 ∈ clients fullRoom ∧ meOf fullRoom 1 = Some ann ∧
  ∃ s' out,
    run fullRoom [EMessage 1 (MZones "z1" None) rnd0; ETimeout 2] = Some (s', out) ∧
    out = [Send 2 (Zones (mkZones A "z1" None))].
Proof.
  assert (Hc : 1 ∈ clients fullRoom) by apply list_elem_of_here.
  assert (Hd : 2 ∈ relayTargets (roomOf fullRoom "r1") ann)
    by (vm_compute; apply list_elem_of_here).
  assert (Hb : (bufferedAmountOf fullRoom 2%nat ≤ DROP_THRESHOLD)%Z)
    by (vm_compute; discriminate).
  split; [exact fullRoom_reachable |]. split; [exact Hc |]. split; [reflexivity |].
  destruct (zones_reach_peer (λ _, true) fullRoom 1 ann (roomOf fullRoom "r1") "z1" rnd0 2
              annClient 7 annClient fullRoom_reachable Hc eq_refl eq_refl Hd eq_refl Hb
              (ex_intro _ 7 eq_refl) eq_refl eq_refl)
    as (m & s' & out & Hm & Hrun & Hout & _).
  injection Hm as <-. exists s', out. split; [exact Hrun | exact Hout].
Defined.

Lemma receive_stale truthy ws msgs c :
  Client.wsRef c ≠ Some ws → Client.receive truthy ws msgs c = c.
Proof.
  intros Hne. unfold Client.receive. induction msgs as [|m msgs IH]; [done |].
  cbn [foldl]. unfold Client.onmessage at 2. by rewrite decide_False.
Qed.

(** X22. Messages of a socket the hook has left behind change nothing.
    When the hook switches to another room or name, the function returned
    by the effect clears the reference to the old socket and the effect
    stores the new one; whatever the old socket still delivers is then
    ignored.  The new connection starts as a player without seat or id,
    and keeps the list of players and the opponent's zones of the old
    one until the server sends new ones. *)
Theorem stale_socket_messages_ignored truthy ws ws' room playerName msgs c :
  Client.wsRef c = Some ws → ws' ≠ ws →
  let c1 := Client.cleanup ws c in
  let c2 := Client.effect room playerName ws' c1 in
  Client.wsRef c1 = None ∧
  Client.receive truthy ws msgs c1 = c1 ∧ Client.receive truthy ws msgs c2 = c2 ∧
  (room ≠ EmptyString →
   Client.wsRef c2 = Some ws' ∧ Client.status c2 = Client.Connecting ∧
   Client.role c2 = Client.RolePlayer ∧ Client.mySeat c2 = None ∧
   Client.myId c2 = EmptyString ∧ Client.myName c2 = playerName ∧
   Client.players c2 = Client.players c ∧
   Client.opponentZones c2 = Client.opponentZones c).
Proof.
  intros Hws Hne c1 c2.
  assert (H1 : Client.wsRef c1 = None).
  { unfold c1, Client.cleanup. by rewrite decide_True. }
  assert (H2 : Client.wsRef c2 ≠ Some ws).
  { unfold c2, Client.effect. case_decide; [by rewrite H1 |]. simpl. congruence. }
  split; [done |]. split; [apply receive_stale; by rewrite H1 |].
  split; [by apply receive_stale |].
  intros Hroom. unfold c2, Client.effect. rewrite decide_False by done. simpl.
  unfold c1, Client.cleanup. by rewrite decide_True.
Qed.

Lemma stale_socket_messages_ignored_witness :
  Client.wsRef annClient = Some 7 ∧
  Client.receive (λ _, true) 7 [Error "room required"]
    (Client.effect "r2" "Ann" 8 (Client.cleanup 7 annClient))
  = Client.effect "r2" "Ann" 8 (Client.cleanup 7 annClient).
Proof.
  split; [reflexivity |].
  assert (Hne : 8 ≠ 7) by discriminate.
  exact (proj1 (proj2 (proj2 (stale_socket_messages_ignored (λ _, true) 7 8 "r2" "Ann"
           [Error "room required"] annClient eq_refl Hne)))).
Defined.
